(** * GeneralAgent: the streaming dispatch loop and the summary memory

    A shallow embedding of [GeneralAgent/agent.py] and
    [GeneralAgent/memory/summary_memory.py].

    Python [str] values are modelled by [string]; a character is a code
    point below 256.  Python dictionaries, whose iteration order is the
    insertion order, are association lists with unique keys.  Objects
    that are mutated in place (the concepts, the nodes of the memory
    tree) live in a store and are addressed by their key or id.

    The language model, the interpreters, the output callback and the
    statements that put the system prompt together are opaque
    collaborators: they are parameters, and a call of one of them may
    raise, either an [Exception] or an exception that [except Exception]
    lets through.  Logging is left out. *)

From Stdlib Require Import String Ascii List Bool Arith Lia.
Import ListNotations.
Local Open Scope string_scope.
Local Open Scope list_scope.
Local Open Scope nat_scope.

(** Python's [+] on strings. *)
Infix "+:+" := String.append (at level 60, right associativity).

Set Implicit Arguments.

(** ** Python string primitives *)

Module PyStr.

(** The newline character. *)
Definition nl : ascii := "010"%char.

Definition NL : string := String nl EmptyString.

(** [str.isspace] on one character (code points below 256). *)
Definition isspace (c : ascii) : bool :=
  let n := nat_of_ascii c in
  ((9 <=? n) && (n <=? 13)) || ((28 <=? n) && (n <=? 32))
  || (n =? 133) || (n =? 160).

(** [s.lstrip()] *)
Fixpoint lstrip (s : string) : string :=
  match s with
  | EmptyString => EmptyString
  | String c s' => if isspace c then lstrip s' else s
  end.

(** [s.rstrip()] *)
Fixpoint rstrip (s : string) : string :=
  match s with
  | EmptyString => EmptyString
  | String c s' =>
      match rstrip s' with
      | EmptyString => if isspace c then EmptyString else String c EmptyString
      | r => String c r
      end
  end.

(** [s.strip()] *)
Definition strip (s : string) : string := rstrip (lstrip s).

(** [s.split(sep)] for a one-character separator: never empty. *)
Fixpoint split (sep : ascii) (s : string) : list string :=
  match s with
  | EmptyString => [EmptyString]
  | String c s' =>
      if Ascii.eqb c sep then EmptyString :: split sep s'
      else match split sep s' with
           | [] => [String c EmptyString]
           | h :: t => String c h :: t
           end
  end.

(** [s.startswith(p)] *)
Definition startswith (p s : string) : bool := String.prefix p s.

(** [s.endswith(p)] *)
Definition endswith (p s : string) : bool :=
  (String.length p <=? String.length s)
  && String.eqb (substring (String.length s - String.length p) (String.length p) s) p.

(** [s[n:]] *)
Fixpoint drop (n : nat) (s : string) : string :=
  match n, s with
  | 0, _ => s
  | S _, EmptyString => EmptyString
  | S n', String _ s' => drop n' s'
  end.

(** [s[2:-2]] *)
Definition slice_2_m2 (s : string) : string :=
  substring 2 (String.length s - 4) s.

(** [sep.join(l)] *)
Definition join (sep : string) (l : list string) : string := String.concat sep l.

(** [s.replace(old, new)]: every non-overlapping occurrence, left to
    right.  [skip] counts the characters of an occurrence still to be
    passed over. *)
Fixpoint replace_from (old new : string) (skip : nat) (s : string) : string :=
  match s with
  | EmptyString => EmptyString
  | String c s' =>
      match skip with
      | S k => replace_from old new k s'
      | 0 =>
          if String.prefix old s
          then new +:+ replace_from old new (String.length old - 1) s'
          else String c (replace_from old new 0 s')
      end
  end.

(** With an empty [old] Python puts [new] before every character and at
    the end. *)
Fixpoint intersperse_all (new s : string) : string :=
  match s with
  | EmptyString => new
  | String c s' => new +:+ String c (intersperse_all new s')
  end.

Definition replace (old new s : string) : string :=
  match old with
  | EmptyString => intersperse_all new s
  | _ => replace_from old new 0 s
  end.

(** A text that is not empty and has nothing to strip on either side. *)
Definition tight (l : string) : Prop :=
  l <> "" /\ rstrip l = l
  /\ match l with String c _ => isspace c = false | EmptyString => True end.

End PyStr.

(** ** The fenced directives of the summary memory

    The two patterns are ["```(\n)?show\n(.*?)\n```"] and the same with
    [hide], both compiled with [re.DOTALL]. *)

Module Directive.
Import PyStr.

Definition fence : string := "```".

(** One match: the whole matched text and the second group. *)
Record re_match := { group0 : string; group2 : string }.

(** The lazy [(.*?)] followed by a newline and the closing fence: the
    shortest text before the first newline-fence, and what follows it. *)
Fixpoint lazy_until_close (s : string) : option (string * string) :=
  if String.prefix (NL +:+ fence) s then Some (EmptyString, drop 4 s)
  else match s with
       | EmptyString => None
       | String c s' =>
           match lazy_until_close s' with
           | Some (g, rest) => Some (String c g, rest)
           | None => None
           end
       end.

(** The pattern anchored at the first character of [s].  After the
    opening fence the optional newline is taken when it is there: the
    word does not start with a newline, so leaving it cannot match. *)
Definition match_here (word s : string) : option re_match :=
  if String.prefix fence s then
    let s1 := drop 3 s in
    let opt := if String.prefix NL s1 then NL else EmptyString in
    let s2 := drop (String.length opt) s1 in
    if String.prefix (word +:+ NL) s2 then
      match lazy_until_close (drop (String.length word + 1) s2) with
      | Some (g, _) =>
          Some {| group0 := fence +:+ opt +:+ word +:+ NL +:+ g +:+ NL +:+ fence;
                  group2 := g |}
      | None => None
      end
    else None
  else None.

(** [re.search]: the leftmost match. *)
Fixpoint search (word s : string) : option re_match :=
  match match_here word s with
  | Some m => Some m
  | None => match s with
            | EmptyString => None
            | String _ s' => search word s'
            end
  end.

(** [re.finditer]: the successive non-overlapping matches.  [skip]
    counts the characters of the last match still to be passed over. *)
Fixpoint finditer_from (word : string) (skip : nat) (s : string) : list re_match :=
  match s with
  | EmptyString => []
  | String _ s' =>
      match skip with
      | S k => finditer_from word k s'
      | 0 =>
          match match_here word s with
          | Some m => m :: finditer_from word (String.length (group0 m) - 1) s'
          | None => finditer_from word 0 s'
          end
      end
  end.

Definition finditer (word s : string) : list re_match := finditer_from word 0 s.

End Directive.

(** A call either returns, lets a Python exception escape, or (for the
    two unbounded [while] loops) is cut off by the fuel. *)
Inductive res (A : Type) : Type :=
| Ok (a : A)
| Exc
| OutOfFuel.
Arguments Ok {A} a.
Arguments Exc {A}.
Arguments OutOfFuel {A}.

(** What a call may raise: an [Exception], which the clause
    [except Exception] catches, or another [BaseException]
    ([KeyboardInterrupt], [SystemExit], [asyncio.CancelledError]), which
    it lets through. *)
Inductive exn := Exception | BaseException.

(** A call of an opaque collaborator: it returns a value or raises. *)
Inductive call (A : Type) : Type :=
| Returns (a : A)
| Raises (e : exn).
Arguments Returns {A} a.
Arguments Raises {A} e.

(** One item of the response of [llm_inference]: a token, possibly the
    [None] token, or an exception raised while the next item is
    fetched. *)
Inductive chunk :=
| Token (token : option string)
| Fault (e : exn).

(** ** summary_memory.py *)

Module SummaryMemory.
Import PyStr Directive.

(** [SummaryMemoryNode]; [__post_init__] turns a missing [childrens] or
    [parents] into the empty list. *)
Record SummaryMemoryNode := {
  key : string;
  content : string;
  show : bool;
  childrens : list string;
  parents : list string
}.

Definition new_node (k c : string) (sh : bool) : SummaryMemoryNode :=
  {| key := k; content := c; show := sh; childrens := []; parents := [] |}.

Definition set_content (v : string) (n : SummaryMemoryNode) : SummaryMemoryNode :=
  {| key := key n; content := v; show := show n;
     childrens := childrens n; parents := parents n |}.

Definition set_show (b : bool) (n : SummaryMemoryNode) : SummaryMemoryNode :=
  {| key := key n; content := content n; show := b;
     childrens := childrens n; parents := parents n |}.

(** [__str__] *)
Definition node_str (n : SummaryMemoryNode) : string :=
  "<<" +:+ key n +:+ ">>" +:+ NL +:+ content n.

(** A Python [dict] with [str] keys: [d.get(k)] and [d[k] = v] (an
    existing key keeps its place, a new one goes last); [k in d] is
    whether [d.get(k)] finds something. *)
Section Dict.
Variable V : Type.

Fixpoint dict_get (d : list (string * V)) (k : string) : option V :=
  match d with
  | [] => None
  | (k', v) :: d' => if String.eqb k' k then Some v else dict_get d' k
  end.

Fixpoint dict_set (d : list (string * V)) (k : string) (v : V) : list (string * V) :=
  match d with
  | [] => [(k, v)]
  | (k', v') :: d' =>
      if String.eqb k' k then (k', v) :: d' else (k', v') :: dict_set d' k v
  end.
End Dict.

(** The TinyDB table: documents in insertion order. *)
Definition db_insert (doc : SummaryMemoryNode) (db : list SummaryMemoryNode) :=
  db ++ [doc].

(** [db.upsert(doc, Query().key == k)] *)
Definition db_upsert (doc : SummaryMemoryNode) (k : string) (db : list SummaryMemoryNode) :=
  if existsb (fun d => String.eqb (key d) k) db
  then map (fun d => if String.eqb (key d) k then doc else d) db
  else db ++ [doc].

(** The object: the concept store and the table behind it. *)
Record t := {
  concepts : list (string * SummaryMemoryNode);
  db : list SummaryMemoryNode
}.

(** [__init__], from the documents found in the table. *)
Definition init (stored : list SummaryMemoryNode) : t :=
  let cs := fold_left (fun d n => dict_set d (key n) n) stored [] in
  match cs with
  | [] => let root := new_node "ROOT" "" false in
          {| concepts := dict_set cs "ROOT" root; db := db_insert root stored |}
  | _ => {| concepts := cs; db := stored |}
  end.

Definition visible (n : SummaryMemoryNode) : bool :=
  show n && (0 <? String.length (strip (content n))).

(** [get_show_memory] *)
Definition get_show_memory (sm : t) : string :=
  strip (join (NL +:+ NL)
           (map node_str (filter visible (map snd (concepts sm))))).

Definition is_title (line : string) : bool :=
  startswith "<<" line && endswith ">>" line.

(** [nodes[key] = nodes.get(key, '') + value] *)
Definition store_block (nodes : list (string * string)) (k value : string)
  : list (string * string) :=
  let old := match dict_get nodes k with Some v => v | None => "" end in
  dict_set nodes k (old +:+ value).

(** The [for line in lines] loop of [get_nodes], with its three
    variables.  [value] is reset only where a title is already open. *)
Fixpoint get_nodes_loop (lines : list string) (key : option string)
    (value : string) (nodes : list (string * string))
  : option string * string * list (string * string) :=
  match lines with
  | [] => (key, value, nodes)
  | line :: rest =>
      let line := strip line in
      if String.length line =? 0 then get_nodes_loop rest key value nodes
      else if is_title line then
        match key with
        | Some k =>
            get_nodes_loop rest (Some (slice_2_m2 line)) "" (store_block nodes k value)
        | None => get_nodes_loop rest (Some (slice_2_m2 line)) value nodes
        end
      else get_nodes_loop rest key (value +:+ line +:+ NL) nodes
  end.

(** The statements of [get_nodes] after its loop. *)
Definition close_nodes (st : option string * string * list (string * string))
  : list (string * string) :=
  let '(key, value, nodes) := st in
  let nodes :=
    match key with
    | Some k => store_block nodes k value
    | None => nodes
    end in
  map (fun kv => (fst kv, strip (snd kv))) nodes.

(** [get_nodes] *)
Definition get_nodes (content : string) : list (string * string) :=
  close_nodes (get_nodes_loop (split nl (strip content)) None "" []).

(** A listed line: stripped, and unwrapped when it is a title. *)
Definition listed_key (line : string) : string :=
  let line := strip line in
  if is_title line then slice_2_m2 line else line.

Definition keys_of_group (g : string) : list string :=
  map listed_key (split nl (strip g)).

(** [get_hide_keys]: the keys of every hide directive of the stripped
    text. *)
Definition get_hide_keys (content : string) : list string * list re_match :=
  let hide_matches := finditer "hide" (strip content) in
  (flat_map (fun m => keys_of_group (group2 m)) hide_matches, hide_matches).

(** [get_show_keys]: the keys of the first show directive. *)
Definition get_show_keys (content : string) : list string * option re_match :=
  match search "show" content with
  | None => ([], None)
  | Some m => (keys_of_group (group2 m), Some m)
  end.

(** One round of the loop of [_parse_block]. *)
Definition upsert_block (sm : t) (kv : string * string) : t :=
  let '(k, value) := kv in
  let node :=
    match dict_get (concepts sm) k with
    | Some n => set_content value n
    | None => new_node k value false
    end in
  {| concepts := dict_set (concepts sm) k node; db := db_upsert node k (db sm) |}.

(** [_parse_block] *)
Definition _parse_block (content : string) (sm : t) : bool * string * t :=
  (true, content, fold_left upsert_block (get_nodes content) sm).

(** One round of the key loop of [_parse_hide]. *)
Definition hide_key (sm : t) (k : string) : t :=
  match dict_get (concepts sm) k with
  | Some n =>
      let node := set_show false n in
      {| concepts := dict_set (concepts sm) k node; db := db_upsert node k (db sm) |}
  | None =>
      let node := new_node k "" false in
      {| concepts := dict_set (concepts sm) k node; db := db_insert node (db sm) |}
  end.

(** [_parse_hide] *)
Definition _parse_hide (content : string) (sm : t) : bool * string * t :=
  let keys := fst (get_hide_keys content) in
  if length keys =? 0 then (false, content, sm)
  else
    let sm := fold_left hide_key keys sm in
    let hide_matches := finditer "hide" content in
    (true, fold_left (fun c m => replace (group0 m) "" c) hide_matches content, sm).

(** One round of the key loop of [_parse_show]: an unknown key is passed
    over. *)
Definition show_key (sm : t) (k : string) : t :=
  match dict_get (concepts sm) k with
  | Some n =>
      let node := set_show true n in
      {| concepts := dict_set (concepts sm) k node; db := db_upsert node k (db sm) |}
  | None => sm
  end.

Definition render_known (sm : t) (keys : list string) : list string :=
  flat_map (fun k => match dict_get (concepts sm) k with
                     | Some n => [node_str n]
                     | None => []
                     end) keys.

(** [_parse_show]; [show_match.group(0)] raises where the second search
    finds nothing. *)
Definition _parse_show (content : string) (sm : t) : res (bool * string * t) :=
  let keys := fst (get_show_keys content) in
  if length keys =? 0 then Ok (false, content, sm)
  else
    let sm := fold_left show_key keys sm in
    let replaced_value := join (NL +:+ NL) (render_known sm keys) in
    match search "show" content with
    | Some show_match => Ok (true, replace (group0 show_match) replaced_value content, sm)
    | None => Exc
    end.

(** [instant_parse] *)
Definition instant_parse (content : string) (sm : t) : res (bool * string * t) :=
  _parse_show content sm.

(** [post_parse] *)
Definition post_parse (content : string) (sm : t) : bool * string * t :=
  let '(hide_parsed, content, sm) := _parse_hide content sm in
  let '(fold_parsed, content, sm) := _parse_block content sm in
  (fold_parsed || hide_parsed, content, sm).

(** The [nodes] variable of the prompt: the visible concepts, one after
    the other. *)
Definition shown_nodes (sm : t) : string :=
  join NL (map node_str (filter visible (map snd (concepts sm)))).

Section AddContent.
(** The rendering of the prompt from [nodes] and [new_text], the model
    behind [llm_inference] as what it does for a message, and the
    [output_recall] argument: [None], or a callback given as whether
    its call returns ([true]) or raises, from the tokens it has been
    handed before and the one it is handed now. *)
Variable prompt : string -> string -> string.
Variable llm_inference : string -> call (list chunk).
Variable output_recall : option (list (option string) -> option string -> bool).

(** [if output_recall is not None: await output_recall(token)] *)
Definition recall_returns (seen : list (option string)) (token : option string)
  : bool :=
  match output_recall with
  | None => true
  | Some callback => callback seen token
  end.

(** The [for token in response] loop: [(parsed, result)] at its end,
    and the tokens handed to the callback so far. *)
Fixpoint read_tokens (response : list chunk) (seen : list (option string))
    (result : string) (sm : t)
  : res (bool * string * t * list (option string)) :=
  match response with
  | [] => Ok (false, result, sm, seen)
  | Fault _ :: _ => Exc
  | Token token :: rest =>
      if recall_returns seen token then
        match token with
        | None => read_tokens rest (seen ++ [token]) result sm
        | Some text =>
            match instant_parse (result +:+ text) sm with
            | Ok (true, result, sm) =>
                let '(_, result, sm) := post_parse result sm in
                Ok (true, result, sm, seen ++ [token])
            | Ok (false, result, sm) => read_tokens rest (seen ++ [token]) result sm
            | Exc => Exc
            | OutOfFuel => OutOfFuel
            end
        end
      else Exc
  end.

(** The [while True] loop. *)
Fixpoint add_content_loop (fuel : nat) (new_text : string)
    (seen : list (option string)) (result : string) (sm : t)
  : res (string * t) :=
  match fuel with
  | 0 => OutOfFuel
  | S fuel' =>
      match llm_inference (prompt (shown_nodes sm) new_text +:+ result) with
      | Raises _ => Exc
      | Returns response =>
          match read_tokens response seen result sm with
          | Ok (true, result, sm, seen) => add_content_loop fuel' new_text seen result sm
          | Ok (false, result, sm, _) =>
              let '(_, result, sm) := post_parse result sm in Ok (result, sm)
          | Exc => Exc
          | OutOfFuel => OutOfFuel
          end
      end
  end.

(** [add_content] *)
Definition add_content (fuel : nat) (input role : string) (sm : t)
  : res (string * t) :=
  if String.eqb role "user" || String.eqb role "system" then
    match dict_get (concepts sm) "ROOT" with
    | None => Exc
    | Some root_node =>
        let new_text := content root_node +:+ NL +:+ input in
        match add_content_loop fuel new_text [] "" sm with
        | Ok (_, sm) =>
            match dict_get (concepts sm) "ROOT" with
            | Some root => Ok (get_show_memory sm +:+ NL +:+ content root, sm)
            | None => Exc
            end
        | Exc => Exc
        | OutOfFuel => OutOfFuel
        end
    end
  else Exc.
End AddContent.

(** What [get_nodes] holds after its loop, before the final strip. *)
Definition gathered (st : option string * string * list (string * string))
  : list (string * string) :=
  let '(key, value, nodes) := st in
  match key with
  | Some k => store_block nodes k value
  | None => nodes
  end.

(** The concept a title has after the upsert of a block with text [v]. *)
Definition upserted (sm : t) (k v : string) : SummaryMemoryNode :=
  match dict_get (concepts sm) k with
  | Some n => set_content v n
  | None => new_node k v false
  end.

(** The concept [ROOT] is there, with this show flag and this text. *)
Definition root_is (sm : t) (sh : bool) (c : string) : Prop :=
  exists n, dict_get (concepts sm) "ROOT" = Some n /\ show n = sh /\ content n = c.

Definition has_root (sm : t) : Prop :=
  exists n, dict_get (concepts sm) "ROOT" = Some n.

(** The store with the concept [ROOT] taken out. *)
Definition without_root (sm : t) : t :=
  {| concepts := filter (fun kn => negb (String.eqb (fst kn) "ROOT")) (concepts sm);
     db := db sm |}.

(** The store is a dictionary from each concept's key to the concept. *)
Definition keyed (kn : string * SummaryMemoryNode) : Prop := key (snd kn) = fst kn.

(** The keys are unique, each concept is filed under its own key, and
    the table holds the concepts in the order of the store. *)
Definition store_ok (sm : t) : Prop :=
  NoDup (map fst (concepts sm)) /\ Forall keyed (concepts sm)
  /\ db sm = map snd (concepts sm).

End SummaryMemory.

(** ** The memory tree

    [GeneralAgent.memory.Memory] and [MemoryNode] are imported by
    [agent.py]; their code is not part of the sources at hand. *)

Module Memory.

Inductive Status := pending | success.

(** Modelled from the spec: the class [MemoryNode] is missing; section 3
    gives it an id, a role, an action tag, a text, a status that is
    pending or success, and a parent reference. *)
Record MemoryNode := {
  node_id : nat;
  role : string;
  action : string;
  content : string;
  status : Status;
  parent : option nat
}.

(** Modelled from the spec: the class [Memory] is missing; section 9
    asks for an arena of nodes addressed by stable ids, with a cursor.
    The list holds the nodes in the order of the to-do traversal. *)
Record t := {
  nodes : list MemoryNode;
  next_id : nat;
  current_node : option nat
}.

Definition empty : t := {| nodes := []; next_id := 0; current_node := None |}.

Definition has_id (id : nat) (n : MemoryNode) : bool := node_id n =? id.

(** Modelled from the spec: [get_node] is missing; a node is looked up
    by its id. *)
Definition get_node (m : t) (id : nat) : option MemoryNode :=
  find (has_id id) (nodes m).

Definition fresh (m : t) (r a c : string) (p : option nat) : MemoryNode :=
  {| node_id := next_id m; role := r; action := a; content := c;
     status := pending; parent := p |}.

(** Modelled from the spec: [add_node] is missing; section 4.1: appends
    the node as a new root-level leaf, assigns its id, sets its status
    to pending. *)
Definition add_node (m : t) (r a c : string) : MemoryNode * t :=
  (fresh m r a c None,
   {| nodes := nodes m ++ [fresh m r a c None];
      next_id := S (next_id m);
      current_node := current_node m |}).

Fixpoint insert_after (ref : nat) (n : MemoryNode) (l : list MemoryNode)
  : list MemoryNode :=
  match l with
  | [] => [n]
  | x :: l' => if has_id ref x then x :: n :: l' else x :: insert_after ref n l'
  end.

(** Modelled from the spec: [add_node_after] is missing; section 4.1:
    inserts the node as a child and successor of the reference node in
    traversal order and does not alter the reference node's status. *)
Definition add_node_after (m : t) (ref : nat) (r a c : string) : MemoryNode * t :=
  (fresh m r a c (Some ref),
   {| nodes := insert_after ref (fresh m r a c (Some ref)) (nodes m);
      next_id := S (next_id m);
      current_node := current_node m |}).

Definition update (id : nat) (f : MemoryNode -> MemoryNode) (m : t) : t :=
  {| nodes := map (fun n => if has_id id n then f n else n) (nodes m);
     next_id := next_id m;
     current_node := current_node m |}.

Definition mark_success (n : MemoryNode) : MemoryNode :=
  {| node_id := node_id n; role := role n; action := action n;
     content := content n; status := success; parent := parent n |}.

Definition with_content (c : string) (n : MemoryNode) : MemoryNode :=
  {| node_id := node_id n; role := role n; action := action n;
     content := c; status := status n; parent := parent n |}.

(** Modelled from the spec: [success_node] is missing; section 4.1:
    marks the status success, idempotent. *)
Definition success_node (m : t) (id : nat) : t := update id mark_success m.

(** The assignment [node.content = text] on a node of the tree. *)
Definition set_content (m : t) (id : nat) (c : string) : t :=
  update id (with_content c) m.

(** Modelled from the spec: [delete_node] is missing; section 4.1:
    removes the node and its status from the tree and leaves the other
    nodes as they are. *)
Definition delete_node (m : t) (id : nat) : t :=
  {| nodes := filter (fun n => negb (has_id id n)) (nodes m);
     next_id := next_id m;
     current_node := current_node m |}.

(** Modelled from the spec: [set_current_node] is missing; section 4.1:
    moves the cursor. *)
Definition set_current_node (m : t) (id : nat) : t :=
  {| nodes := nodes m; next_id := next_id m; current_node := Some id |}.

Definition is_pending (n : MemoryNode) : bool :=
  match status n with pending => true | success => false end.

(** Modelled from the spec: [get_todo_node] is missing; section 4.1: the
    next pending node in a fixed order, or nothing. *)
Definition get_todo_node (m : t) : option MemoryNode :=
  find is_pending (nodes m).

(** The fields a node object has now: those the tree holds for it, its
    own when it is no longer in the tree. *)
Definition current (m : t) (n : MemoryNode) : MemoryNode :=
  match get_node m (node_id n) with
  | Some n' => n'
  | None => n
  end.

(** No node carries an id that is still to be assigned. *)
Definition wf (m : t) : bool :=
  forallb (fun n => node_id n <? next_id m) (nodes m).

(** The chain of ancestors, the root first; the fuel bounds the walk. *)
Fixpoint ancestors (fuel : nat) (m : t) (id : nat) : list MemoryNode :=
  match fuel with
  | 0 => []
  | S fuel' =>
      match get_node m id with
      | None => []
      | Some n =>
          match parent n with
          | Some p => ancestors fuel' m p ++ [n]
          | None => [n]
          end
      end
  end.

(** Modelled from the spec: [get_related_messages_for_node] is missing;
    section 4.1: the ancestor chain from the root to the node as
    (role, content) pairs, without the nodes of empty content. *)
Definition get_related_messages_for_node (m : t) (id : nat)
  : list (string * string) :=
  map (fun n => (role n, content n))
    (filter (fun n => negb (String.eqb (content n) ""))
       (ancestors (length (nodes m)) m id)).

End Memory.

(** ** agent.py *)

Module Agent.
Import PyStr.

(** What a run does that can be seen from outside, in the order it
    happens.  A call of [parse] is recorded with what it did. *)
Inductive event :=
| EExecute (node : nat)            (* [_execute_node] is entered for a node *)
| EToken (token : option string)   (* one item is taken from the response *)
| ERecall (output : option string) (* [output_recall] is invoked *)
| EParse (i : nat) (content : string) (r : call (string * bool))
                                   (* [parse] of the output interpreter at place [i] *)
| EInputParse (i : nat) (content : string)
                                   (* [parse] of the input interpreter at place [i] *)
| EPoll.                           (* [stop_event.is_set()] is read *)

(** The collaborators are opaque; each is a function of what it is
    handed and of the events so far. *)

(** An output interpreter: whether its [match_template] is found in a
    text, and [parse(content) -> (output, is_stop)]. *)
Record OutputInterpreter := {
  match_template : string -> bool;
  parse : list event -> string -> call (string * bool)
}.

(** An input interpreter: its [parse] works on the memory it holds;
    [None] when it raises. *)
Record InputInterpreter := {
  input_match_template : string -> bool;
  input_parse : list event -> string -> Memory.t -> option Memory.t
}.

(** What awaiting one call of [output_recall] does: what it raises, if
    it does not return, and whether [agent.stop()] has been called
    meanwhile. *)
Record recall_effect := {
  raises : option exn;
  sets_stop : bool
}.

Definition returns (eff : recall_effect) : bool :=
  match raises eff with
  | None => true
  | Some _ => false
  end.

Definition callback := list event -> option string -> recall_effect.

(** [default_output_recall] is a plain function: it prints and returns
    [None], and awaiting [None] raises [TypeError]. *)
Definition default_output_recall : callback :=
  fun _ _ => {| raises := Some Exception; sets_stop := false |}.

(** What [__init__] builds, and what the run meets outside itself. *)
Record Env := {
  (* the statements of [_execute_node] that read [../requirements.txt],
     describe the tools and render [general_agent_prompt]: the system
     prompt, [None] when one of them raises *)
  system_prompt : list event -> option string;
  llm_inference : list event -> list (string * string) -> call (list chunk);
  plan_interperter : InputInterpreter;
  python_interpreter : OutputInterpreter;
  bash_interpreter : OutputInterpreter;
  applescript_interpreter : OutputInterpreter;
  file_interpreter : OutputInterpreter;
  ask_interpreter : OutputInterpreter;
  sleep_stop : list event -> bool  (* [stop()] is called while the loop sleeps *)
}.

Definition input_interpreters (env : Env) : list InputInterpreter :=
  [plan_interperter env].

Definition output_interpreters (env : Env) : list OutputInterpreter :=
  [python_interpreter env; bash_interpreter env; applescript_interpreter env;
   file_interpreter env; ask_interpreter env].

(** The fields of the agent that change. *)
Record state := {
  memory : Memory.t;
  trace : list event;
  stop_event : bool;
  is_running : bool
}.

Definition emit (e : event) (st : state) : state :=
  {| memory := memory st; trace := trace st ++ [e];
     stop_event := stop_event st; is_running := is_running st |}.

Definition set_memory (m : Memory.t) (st : state) : state :=
  {| memory := m; trace := trace st;
     stop_event := stop_event st; is_running := is_running st |}.

Definition set_running (b : bool) (st : state) : state :=
  {| memory := memory st; trace := trace st;
     stop_event := stop_event st; is_running := b |}.

(** [stop]: the event is set and never cleared. *)
Definition stop (b : bool) (st : state) : state :=
  {| memory := memory st; trace := trace st;
     stop_event := stop_event st || b; is_running := is_running st |}.

(** How the [try] block of [_execute_node] ends, with the values its
    variables [result] and [is_stop] have then: it runs to its end, it
    raises an [Exception], which the [except] clause takes, or it raises
    another exception, which leaves [_execute_node]. *)
Inductive try_end :=
| Completed (result : string) (is_stop : bool)
| Excepted (result : string) (is_stop : bool)
| Aborted (result : string) (is_stop : bool).

(** Where an exception raised inside the [try] block goes. *)
Definition raised_in_try (e : exn) (result : string) (is_stop : bool) : try_end :=
  match e with
  | Exception => Excepted result is_stop
  | BaseException => Aborted result is_stop
  end.

Inductive dispatched :=
| NoMatch
| Parsed (output : string) (is_stop : bool)
| ParseRaised (e : exn).

(** How one round of the [while] loop of [run] ends. *)
Inductive round_end :=
| Return (r : option nat)
| Continue (todo_node : option Memory.MemoryNode)
| Escaped.

Section Run.
Variable env : Env.
Variable output_recall : callback.

(** [await output_recall(o)]: what it raises, [None] when it returns. *)
Definition await_recall (o : option string) (st : state) : option exn * state :=
  let eff := output_recall (trace st) o in
  (raises eff, stop (sets_stop eff) (emit (ERecall o) st)).

(** The [for interpreter in self.output_interpreters] loop; [i] is the
    place of the head of [interps] in the list. *)
Fixpoint dispatch (interps : list OutputInterpreter) (i : nat)
    (result : string) (st : state) : dispatched * state :=
  match interps with
  | [] => (NoMatch, st)
  | interpreter :: rest =>
      if match_template interpreter result then
        let r := parse interpreter (trace st) result in
        (match r with
         | Returns (output, is_stop) => Parsed output is_stop
         | Raises e => ParseRaised e
         end, emit (EParse i result r) st)
      else dispatch rest (S i) result st
  end.

(** [await output_recall(None)], the last statement of the [try] block
    that can raise. *)
Definition end_of_turn (result : string) (is_stop : bool) (st : state)
  : try_end * state :=
  match await_recall None st with
  | (None, st) => (Completed result is_stop, st)
  | (Some e, st) => (raised_in_try e result is_stop, st)
  end.

(** The [for token in response] loop and the [await output_recall(None)]
    after it. *)
Fixpoint stream (response : list chunk) (result : string) (st : state)
  : try_end * state :=
  match response with
  | [] => end_of_turn result false st
  | Fault e :: _ => (raised_in_try e result false, st)
  | Token None :: _ => end_of_turn result false (emit (EToken None) st)
  | Token (Some token) :: rest =>
      let st := emit (EToken (Some token)) st in
      let result := result +:+ token in
      match await_recall (Some token) st with
      | (None, st) =>
          match dispatch (output_interpreters env) 0 result st with
          | (NoMatch, st) => stream rest result st
          | (ParseRaised e, st) => (raised_in_try e result false, st)
          | (Parsed output is_stop, st) =>
              match await_recall (Some (NL +:+ output +:+ NL)) st with
              | (None, st) => end_of_turn result is_stop st
              | (Some e, st) => (raised_in_try e result is_stop, st)
              end
          end
      | (Some e, st) => (raised_in_try e result false, st)
      end
  end.

(** The [try] block up to [await output_recall(None)]. *)
Definition try_block (messages : list (string * string)) (st : state)
  : try_end * state :=
  match llm_inference env (trace st) messages with
  | Returns response => stream response "" st
  | Raises e => (raised_in_try e "" false, st)
  end.

(** [_execute_node] before its [try]: the system prompt is put
    together, the messages are read from the tree, the answer node is
    added and a plan node is announced.  [None] when one of these
    raises: there is no handler around them. *)
Definition prepare (node : Memory.MemoryNode) (st : state)
  : option (list (string * string) * Memory.MemoryNode) * state :=
  let st := emit (EExecute (Memory.node_id node)) st in
  match system_prompt env (trace st) with
  | None => (None, st)
  | Some prompt =>
      let messages :=
        ("system", prompt)
        :: Memory.get_related_messages_for_node (memory st) (Memory.node_id node) in
      let '(answer_node, m) :=
        Memory.add_node_after (memory st) (Memory.node_id node) "system" "answer" "" in
      let st := set_memory (Memory.set_current_node m (Memory.node_id answer_node)) st in
      if String.eqb (Memory.action node) "plan" then
        match await_recall
                (Some (NL +:+ "[" +:+ Memory.content node +:+ "]" +:+ NL)) st with
        | (None, st) => (Some (messages, answer_node), st)
        | (Some _, st) => (None, st)
        end
      else (Some (messages, answer_node), st)
  end.

(** The end of the [try] block: both nodes are updated. *)
Definition commit (node answer_node : Memory.MemoryNode) (result : string)
    (is_stop : bool) (st : state) : res (nat * bool) * state :=
  let m := Memory.set_content (memory st) (Memory.node_id answer_node) result in
  let m := Memory.success_node m (Memory.node_id node) in
  let m := Memory.success_node m (Memory.node_id answer_node) in
  (Ok (Memory.node_id answer_node, is_stop), set_memory m st).

(** The [except Exception] clause; what its own callback call raises
    leaves [_execute_node]. *)
Definition recover (node answer_node : Memory.MemoryNode) (result : string)
    (is_stop : bool) (st : state) : res (nat * bool) * state :=
  match await_recall (Some result) st with
  | (None, st) =>
      (Ok (Memory.node_id node, is_stop),
       set_memory (Memory.delete_node (memory st) (Memory.node_id answer_node)) st)
  | (Some _, st) => (Exc, st)
  end.

(** [_execute_node]: the id of the node it returns, and [is_stop]. *)
Definition _execute_node (node : Memory.MemoryNode) (st : state)
  : res (nat * bool) * state :=
  match prepare node st with
  | (Some (messages, answer_node), st) =>
      match try_block messages st with
      | (Completed result is_stop, st) => commit node answer_node result is_stop st
      | (Excepted result is_stop, st) => recover node answer_node result is_stop st
      | (Aborted _ _, st) => (Exc, st)
      end
  | (None, st) => (Exc, st)
  end.

(** [_insert_node]; with an id that names no node there is nothing to
    insert after. *)
Definition _insert_node (input : string) (for_node_id : option nat) (st : state)
  : res Memory.MemoryNode * state :=
  match for_node_id with
  | None =>
      let '(node, m) := Memory.add_node (memory st) "user" "input" input in
      (Ok node, set_memory m st)
  | Some id =>
      match Memory.get_node (memory st) id with
      | Some for_node =>
          let '(node, m) :=
            Memory.add_node_after (memory st) (Memory.node_id for_node)
              "user" "input" input in
          (Ok node, set_memory (Memory.success_node m (Memory.node_id for_node)) st)
      | None => (Exc, st)
      end
  end.

(** The [for interpreter in self.input_interpreters] loop. *)
Fixpoint dispatch_input (interps : list InputInterpreter) (i : nat)
    (content : string) (st : state) : res unit * state :=
  match interps with
  | [] => (Ok tt, st)
  | interpreter :: rest =>
      if input_match_template interpreter content then
        match input_parse interpreter (trace st) content (memory st) with
        | Some m => (Ok tt, set_memory m (emit (EInputParse i content) st))
        | None => (Exc, emit (EInputParse i content) st)
        end
      else dispatch_input rest (S i) content st
  end.

(** The body of the [while todo_node is not None] loop: the turn, the
    next to-do node, [await asyncio.sleep(0)], during which [stop()]
    may be called, and only then the reading of the flag. *)
Definition loop_body (todo_node : Memory.MemoryNode) (st : state)
  : round_end * state :=
  match _execute_node todo_node st with
  | (Ok (new_node, is_stop), st) =>
      if is_stop then (Return (Some new_node), st)
      else
        let todo_node := Memory.get_todo_node (memory st) in
        let st := stop (sleep_stop env (trace st)) st in
        let st := emit EPoll st in
        if stop_event st then (Return None, set_running false st)
        else (Continue todo_node, st)
  | (_, st) => (Escaped, st)
  end.

Fixpoint run_loop (fuel : nat) (todo_node : option Memory.MemoryNode) (st : state)
  : res (option nat) * state :=
  match todo_node with
  | None => (Ok None, set_running false st)
  | Some node =>
      match fuel with
      | 0 => (OutOfFuel, st)
      | S fuel' =>
          match loop_body node st with
          | (Return r, st) => (Ok r, st)
          | (Continue todo_node, st) => run_loop fuel' todo_node st
          | (Escaped, st) => (Exc, st)
          end
      end
  end.

(** [todo_node = self.memory.get_todo_node() or input_node] *)
Definition first_todo (input_node : option Memory.MemoryNode) (m : Memory.t)
  : option Memory.MemoryNode :=
  match Memory.get_todo_node m with
  | Some n => Some n
  | None => option_map (Memory.current m) input_node
  end.

(** [run] from the input interpreters on. *)
Definition run_from (fuel : nat) (input_node : option Memory.MemoryNode)
    (st : state) : res (option nat) * state :=
  match
    match input_node with
    | Some node =>
        dispatch_input (input_interpreters env) 0 (Memory.content node)
          (set_memory (Memory.set_current_node (memory st) (Memory.node_id node)) st)
    | None => (Ok tt, st)
    end
  with
  | (Ok _, st) => run_loop fuel (first_todo input_node (memory st)) st
  | (Exc, st) => (Exc, st)
  | (OutOfFuel, st) => (OutOfFuel, st)
  end.

(** [run] *)
Definition run (fuel : nat) (input : option string) (for_node_id : option nat)
    (st : state) : res (option nat) * state :=
  let st := set_running true st in
  match input with
  | Some text =>
      match _insert_node text for_node_id st with
      | (Ok input_node, st) => run_from fuel (Some input_node) st
      | (Exc, st) => (Exc, st)
      | (OutOfFuel, st) => (OutOfFuel, st)
      end
  | None => run_from fuel None st
  end.

End Run.

(** *** Reading a trace *)

(** The arguments [output_recall] was invoked with, in order. *)
Fixpoint recalls (tr : list event) : list (option string) :=
  match tr with
  | [] => []
  | ERecall o :: tr' => o :: recalls tr'
  | _ :: tr' => recalls tr'
  end.

(** The tokens taken from the responses, in order. *)
Fixpoint tokens (tr : list event) : list string :=
  match tr with
  | [] => []
  | EToken (Some t) :: tr' => t :: tokens tr'
  | _ :: tr' => tokens tr'
  end.

(** The outputs of the calls of [parse] that returned, in order. *)
Fixpoint outputs (tr : list event) : list string :=
  match tr with
  | [] => []
  | EParse _ _ (Returns (output, _)) :: tr' => output :: outputs tr'
  | _ :: tr' => outputs tr'
  end.

(** What the callback is handed for the output of an interpreter. *)
Definition framed (output : string) : option string := Some (NL +:+ output +:+ NL).

(** The value of [is_stop] after the events: the one the last returning
    [parse] gave, [b] where there was none. *)
Definition stop_after (b : bool) (tr : list event) : bool :=
  fold_left (fun b ev => match ev with
                         | EParse _ _ (Returns (_, is_stop)) => is_stop
                         | _ => b
                         end) tr b.

Fixpoint count_polls (tr : list event) : nat :=
  match tr with
  | [] => 0
  | EPoll :: tr' => S (count_polls tr')
  | _ :: tr' => count_polls tr'
  end.

Fixpoint count_executes (tr : list event) : nat :=
  match tr with
  | [] => 0
  | EExecute _ :: tr' => S (count_executes tr')
  | _ :: tr' => count_executes tr'
  end.

(** The text a list of tokens adds up to. *)
Definition text_of (toks : list string) : string :=
  fold_right String.append "" toks.

(** The node [id] is an answer node marked success, and the last parse
    that returned asked to stop. *)
Definition stopped_on (st : state) (id : nat) : Prop :=
  exists n, Memory.get_node (memory st) id = Some n
    /\ Memory.action n = "answer"
    /\ Memory.status n = Memory.success
    /\ stop_after false (trace st) = true.

(** Whether one of the callback calls among the events [new], which
    come after [tr], has called [agent.stop()]. *)
Fixpoint stop_requested (output_recall : callback) (tr new : list event) : bool :=
  match new with
  | [] => false
  | ev :: new' =>
      match ev with
      | ERecall o => sets_stop (output_recall tr o)
      | _ => false
      end
      || stop_requested output_recall (tr ++ [ev]) new'
  end.

(** The same callback without its calls of [agent.stop()]. *)
Definition without_stop (output_recall : callback) : callback :=
  fun tr o => {| raises := raises (output_recall tr o); sets_stop := false |}.

(** Two states that differ at most in the flag. *)
Definition same_run (st st' : state) : Prop :=
  memory st = memory st' /\ trace st = trace st' /\ is_running st = is_running st'.

(** From [st] to [st'] events have been added, and the flag is set in
    [st'] exactly when it was set in [st] or one of the callback calls
    among these events has called [agent.stop()]. *)
Definition tracks (output_recall : callback) (st st' : state) : Prop :=
  exists new,
    trace st' = trace st ++ new
    /\ stop_event st' = stop_event st || stop_requested output_recall (trace st) new.

(** The state with another value of the flag. *)
Definition with_flag (b : bool) (st : state) : state :=
  {| memory := memory st; trace := trace st;
     stop_event := b; is_running := is_running st |}.

(** The events of [_execute_node] ahead of its [try] block: the entry,
    and the announcement of a plan node. *)
Definition banner (node : Memory.MemoryNode) : list event :=
  EExecute (Memory.node_id node)
  :: (if String.eqb (Memory.action node) "plan"
      then [ERecall (Some (NL +:+ "[" +:+ Memory.content node +:+ "]" +:+ NL))]
      else []).

(** An event that is a call of the callback. *)
Definition is_recall (ev : event) : Prop := exists o, ev = ERecall o.

(** The model, its stream and the interpreters raise nothing but an
    [Exception]. *)
Definition exceptions_only (env : Env) : Prop :=
  (forall tr msgs, llm_inference env tr msgs <> Raises BaseException)
  /\ (forall tr msgs response,
        llm_inference env tr msgs = Returns response ->
        ~ In (Fault BaseException) response)
  /\ (forall I tr c, In I (output_interpreters env) -> parse I tr c <> Raises BaseException).

(** The events of the [try] block. *)
Definition turn_event (ev : event) : Prop :=
  match ev with
  | EToken _ | ERecall _ | EParse _ _ _ => True
  | _ => False
  end.

Definition result_of (e : try_end) : string :=
  match e with Completed r _ | Excepted r _ | Aborted r _ => r end.

Definition is_stop_of (e : try_end) : bool :=
  match e with Completed _ b | Excepted _ b | Aborted _ b => b end.

(** What the [try] block hands to [output_recall], given how it ends and
    the events [new] it adds: every token taken, then the output of the
    interpreter whose [parse] has returned, then [None]; where the block
    raises, the [None] is there only when it is that call which
    raised. *)
Definition turn_shape (output_recall : callback) (e : try_end) (new : list event)
  : Prop :=
  exists last,
    recalls new = map Some (tokens new) ++ map framed (outputs new) ++ last
    /\ length (outputs new) <= 1
    /\ match e with
       | Completed _ _ => last = [None]
       | Excepted _ _ | Aborted _ _ =>
           last = []
           \/ (last = [None] /\ exists tr, returns (output_recall tr None) = false)
       end.

End Agent.

(** ** The plan structuring

    [test_agent.py] imports [structure_plan] from [GeneralAgent.agent];
    the function is in none of the sources at hand. *)

Module Plan.
Import PyStr.

(** One item of a plan with the items below it. *)
#[warnings="-register-all"]
Inductive plan :=
| Item (title : string) (children : list plan).

Fixpoint indentation (s : string) : nat :=
  match s with
  | EmptyString => 0
  | String c s' => if isspace c then S (indentation s') else 0
  end.

Definition is_digit (c : ascii) : bool :=
  let n := nat_of_ascii c in (48 <=? n) && (n <=? 57).

(** A numbered item: the line, without its indentation, starts with a
    digit. *)
Definition is_item (line : string) : bool :=
  match lstrip line with
  | String c _ => is_digit c
  | EmptyString => false
  end.

(** The items of a text with their indentation, last one first: a line
    that is no item continues the text of the item before it. *)
Fixpoint items (lines : list string) (acc : list (nat * string))
  : list (nat * string) :=
  match lines with
  | [] => acc
  | line :: rest =>
      if is_item line then items rest ((indentation line, strip line) :: acc)
      else match acc with
           | (d, text) :: acc' => items rest ((d, text +:+ NL +:+ strip line) :: acc')
           | [] => items rest []
           end
  end.

(** The items that follow an item of indentation [d] and are indented
    deeper, and the items after them. *)
Fixpoint deeper (d : nat) (l : list (nat * string))
  : list (nat * string) * list (nat * string) :=
  match l with
  | (d', text) :: l' =>
      if d <? d'
      then let '(sub, rest) := deeper d l' in ((d', text) :: sub, rest)
      else ([], l)
  | [] => ([], [])
  end.

(** Items indented deeper than an item become its children, and so on
    below them; the fuel is the number of items. *)
Fixpoint forest (fuel : nat) (l : list (nat * string)) : list plan :=
  match fuel with
  | 0 => []
  | S fuel' =>
      match l with
      | [] => []
      | (d, text) :: l' =>
          let '(sub, rest) := deeper d l' in
          Item text (forest fuel' sub) :: forest fuel' rest
      end
  end.

(** Modelled from the spec: [structure_plan] is missing; section 4.3:
    top-level numbered items become siblings, items detected by deeper
    indentation become their children, recursively; the parsing is
    whitespace-tolerant and a line that is no item continues the item
    before it. *)
Definition structure_plan (content : string) : list plan :=
  let l := rev (map (fun it => (fst it, strip (snd it)))
                  (items (split nl content) [])) in
  forest (length l) l.

End Plan.

(** ** What a text made of titled blocks is expected to give *)

Module Blocks.
Import PyStr SummaryMemory.

(** The lines of a text given as titled blocks: each title line, then
    the lines of its body. *)
Definition lines_of (blocks : list (string * list string)) : list string :=
  flat_map (fun b => ("<<" +:+ fst b +:+ ">>") :: snd b) blocks.

(** Lines ahead of the first title go with the first block. *)
Definition with_preamble (pre : list string) (blocks : list (string * list string))
  : list (string * list string) :=
  match blocks with
  | [] => []
  | (t, ls) :: bs => (t, pre ++ ls) :: bs
  end.

(** The lines of a body that count: each stripped, the blank ones
    left out. *)
Definition kept_lines (ls : list string) : list string :=
  filter (fun l => negb (String.length l =? 0)) (map strip ls).

(** What the loop gathers for a body: every kept line and a newline. *)
Definition body_of (ls : list string) : string :=
  fold_right (fun l text => (l +:+ NL) +:+ text) "" (kept_lines ls).

Definition no_title (l : string) : Prop := is_title (strip l) = false.

(** A text cut at its title lines: a block is a title line (a line
    that, stripped, starts with [<<] and ends with [>>]) and the lines
    that follow it up to the next title line. *)
Definition titled (b : string * list string) : Prop :=
  is_title (strip (fst b)) = true /\ Forall no_title (snd b).

Definition text_lines (blocks : list (string * list string)) : list string :=
  flat_map (fun b => fst b :: snd b) blocks.

(** The title of a title line: what stands between [<<] and [>>]. *)
Definition title_key (line : string) : string := slice_2_m2 (strip line).

Definition titles (blocks : list (string * list string)) : list string :=
  map (fun b => title_key (fst b)) blocks.

(** The body lines of all the blocks with the title [k], in order. *)
Definition lines_under (k : string) (blocks : list (string * list string))
  : list string :=
  flat_map (fun b => if String.eqb (title_key (fst b)) k then snd b else []) blocks.

(** The body as the claim words it: the lines as they are, joined,
    stripped as a whole. *)
Definition verbatim_body (ls : list string) : string := strip (join NL ls).

End Blocks.

(** ** Sample texts, stores and collaborators *)

Module Samples.
Import PyStr Directive.

(** A show directive and a hide directive, each listing [<<X>>]. *)
Definition show_X : string := fence +:+ "show" +:+ NL +:+ "<<X>>" +:+ NL +:+ fence.
Definition hide_X : string := fence +:+ "hide" +:+ NL +:+ "<<X>>" +:+ NL +:+ fence.
Definition show_hide_X : string := show_X +:+ NL +:+ hide_X.

(** A show directive listing [ROOT]. *)
Definition show_ROOT : string := fence +:+ "show" +:+ NL +:+ "ROOT" +:+ NL +:+ fence.

(** One block whose body has indented lines and a blank line. *)
Definition indented_body : list string := ["  a  "; ""; "   b"].
Definition indented_block : string :=
  "<<t>>" +:+ NL +:+ "  a  " +:+ NL +:+ NL +:+ "   b".

(** A fresh store. *)
Definition fresh_store : SummaryMemory.t := SummaryMemory.init [].

(** A prompt that is the new text itself, a model that first answers
    with the show directive for [ROOT] and then with a word, and a model
    that answers with plain words. *)
Definition plain_prompt (nodes new_text : string) : string := new_text.

Definition llm_show_root (message : string) : call (list chunk) :=
  if String.eqb message (NL +:+ "hi")
  then Returns [Token (Some show_ROOT)]
  else Returns [Token (Some "x")].

Definition llm_plain (message : string) : call (list chunk) :=
  Returns [Token (Some "left"); Token (Some "over")].

(** The plan of the claim, and the one of [test_structure_plan], which
    starts with a newline. *)
Definition plan_text : string :=
  "1.xxx" +:+ NL +:+ "    1.1 xxx" +:+ NL +:+ NL +:+ "2.xxx" +:+ NL +:+ NL.

Definition test_plan_text : string := NL +:+ plan_text.

(** Collaborators of the agent. *)
Import Agent.

Definition never : OutputInterpreter :=
  {| match_template := fun _ => false; parse := fun _ _ => Raises Exception |}.

(** Two interpreters whose patterns both find a text that starts with
    [run]; the second one asks to stop. *)
Definition runs_py : OutputInterpreter :=
  {| match_template := String.prefix "run";
     parse := fun _ _ => Returns ("py", false) |}.

Definition runs_sh : OutputInterpreter :=
  {| match_template := String.prefix "run";
     parse := fun _ _ => Returns ("sh", true) |}.

Definition idle_plan : InputInterpreter :=
  {| input_match_template := fun _ => false; input_parse := fun _ _ m => Some m |}.

Definition env_of
    (llm : list event -> list (string * string) -> call (list chunk))
    (first second : OutputInterpreter) : Env :=
  {| system_prompt := fun _ => Some "system prompt";
     llm_inference := llm;
     plan_interperter := idle_plan;
     python_interpreter := first;
     bash_interpreter := second;
     applescript_interpreter := never;
     file_interpreter := never;
     ask_interpreter := never;
     sleep_stop := fun _ => false |}.

(** A model that streams [run] and [more], one that streams two tokens
    and ends, and one whose stream breaks after one token. *)
Definition llm_run : list event -> list (string * string) -> call (list chunk) :=
  fun _ _ => Returns [Token (Some "run"); Token (Some "more")].

Definition llm_words : list event -> list (string * string) -> call (list chunk) :=
  fun _ _ => Returns [Token (Some "hel"); Token (Some "lo"); Token None].

Definition llm_broken : list event -> list (string * string) -> call (list chunk) :=
  fun _ _ => Returns [Token (Some "a"); Fault Exception].

(** A model whose stream breaks before the first token. *)
Definition llm_down : list event -> list (string * string) -> call (list chunk) :=
  fun _ _ => Returns [Fault Exception].

(** A model whose stream is interrupted after two tokens, as by
    [KeyboardInterrupt] or the cancellation of the task. *)
Definition llm_interrupted
  : list event -> list (string * string) -> call (list chunk) :=
  fun _ _ => Returns [Token (Some "a"); Token (Some "b"); Fault BaseException].

(** An agent whose input interpreter takes every input and raises. *)
Definition failing_plan : InputInterpreter :=
  {| input_match_template := fun _ => true; input_parse := fun _ _ _ => None |}.

Definition env_failing_plan : Env :=
  {| system_prompt := fun _ => Some "system prompt";
     llm_inference := llm_words;
     plan_interperter := failing_plan;
     python_interpreter := never;
     bash_interpreter := never;
     applescript_interpreter := never;
     file_interpreter := never;
     ask_interpreter := never;
     sleep_stop := fun _ => false |}.

(** A callback that returns, and one that returns after calling
    [agent.stop()], as the callbacks of the tests do. *)
Definition quiet : callback := fun _ _ => {| raises := None; sets_stop := false |}.
Definition stopping : callback := fun _ _ => {| raises := None; sets_stop := true |}.

(** A callback that calls [agent.stop()] when it is handed the end of
    the turn. *)
Definition stop_at_end : callback :=
  fun _ o => {| raises := None;
                sets_stop := match o with None => true | Some _ => false end |}.

(** An agent on an empty memory, and the same after a first input. *)
Definition st0 : state :=
  {| memory := Memory.empty; trace := []; stop_event := false; is_running := false |}.

Definition question : Memory.MemoryNode :=
  {| Memory.node_id := 0; Memory.role := "user"; Memory.action := "input";
     Memory.content := "q"; Memory.status := Memory.pending; Memory.parent := None |}.

Definition st_question : state :=
  {| memory := {| Memory.nodes := [question]; Memory.next_id := 1;
                  Memory.current_node := None |};
     trace := []; stop_event := false; is_running := false |}.

(** The same with a second question after the first. *)
Definition second_question : Memory.MemoryNode :=
  {| Memory.node_id := 1; Memory.role := "user"; Memory.action := "input";
     Memory.content := "r"; Memory.status := Memory.pending; Memory.parent := None |}.

Definition st_two_questions : state :=
  {| memory := {| Memory.nodes := [question; second_question]; Memory.next_id := 2;
                  Memory.current_node := None |};
     trace := []; stop_event := false; is_running := false |}.

End Samples.

(** ** The host description of agent.py *)

Module Platform.
Import PyStr.

(** What [get_os_version] asks of the [platform] module:
    [platform.system()], [platform.version()], [platform.mac_ver()[0]]
    and the first two fields of [platform.linux_distribution()], a
    function that newer Python versions no longer have ([None] here: the
    call raises). *)
Record host := {
  system : string;
  version : string;
  mac_ver : string;
  linux_distribution : option (string * string)
}.

(** [get_os_version]; on Linux a distribution that is neither CentOS nor
    Ubuntu falls off the end of the function, which returns [None]. *)
Definition get_os_version (h : host) : res (option string) :=
  if String.eqb (system h) "Windows" then
    Ok (Some ("Windows version: " +:+ version h))
  else if String.eqb (system h) "Darwin" then
    Ok (Some ("macOS version: " +:+ mac_ver h))
  else if String.eqb (system h) "Linux" then
    match linux_distribution h with
    | None => Exc
    | Some (name, release) =>
        if String.eqb name "CentOS" then Ok (Some ("CentOS version: " +:+ release))
        else if String.eqb name "Ubuntu" then Ok (Some ("Ubuntu version: " +:+ release))
        else Ok None
    end
  else Ok (Some "Unknown system").

End Platform.

(** ** Streams of tokens *)

Module Streams.
Import PyStr Agent.

(** A response of tokens, none of which raises. *)
Definition tokens_only (toks : list (option string)) : list chunk := map Token toks.

(** The texts [result] goes through while the tokens of a response of
    the summary memory are added to it; a [None] token adds nothing. *)
Fixpoint buffers (result : string) (response : list (option string)) : list string :=
  match response with
  | [] => []
  | None :: rest => buffers result rest
  | Some token :: rest => (result +:+ token) :: buffers (result +:+ token) rest
  end.

(** The text at the end of the response. *)
Fixpoint final_buffer (result : string) (response : list (option string)) : string :=
  match response with
  | [] => result
  | None :: rest => final_buffer result rest
  | Some token :: rest => final_buffer (result +:+ token) rest
  end.

(** The same for the tokens of a turn of the agent. *)
Fixpoint texts (result : string) (toks : list string) : list string :=
  match toks with
  | [] => []
  | token :: rest => (result +:+ token) :: texts (result +:+ token) rest
  end.

(** A response that streams the tokens and then ends, either by running
    out or with the [None] token, whatever follows that one. *)
Definition plain_response (toks : list string) (tail : list chunk) : list chunk :=
  map (fun t => Token (Some t)) toks ++ tail.

Definition ends (tail : list chunk) : Prop :=
  tail = [] \/ exists rest, tail = Token None :: rest.

(** The events of the tokens of such a response, and of its end. *)
Definition token_events (toks : list string) : list event :=
  flat_map (fun t => [EToken (Some t); ERecall (Some t)]) toks.

Definition end_events (tail : list chunk) : list event :=
  match tail with
  | [] => [ERecall None]
  | _ => [EToken None; ERecall None]
  end.

Fixpoint count_parses (tr : list event) : nat :=
  match tr with
  | [] => 0
  | EParse _ _ _ :: tr' => S (count_parses tr')
  | _ :: tr' => count_parses tr'
  end.

(** The events [new] of a turn hold at most one call of [parse]; where
    they hold one, it is handed [result] followed by all the tokens taken
    before it, and nothing is taken from the response after it. *)
Definition parses_once (result : string) (new : list event) : Prop :=
  count_parses new = 0
  \/ exists a i r b,
       new = a ++ EParse i (result +:+ text_of (tokens a)) r :: b
       /\ count_parses a = 0 /\ count_parses b = 0 /\ tokens b = []
       /\ Forall (fun ev => ev <> EToken None) b.

(** The keys of a store, in its order. *)
Definition keys_of (sm : SummaryMemory.t) : list string :=
  map fst (SummaryMemory.concepts sm).

(** No key is lost and none changes place: new ones come last. *)
Definition keys_grow (sm sm' : SummaryMemory.t) : Prop :=
  exists more, keys_of sm' = keys_of sm ++ more.

Definition listed (k : string) (keys : list string) : bool :=
  existsb (String.eqb k) keys.

End Streams.

(** More sample hosts and texts. *)

Module MoreSamples.
Import PyStr Directive.

Definition arch_host : Platform.host :=
  {| Platform.system := "Linux"; Platform.version := "6.1";
     Platform.mac_ver := ""; Platform.linux_distribution := Some ("Arch", "rolling") |}.

(** A store with a shown concept [A]. *)
Definition store_A : SummaryMemory.t :=
  {| SummaryMemory.concepts :=
       [("ROOT", SummaryMemory.new_node "ROOT" "" false);
        ("A", SummaryMemory.new_node "A" "alpha" true)];
     SummaryMemory.db :=
       [SummaryMemory.new_node "ROOT" "" false; SummaryMemory.new_node "A" "alpha" true] |}.

Definition hide_A : string := fence +:+ "hide" +:+ NL +:+ "<<A>>" +:+ NL +:+ fence.
Definition show_A : string := fence +:+ "show" +:+ NL +:+ "A" +:+ NL +:+ fence.

(** A model that streams one titled block. *)
Definition llm_block (message : string) : call (list chunk) :=
  Returns [Token (Some "<<t>>"); Token None; Token (Some NL); Token (Some "body")].

(** A model whose call raises, and an agent that has been stopped with a
    question pending. *)
Definition llm_raises
  : list Agent.event -> list (string * string) -> call (list chunk) :=
  fun _ _ => Raises Exception.

Definition st_stopped : Agent.state :=
  {| Agent.memory := Agent.memory Samples.st_question; Agent.trace := [];
     Agent.stop_event := true; Agent.is_running := false |}.

(** The title [t] twice, the first time on an indented line. *)
Definition indented_twice : string :=
  "  <<t>> " +:+ NL +:+ " a" +:+ NL +:+ "<<t>>" +:+ NL +:+ "b".

(** The title [t] twice. *)
Definition twice_t : string :=
  "<<t>>" +:+ NL +:+ "a" +:+ NL +:+ "<<t>>" +:+ NL +:+ "b".

End MoreSamples.

(** * Properties of the string primitives *)

Module PyStrFacts.
Import PyStr.

Lemma append_assoc (a b c : string) : (a +:+ b) +:+ c = a +:+ (b +:+ c).
Proof. induction a as [|x a IH]; simpl; [reflexivity|now rewrite IH]. Qed.

Lemma append_nil_r (s : string) : s +:+ "" = s.
Proof. induction s as [|x s IH]; simpl; [reflexivity|now rewrite IH]. Qed.

Lemma length_append (a b : string) :
  String.length (a +:+ b) = String.length a + String.length b.
Proof. induction a as [|x a IH]; simpl; [reflexivity|now rewrite IH]. Qed.

Lemma substring_0_append (t r : string) : substring 0 (String.length t) (t +:+ r) = t.
Proof.
  induction t as [|x t IH]; simpl.
  - now destruct r.
  - now rewrite IH.
Qed.

Lemma substring_0_all (p : string) : substring 0 (String.length p) p = p.
Proof. induction p as [|x p IH]; simpl; [reflexivity|now rewrite IH]. Qed.

Lemma substring_skip (s r : string) (m : nat) :
  substring (String.length s) m (s +:+ r) = substring 0 m r.
Proof. induction s as [|x s IH]; simpl; [reflexivity|assumption]. Qed.

Lemma endswith_append (s p : string) : endswith p (s +:+ p) = true.
Proof.
  unfold endswith. rewrite length_append.
  replace (String.length s + String.length p - String.length p)
    with (String.length s) by lia.
  rewrite substring_skip, substring_0_all, String.eqb_refl.
  rewrite andb_true_r. apply Nat.leb_le. lia.
Qed.

(** Nothing is stripped on the right of a text that ends with a text
    that has nothing to strip. *)
Lemma rstrip_append_fixed (r : string) :
  rstrip r = r -> r <> "" -> forall s, rstrip (s +:+ r) = s +:+ r.
Proof.
  intros Hr Hne s. induction s as [|x s IH]; simpl; [assumption|].
  rewrite IH. destruct (s +:+ r) eqn:E; [|reflexivity].
  destruct s; simpl in E; [contradiction|discriminate].
Qed.

(** A title line is left as it is by [strip]. *)
Lemma strip_title (t : string) : strip ("<<" +:+ t +:+ ">>") = "<<" +:+ t +:+ ">>".
Proof.
  unfold strip.
  change (lstrip ("<<" +:+ t +:+ ">>")) with ("<<" +:+ t +:+ ">>").
  rewrite <- append_assoc. apply rstrip_append_fixed; [reflexivity|discriminate].
Qed.

Lemma slice_title (t : string) : slice_2_m2 ("<<" +:+ t +:+ ">>") = t.
Proof.
  unfold slice_2_m2. cbn [String.append String.length].
  rewrite length_append. cbn [String.length].
  replace (S (S (String.length t + 2)) - 4) with (String.length t) by lia.
  cbn [substring]. apply substring_0_append.
Qed.

Lemma rstrip_idempotent (s : string) : rstrip (rstrip s) = rstrip s.
Proof.
  induction s as [|c s IH]; [reflexivity|]. cbn [rstrip].
  destruct (rstrip s) as [|d r] eqn:E.
  - destruct (isspace c) eqn:Ec; [reflexivity|]. cbn [rstrip]. now rewrite Ec.
  - cbn [rstrip] in *. now rewrite IH.
Qed.

Lemma rstrip_newline (s : string) : rstrip (s +:+ NL) = rstrip s.
Proof.
  induction s as [|c s IH]; [reflexivity|].
  cbn [String.append rstrip]. now rewrite IH.
Qed.

Lemma rstrip_append (a r : string) : rstrip r <> "" -> rstrip (a +:+ r) = a +:+ rstrip r.
Proof.
  intros Hr. induction a as [|c a IH]; [reflexivity|].
  cbn [String.append rstrip]. rewrite IH.
  destruct (a +:+ rstrip r) eqn:E; [|reflexivity].
  destruct a; cbn in E; [contradiction|discriminate].
Qed.

Lemma lstrip_head (s : string) :
  match lstrip s with String c _ => isspace c = false | EmptyString => True end.
Proof.
  induction s as [|c s IH]; [exact I|]. cbn [lstrip].
  destruct (isspace c) eqn:E; [assumption|exact E].
Qed.

Lemma rstrip_head (c : ascii) (s : string) :
  match rstrip (String c s) with String d _ => d = c | EmptyString => True end.
Proof.
  cbn [rstrip]. destruct (rstrip s); [|reflexivity].
  now destruct (isspace c).
Qed.

Lemma strip_tight (x : string) : strip x <> "" -> tight (strip x).
Proof.
  intros Hne. split; [assumption|]. split; [apply rstrip_idempotent|].
  unfold strip in *. pose proof (lstrip_head x) as Hl.
  destruct (lstrip x) as [|c t]; [exact I|].
  pose proof (rstrip_head c t) as Hr.
  destruct (rstrip (String c t)); [exact I|]. now subst.
Qed.

(** Tight lines, each ended by a newline, strip to the lines joined by
    newlines. *)
Lemma rstrip_lines (l : string) (ls : list string) :
  Forall tight (l :: ls) ->
  rstrip (fold_right (fun l text => (l +:+ NL) +:+ text) "" (l :: ls)) = join NL (l :: ls).
Proof.
  revert l. induction ls as [|l2 ls IH]; intros l Hl.
  - inversion Hl as [|? ? (Hne & Hr & _) _]; subst. cbn [fold_right join String.concat].
    now rewrite append_nil_r, rstrip_newline.
  - inversion Hl as [|? ? _ Hl']; subst.
    change (fold_right (fun l text => (l +:+ NL) +:+ text) "" (l :: l2 :: ls))
      with ((l +:+ NL) +:+ fold_right (fun l text => (l +:+ NL) +:+ text) "" (l2 :: ls)).
    assert (Hne : join NL (l2 :: ls) <> "").
    { inversion Hl' as [|? ? (Hne & _) _]; subst. unfold join. cbn [String.concat].
      destruct l2; [contradiction|]. destruct ls; discriminate. }
    rewrite rstrip_append; rewrite (IH l2 Hl'); [|assumption].
    unfold join. cbn [String.concat]. now rewrite append_assoc.
Qed.

Lemma strip_lines (ls : list string) :
  Forall tight ls ->
  strip (fold_right (fun l text => (l +:+ NL) +:+ text) "" ls) = join NL ls.
Proof.
  destruct ls as [|l ls]; [reflexivity|]. intros Hl.
  rewrite <- (rstrip_lines Hl). unfold strip. f_equal.
  inversion Hl as [|? ? (Hne & _ & Hc) _]; subst.
  destruct l as [|c l]; [contradiction|]. cbn [fold_right String.append lstrip].
  now rewrite Hc.
Qed.

End PyStrFacts.

(** * Properties of the summary memory *)

Module SummaryMemoryFacts.
Import PyStr Directive SummaryMemory Streams.

(** *** Dictionaries *)

Section DictFacts.
Variable V : Type.
Implicit Types (d : list (string * V)) (k : string) (v : V).

Lemma dict_get_set_same d k v : dict_get (dict_set d k v) k = Some v.
Proof.
  induction d as [|[k' v'] d IH]; simpl.
  - now rewrite String.eqb_refl.
  - destruct (String.eqb k' k) eqn:E; simpl; now rewrite E.
Qed.

Lemma dict_get_set_other d k k' v :
  k' <> k -> dict_get (dict_set d k' v) k = dict_get d k.
Proof.
  intros Hne. induction d as [|[k0 v0] d IH]; simpl.
  - destruct (String.eqb k' k) eqn:E; [|reflexivity].
    apply String.eqb_eq in E. contradiction.
  - destruct (String.eqb k0 k') eqn:E; simpl.
    + apply String.eqb_eq in E; subst k0.
      destruct (String.eqb k' k) eqn:E'; [|reflexivity].
      apply String.eqb_eq in E'. contradiction.
    + now rewrite IH.
Qed.

Lemma dict_set_absent d k v : dict_get d k = None -> dict_set d k v = d ++ [(k, v)].
Proof.
  induction d as [|[k' v'] d IH]; simpl; [reflexivity|].
  destruct (String.eqb k' k); [discriminate|].
  intros H. now rewrite IH.
Qed.

Lemma dict_set_keys d k v v0 :
  dict_get d k = Some v0 -> map fst (dict_set d k v) = map fst d.
Proof.
  induction d as [|[k' v'] d IH]; simpl; [discriminate|].
  destruct (String.eqb k' k); simpl; [reflexivity|].
  intros H. now rewrite IH.
Qed.

Lemma dict_get_In d k v : dict_get d k = Some v -> In (k, v) d.
Proof.
  induction d as [|[k' v'] d IH]; simpl; [discriminate|].
  destruct (String.eqb k' k) eqn:E.
  - apply String.eqb_eq in E. intros [= ->]. left. now subst.
  - intros H. right. auto.
Qed.

Lemma dict_get_None_In d k : dict_get d k = None -> ~ In k (map fst d).
Proof.
  induction d as [|[k' v'] d IH]; simpl; [tauto|].
  destruct (String.eqb k' k) eqn:E; [discriminate|].
  apply String.eqb_neq in E. intros H [Hk|Hk]; [contradiction|]. now apply IH.
Qed.

Lemma dict_get_NoDup_In d k v :
  NoDup (map fst d) -> In (k, v) d -> dict_get d k = Some v.
Proof.
  induction d as [|[k' v'] d IH]; simpl; [tauto|].
  intros Hnd [Hin|Hin].
  - injection Hin as -> ->. now rewrite String.eqb_refl.
  - inversion Hnd as [|? ? Hnot Hnd']; subst.
    destruct (String.eqb k' k) eqn:E.
    + apply String.eqb_eq in E; subst k'. exfalso. apply Hnot.
      change k with (fst (k, v)). now apply in_map.
    + auto.
Qed.
End DictFacts.

(** *** One key of a directive at a time *)

Lemma hide_key_same sm k :
  exists n, dict_get (concepts (hide_key sm k)) k = Some n /\ show n = false
            /\ (dict_get (concepts sm) k = None -> n = new_node k "" false).
Proof.
  unfold hide_key. destruct (dict_get (concepts sm) k) as [n|] eqn:E; simpl.
  - exists (set_show false n). rewrite dict_get_set_same. repeat split. discriminate.
  - exists (new_node k "" false). rewrite dict_get_set_same. repeat split.
Qed.

Lemma hide_key_other sm k k' :
  k' <> k -> dict_get (concepts (hide_key sm k')) k = dict_get (concepts sm) k.
Proof.
  intros Hne. unfold hide_key.
  destruct (dict_get (concepts sm) k'); simpl; now apply dict_get_set_other.
Qed.

Lemma show_key_other sm k k' :
  k' <> k -> dict_get (concepts (show_key sm k')) k = dict_get (concepts sm) k.
Proof.
  intros Hne. unfold show_key.
  destruct (dict_get (concepts sm) k'); simpl; [now apply dict_get_set_other|reflexivity].
Qed.

Lemma show_key_absent sm k k' :
  dict_get (concepts sm) k = None -> dict_get (concepts (show_key sm k')) k = None.
Proof.
  intros Hk. destruct (String.eqb k' k) eqn:E.
  - apply String.eqb_eq in E; subst k'. unfold show_key. now rewrite Hk.
  - apply String.eqb_neq in E. now rewrite show_key_other.
Qed.

Lemma upsert_block_other sm k kv :
  fst kv <> k -> dict_get (concepts (upsert_block sm kv)) k = dict_get (concepts sm) k.
Proof.
  destruct kv as [k' v]; simpl. intros Hne. now apply dict_get_set_other.
Qed.

(** An empty hidden concept stays what it is under further hide keys. *)
Lemma hide_keys_keep_empty keys : forall sm k,
  dict_get (concepts sm) k = Some (new_node k "" false) ->
  dict_get (concepts (fold_left hide_key keys sm)) k = Some (new_node k "" false).
Proof.
  induction keys as [|k' keys IH]; intros sm k Hk; simpl; [assumption|].
  apply IH. destruct (String.eqb k' k) eqn:E.
  - apply String.eqb_eq in E; subst k'. unfold hide_key. rewrite Hk; simpl.
    now rewrite dict_get_set_same.
  - apply String.eqb_neq in E. now rewrite hide_key_other.
Qed.

Lemma hide_keys_create keys : forall sm k,
  In k keys -> dict_get (concepts sm) k = None ->
  dict_get (concepts (fold_left hide_key keys sm)) k = Some (new_node k "" false).
Proof.
  induction keys as [|k' keys IH]; intros sm k Hin Hk; simpl; [destruct Hin|].
  destruct (String.eqb k' k) eqn:E.
  - apply String.eqb_eq in E; subst k'. apply hide_keys_keep_empty.
    unfold hide_key. rewrite Hk; simpl. now rewrite dict_get_set_same.
  - apply String.eqb_neq in E. destruct Hin as [Heq|Hin]; [contradiction|].
    apply IH; [assumption|]. now rewrite hide_key_other.
Qed.

Lemma show_keys_absent keys : forall sm k,
  dict_get (concepts sm) k = None ->
  dict_get (concepts (fold_left show_key keys sm)) k = None.
Proof.
  induction keys as [|k' keys IH]; intros sm k Hk; simpl; [assumption|].
  apply IH. now apply show_key_absent.
Qed.

(** [_parse_show] never raises: the second search is the first one. *)
Lemma parse_show_returns content sm :
  exists parsed c sm', _parse_show content sm = Ok (parsed, c, sm')
    /\ sm' = (if parsed then fold_left show_key (fst (get_show_keys content)) sm else sm).
Proof.
  unfold _parse_show, get_show_keys.
  destruct (search "show" content) as [m|] eqn:E; simpl.
  - destruct (length (keys_of_group (group2 m)) =? 0); eauto.
  - eauto.
Qed.

(** C5, as amended: a key listed by a hide directive that names no
    concept is created as an empty concept with show=false and the pass
    returns; a key listed by a show directive that names no concept is
    passed over, no concept is created for it, and the pass returns as
    well. *)
Theorem unknown_directive_keys content sm k :
  dict_get (concepts sm) k = None ->
  (In k (fst (get_hide_keys content)) ->
   exists c sm', _parse_hide content sm = (true, c, sm')
     /\ dict_get (concepts sm') k = Some (new_node k "" false))
  /\ (In k (fst (get_show_keys content)) ->
      exists c sm', _parse_show content sm = Ok (true, c, sm')
        /\ dict_get (concepts sm') k = None).
Proof.
  intros Hk. split; intros Hin.
  - unfold _parse_hide. destruct (fst (get_hide_keys content)) as [|k0 keys] eqn:E.
    + destruct Hin.
    + cbn [length Nat.eqb]. eexists _, _. split; [reflexivity|].
      now apply hide_keys_create.
  - unfold _parse_show. unfold get_show_keys in *.
    destruct (search "show" content) as [m|] eqn:S; [|destruct Hin].
    cbn [fst] in *.
    destruct (keys_of_group (group2 m)) as [|k0 keys] eqn:E; [destruct Hin|].
    cbn [length Nat.eqb]. eexists _, _. split; [reflexivity|].
    now apply show_keys_absent.
Qed.

Lemma unknown_directive_keys_witness :
  dict_get (concepts Samples.fresh_store) "X" = None
  /\ (exists c sm', _parse_hide Samples.show_hide_X Samples.fresh_store = (true, c, sm')
        /\ dict_get (concepts sm') "X" = Some (new_node "X" "" false))
  /\ (exists c sm', _parse_show Samples.show_hide_X Samples.fresh_store = Ok (true, c, sm')
        /\ dict_get (concepts sm') "X" = None).
Proof.
  split; [reflexivity|].
  destruct (unknown_directive_keys Samples.show_hide_X Samples.fresh_store "X" eq_refl)
    as [Hhide Hshow].
  split; [apply Hhide|apply Hshow]; vm_compute; auto.
Defined.

(** C5 as stated fails for show directives: the fresh store meets a show
    directive listing the unknown key X; the pass returns and no concept
    X has been created. *)
Lemma show_unknown_key_not_created :
  In "X" (fst (get_show_keys Samples.show_X))
  /\ dict_get (concepts Samples.fresh_store) "X" = None
  /\ exists c sm', _parse_show Samples.show_X Samples.fresh_store = Ok (true, c, sm')
       /\ dict_get (concepts sm') "X" = None.
Proof.
  split; [vm_compute; auto|]. split; [reflexivity|].
  eexists _, _. split; vm_compute; reflexivity.
Qed.

(** *** The loop of [get_nodes] on a text made of blocks *)

Import PyStrFacts Blocks.

Lemma is_title_title (t : string) : is_title ("<<" +:+ t +:+ ">>") = true.
Proof.
  unfold is_title, startswith. rewrite <- append_assoc, endswith_append.
  rewrite append_assoc. cbn. now destruct (t +:+ ">>").
Qed.

Lemma body_of_cons (l : string) (ls : list string) :
  body_of (l :: ls) =
  if String.length (strip l) =? 0 then body_of ls
  else (strip l +:+ NL) +:+ body_of ls.
Proof.
  unfold body_of, kept_lines. cbn [map filter].
  destruct (String.length (strip l) =? 0); reflexivity.
Qed.

Lemma body_of_app (a b : list string) : body_of (a ++ b) = body_of a +:+ body_of b.
Proof.
  induction a as [|l a IH]; [reflexivity|].
  rewrite <- app_comm_cons, !body_of_cons, IH.
  destruct (String.length (strip l) =? 0); [reflexivity|].
  symmetry. apply append_assoc.
Qed.

(** Over the lines of a body the loop only lengthens [value]. *)
Lemma loop_over_body ls : forall key value nodes rest,
  Forall no_title ls ->
  get_nodes_loop (ls ++ rest) key value nodes =
  get_nodes_loop rest key (value +:+ body_of ls) nodes.
Proof.
  induction ls as [|l ls IH]; intros key value nodes rest Hls.
  - cbn [app]. change (body_of []) with "". now rewrite append_nil_r.
  - inversion Hls as [|? ? Hl Hls']; subst.
    rewrite <- app_comm_cons. cbn [get_nodes_loop]. rewrite body_of_cons.
    destruct (String.length (strip l) =? 0); [now apply IH|].
    unfold no_title in Hl. rewrite Hl, IH by assumption.
    now rewrite !append_assoc.
Qed.

Lemma close_nodes_gathered st :
  close_nodes st = map (fun kv => (fst kv, strip (snd kv))) (gathered st).
Proof. now destruct st as [[[k|] v] n]. Qed.

Lemma store_block_new nodes k value :
  dict_get nodes k = None -> store_block nodes k value = nodes ++ [(k, value)].
Proof.
  intros Hk. unfold store_block. rewrite Hk. cbn [String.append].
  now apply dict_set_absent.
Qed.

Lemma dict_get_snoc (V : Type) (d : list (string * V)) k k' (v : V) :
  k' <> k -> dict_get (d ++ [(k', v)]) k = dict_get d k.
Proof.
  intros Hne. induction d as [|[k0 v0] d IH]; simpl.
  - apply String.eqb_neq in Hne. now rewrite Hne.
  - now rewrite IH.
Qed.

Lemma loop_over_blocks blocks : forall k value nodes,
  NoDup (k :: map fst blocks) ->
  (forall x, In x (k :: map fst blocks) -> dict_get nodes x = None) ->
  Forall (fun b => Forall no_title (snd b)) blocks ->
  gathered (get_nodes_loop (lines_of blocks) (Some k) value nodes) =
  nodes ++ (k, value) :: map (fun b => (fst b, body_of (snd b))) blocks.
Proof.
  induction blocks as [|[t ls] blocks IH]; intros k value nodes Hnd Hfresh Hb.
  - cbn. apply store_block_new, Hfresh. now left.
  - inversion Hb as [|? ? Hls Hb']; subst. cbn [snd] in Hls.
    inversion Hnd as [|? ? Hk Hnd']; subst.
    cbn [lines_of flat_map fst snd]. rewrite <- app_comm_cons.
    cbn [get_nodes_loop]. rewrite strip_title, is_title_title, slice_title.
    replace (String.length ("<<" +:+ t +:+ ">>") =? 0) with false by reflexivity.
    rewrite loop_over_body by assumption. cbn [String.append].
    rewrite store_block_new by (apply Hfresh; now left).
    change (flat_map (fun b => ("<<" +:+ fst b +:+ ">>") :: snd b) blocks)
      with (lines_of blocks).
    rewrite IH; [|assumption| |assumption].
    + cbn [map fst snd]. now rewrite <- app_assoc.
    + intros x Hx. rewrite dict_get_snoc.
      * apply Hfresh. now right.
      * intros ->. apply Hk. exact Hx.
Qed.

Lemma get_nodes_of_blocks content pre blocks :
  split nl (strip content) = pre ++ lines_of blocks ->
  Forall no_title pre ->
  Forall (fun b => Forall no_title (snd b)) blocks ->
  NoDup (map fst blocks) ->
  get_nodes content =
  map (fun b => (fst b, strip (body_of (snd b)))) (with_preamble pre blocks).
Proof.
  intros Hlines Hpre Hb Hnd. unfold get_nodes.
  rewrite Hlines, close_nodes_gathered, loop_over_body by assumption.
  cbn [String.append]. destruct blocks as [|[t ls] blocks].
  - reflexivity.
  - inversion Hb as [|? ? Hls Hb']; subst. cbn [snd] in Hls.
    cbn [lines_of flat_map fst snd]. rewrite <- app_comm_cons.
    cbn [get_nodes_loop].
    rewrite strip_title, is_title_title, slice_title.
    replace (String.length ("<<" +:+ t +:+ ">>") =? 0) with false by reflexivity.
    rewrite loop_over_body by assumption.
    change (flat_map (fun b => ("<<" +:+ fst b +:+ ">>") :: snd b) blocks)
      with (lines_of blocks).
    rewrite loop_over_blocks; [|assumption|reflexivity|assumption].
    cbn [app map with_preamble fst snd]. now rewrite body_of_app, map_map.
Qed.

(** What is gathered for a body, stripped: the kept lines joined by
    newlines. *)
Lemma strip_body_of (ls : list string) : strip (body_of ls) = join NL (kept_lines ls).
Proof.
  unfold body_of. apply strip_lines. unfold kept_lines.
  apply Forall_forall. intros l Hl. apply filter_In in Hl as [Hin Hlen].
  apply in_map_iff in Hin as (x & <- & _). apply strip_tight.
  intros E. rewrite E in Hlen. discriminate.
Qed.

(** *** The upserts of [_parse_block] *)

Lemma dict_get_not_In (V : Type) (d : list (string * V)) k :
  ~ In k (map fst d) -> dict_get d k = None.
Proof.
  induction d as [|[k' v'] d IH]; simpl; [reflexivity|].
  intros Hn. destruct (String.eqb k' k) eqn:E.
  - apply String.eqb_eq in E. tauto.
  - apply IH. tauto.
Qed.

Lemma upsert_blocks_lookup nodes : forall sm k,
  NoDup (map fst nodes) ->
  dict_get (concepts (fold_left upsert_block nodes sm)) k =
  match dict_get nodes k with
  | Some v => Some (upserted sm k v)
  | None => dict_get (concepts sm) k
  end.
Proof.
  induction nodes as [|[k' v'] nodes IH]; intros sm k Hnd; [reflexivity|].
  inversion Hnd as [|? ? Hk' Hnd']; subst. cbn [fold_left]. rewrite IH by assumption.
  cbn [dict_get]. destruct (String.eqb k' k) eqn:E.
  - apply String.eqb_eq in E; subst k'.
    rewrite (dict_get_not_In _ _ Hk'). cbn [upsert_block concepts].
    now rewrite dict_get_set_same.
  - apply String.eqb_neq in E.
    rewrite (upsert_block_other sm (k', v') E).
    destruct (dict_get nodes k); [|reflexivity].
    unfold upserted. now rewrite (upsert_block_other sm (k', v') E).
Qed.

Lemma NoDup_snoc (A : Type) (l : list A) (a : A) :
  NoDup l -> ~ In a l -> NoDup (l ++ [a]).
Proof.
  induction l as [|x l IH]; intros Hnd Hin; cbn [app].
  - constructor; [tauto|constructor].
  - inversion Hnd as [|? ? Hx Hnd']; subst. constructor.
    + rewrite in_app_iff. cbn [In]. intros [H|[H|[]]]; [tauto|].
      subst. apply Hin. now left.
    + apply IH; [assumption|]. intros H. apply Hin. now right.
Qed.

Lemma dict_set_NoDup (V : Type) (d : list (string * V)) k v :
  NoDup (map fst d) -> NoDup (map fst (dict_set d k v)).
Proof.
  intros Hnd. destruct (dict_get d k) as [v0|] eqn:E.
  - now rewrite (dict_set_keys d k v E).
  - rewrite dict_set_absent by assumption. rewrite map_app. cbn [map fst].
    apply NoDup_snoc; [assumption|]. now apply dict_get_None_In.
Qed.

Lemma get_nodes_loop_NoDup lines : forall key value nodes,
  NoDup (map fst nodes) ->
  NoDup (map fst (gathered (get_nodes_loop lines key value nodes))).
Proof.
  induction lines as [|l lines IH]; intros key value nodes Hnd.
  - destruct key; cbn [get_nodes_loop gathered]; [|assumption].
    now apply dict_set_NoDup.
  - cbn [get_nodes_loop]. destruct (String.length (strip l) =? 0); [now apply IH|].
    destruct (is_title (strip l)); [|now apply IH].
    destruct key; apply IH; [|assumption]. now apply dict_set_NoDup.
Qed.

Lemma get_nodes_NoDup content : NoDup (map fst (get_nodes content)).
Proof.
  unfold get_nodes. rewrite close_nodes_gathered, map_map. cbn [fst].
  apply get_nodes_loop_NoDup. constructor.
Qed.

(** Every list of lines is cut at its title lines. *)
Lemma lines_cut (lines : list string) :
  exists pre blocks,
    lines = pre ++ text_lines blocks /\ Forall no_title pre /\ Forall titled blocks.
Proof.
  induction lines as [|l lines (pre & blocks & -> & Hpre & Hb)].
  - exists [], []. repeat split; constructor.
  - destruct (is_title (strip l)) eqn:E.
    + exists [], ((l, pre) :: blocks). repeat split; [constructor|].
      constructor; [|assumption]. now split.
    + exists (l :: pre), blocks. repeat split; [|assumption]. now constructor.
Qed.

Lemma title_not_blank (line : string) :
  is_title line = true -> (String.length line =? 0) = false.
Proof. now destruct line. Qed.

(** The loop over titled blocks files each body under its title, after
    the text that was open. *)
Lemma loop_over_titled blocks : forall k value nodes,
  Forall titled blocks ->
  gathered (get_nodes_loop (text_lines blocks) (Some k) value nodes) =
  fold_left (fun nodes b => store_block nodes (title_key (fst b)) (body_of (snd b)))
    blocks (store_block nodes k value).
Proof.
  induction blocks as [|[T ls] blocks IH]; intros k value nodes Hb; [reflexivity|].
  inversion Hb as [|? ? [HT Hls] Hb']; subst. cbn [fst snd] in HT, Hls.
  cbn [text_lines flat_map fst snd]. rewrite <- app_comm_cons.
  cbn [get_nodes_loop]. rewrite (title_not_blank _ HT), HT.
  change (flat_map (fun b : string * list string => fst b :: snd b) blocks)
    with (text_lines blocks).
  rewrite loop_over_body by assumption. rewrite IH by assumption.
  reflexivity.
Qed.

Lemma gathered_titled pre blocks :
  Forall no_title pre -> Forall titled blocks ->
  gathered (get_nodes_loop (pre ++ text_lines blocks) None "" []) =
  fold_left (fun nodes b => store_block nodes (title_key (fst b)) (body_of (snd b)))
    (with_preamble pre blocks) [].
Proof.
  intros Hpre Hb. rewrite loop_over_body by assumption.
  destruct blocks as [|[T ls] blocks]; [reflexivity|].
  inversion Hb as [|? ? [HT Hls] Hb']; subst. cbn [fst snd] in HT, Hls.
  cbn [text_lines flat_map fst snd]. rewrite <- app_comm_cons.
  cbn [get_nodes_loop]. rewrite (title_not_blank _ HT), HT.
  change (flat_map (fun b : string * list string => fst b :: snd b) blocks)
    with (text_lines blocks).
  rewrite loop_over_body by assumption. rewrite loop_over_titled by assumption.
  cbn [with_preamble fold_left fst snd]. unfold title_key.
  now rewrite body_of_app.
Qed.

Lemma listed_cons k k' keys :
  listed k (k' :: keys) = String.eqb k' k || listed k keys.
Proof. unfold listed. cbn [existsb]. now rewrite String.eqb_sym. Qed.

Lemma listed_In k keys : listed k keys = true <-> In k keys.
Proof.
  unfold listed. rewrite existsb_exists. split.
  - intros (x & Hx & E). apply String.eqb_eq in E. now subst.
  - intros H. exists k. split; [assumption|apply String.eqb_refl].
Qed.

Lemma lines_under_none k blocks :
  listed k (titles blocks) = false -> lines_under k blocks = [].
Proof.
  induction blocks as [|[T ls] blocks IH]; [reflexivity|].
  cbn [titles map fst]. fold (titles blocks). rewrite listed_cons.
  intros Hl. apply orb_false_iff in Hl as [H1 H2].
  cbn [lines_under flat_map fst snd]. fold (lines_under k blocks).
  now rewrite H1, IH.
Qed.

(** What is filed under a key: what was there, then the bodies of all
    the blocks with that title. *)
Lemma filed_lookup blocks : forall nodes k,
  dict_get
    (fold_left (fun nodes b => store_block nodes (title_key (fst b)) (body_of (snd b)))
       blocks nodes) k =
  if listed k (titles blocks)
  then Some (match dict_get nodes k with Some v => v | None => "" end
             +:+ body_of (lines_under k blocks))
  else dict_get nodes k.
Proof.
  induction blocks as [|[T ls] blocks IH]; intros nodes k; [reflexivity|].
  cbn [fold_left fst snd]. rewrite IH.
  cbn [titles map fst]. fold (titles blocks). rewrite listed_cons.
  cbn [lines_under flat_map fst snd]. fold (lines_under k blocks).
  unfold store_block.
  destruct (String.eqb (title_key T) k) eqn:E; cbn [orb].
  - apply String.eqb_eq in E. subst k. rewrite dict_get_set_same.
    destruct (listed (title_key T) (titles blocks)) eqn:L.
    + now rewrite body_of_app, append_assoc.
    + now rewrite (lines_under_none _ _ L), app_nil_r.
  - apply String.eqb_neq in E. rewrite dict_get_set_other by assumption.
    reflexivity.
Qed.

Lemma dict_get_map_values (d : list (string * string)) (f : string -> string) k :
  dict_get (map (fun kv => (fst kv, f (snd kv))) d) k = option_map f (dict_get d k).
Proof.
  induction d as [|[k' v] d IH]; [reflexivity|].
  cbn [map dict_get fst snd]. now destruct (String.eqb k' k).
Qed.

Lemma titles_with_preamble pre blocks : titles (with_preamble pre blocks) = titles blocks.
Proof. now destruct blocks as [|[T ls] blocks]. Qed.

(** What [get_nodes] files under each key of a text cut at its title
    lines. *)
Lemma get_nodes_titled content pre blocks k :
  split nl (strip content) = pre ++ text_lines blocks ->
  Forall no_title pre -> Forall titled blocks ->
  dict_get (get_nodes content) k =
  if listed k (titles blocks)
  then Some (join NL (kept_lines (lines_under k (with_preamble pre blocks))))
  else None.
Proof.
  intros Hlines Hpre Hb. unfold get_nodes.
  rewrite Hlines, close_nodes_gathered, gathered_titled by assumption.
  rewrite dict_get_map_values, filed_lookup, titles_with_preamble.
  destruct (listed k (titles blocks)); [|reflexivity].
  cbn [dict_get option_map String.append]. now rewrite strip_body_of.
Qed.

(** C6, as amended: every text is cut at its title lines (a line that,
    stripped, starts with << and ends with >>; its title is what stands
    between), and every title of the text is upserted: an absent title
    becomes a concept with show=false, an existing one has its content
    replaced and keeps its show flag, and the concepts of other keys are
    left as they are; the content filed under a title is made of the
    body lines of all the blocks with that title, in order, those ahead
    of the first title line going with the first block: each line
    stripped of leading and trailing whitespace, the blank ones left out,
    the kept ones joined by newlines. *)
Theorem parse_block_upserts content sm :
  (exists pre blocks,
     split nl (strip content) = pre ++ text_lines blocks
     /\ Forall no_title pre /\ Forall titled blocks)
  /\ forall pre blocks,
       split nl (strip content) = pre ++ text_lines blocks ->
       Forall no_title pre ->
       Forall titled blocks ->
       (forall k, In k (titles blocks) ->
          dict_get (get_nodes content) k =
            Some (join NL (kept_lines (lines_under k (with_preamble pre blocks))))
          /\ dict_get (concepts (snd (_parse_block content sm))) k =
             Some (match dict_get (concepts sm) k with
                   | Some n =>
                       set_content
                         (join NL (kept_lines (lines_under k (with_preamble pre blocks))))
                         n
                   | None =>
                       new_node k
                         (join NL (kept_lines (lines_under k (with_preamble pre blocks))))
                         false
                   end))
       /\ (forall k, ~ In k (titles blocks) ->
             dict_get (get_nodes content) k = None
             /\ dict_get (concepts (snd (_parse_block content sm))) k =
                dict_get (concepts sm) k).
Proof.
  split; [apply lines_cut|].
  intros pre blocks Hlines Hpre Hb.
  assert (Hup : forall k,
            dict_get (concepts (snd (_parse_block content sm))) k =
            match dict_get (get_nodes content) k with
            | Some v => Some (upserted sm k v)
            | None => dict_get (concepts sm) k
            end).
  { intros k. cbn [_parse_block snd]. apply upsert_blocks_lookup, get_nodes_NoDup. }
  split.
  - intros k Hk. apply listed_In in Hk.
    pose proof (get_nodes_titled content k Hlines Hpre Hb) as Hn. rewrite Hk in Hn.
    split; [exact Hn|]. now rewrite Hup, Hn.
  - intros k Hk.
    pose proof (get_nodes_titled content k Hlines Hpre Hb) as Hn.
    destruct (listed k (titles blocks)) eqn:L; [apply listed_In in L; contradiction|].
    split; [exact Hn|]. now rewrite Hup, Hn.
Qed.

Lemma parse_block_upserts_witness :
  dict_get (get_nodes MoreSamples.indented_twice) "t" = Some ("a" +:+ NL +:+ "b")
  /\ dict_get (concepts (snd (_parse_block MoreSamples.indented_twice Samples.fresh_store)))
       "t"
     = Some (new_node "t" ("a" +:+ NL +:+ "b") false)
  /\ dict_get (concepts (snd (_parse_block MoreSamples.indented_twice Samples.fresh_store)))
       "ROOT"
     = Some (new_node "ROOT" "" false).
Proof.
  destruct (proj2 (@parse_block_upserts MoreSamples.indented_twice Samples.fresh_store)
              [] [("<<t>> ", [" a"]); ("<<t>>", ["b"])])
    as (Hin & Hout).
  - reflexivity.
  - constructor.
  - repeat constructor.
  - destruct (Hin "t") as (Hn & Hc); [now left|].
    split; [exact Hn|]. split; [exact Hc|].
    refine (proj2 (Hout "ROOT" _)). cbn. intros [H|[H|[]]]; discriminate.
Defined.

(** C6 as stated fails on the body: the text is one block t whose body has
    the lines ["  a  "], [""] and ["   b"]; its concept gets the two
    stripped lines joined by one newline, which is not the body kept
    verbatim and stripped as a whole. *)
Lemma block_body_not_verbatim :
  split nl (strip Samples.indented_block) = lines_of [("t", Samples.indented_body)]
  /\ verbatim_body Samples.indented_body = "a  " +:+ NL +:+ NL +:+ "   b"
  /\ exists n,
       dict_get (concepts (snd (_parse_block Samples.indented_block Samples.fresh_store))) "t"
       = Some n
       /\ content n = "a" +:+ NL +:+ "b"
       /\ content n <> verbatim_body Samples.indented_body.
Proof.
  split; [reflexivity|]. split; [reflexivity|].
  eexists. split; [vm_compute; reflexivity|]. split; [reflexivity|].
  vm_compute. discriminate.
Qed.

(** *** The concept ROOT *)

Lemma fold_left_invariant (A B : Type) (f : A -> B -> A) (P : A -> Prop)
    (Q : B -> Prop) :
  (forall a b, Q b -> P a -> P (f a b)) ->
  forall l a, Forall Q l -> P a -> P (fold_left f l a).
Proof.
  intros Hstep l. induction l as [|b l IH]; intros a Hl Ha; [assumption|].
  inversion Hl; subst. cbn [fold_left]. apply IH; auto.
Qed.

Lemma Forall_trivial (B : Type) (l : list B) : Forall (fun _ => True) l.
Proof. induction l; constructor; auto. Qed.

Lemma hide_key_root sm k c : root_is sm false c -> root_is (hide_key sm k) false c.
Proof.
  intros (n & Hn & Hs & Hc). destruct (String.eqb k "ROOT") eqn:E.
  - apply String.eqb_eq in E; subst k. exists (set_show false n).
    unfold hide_key. rewrite Hn. cbn [concepts]. rewrite dict_get_set_same. auto.
  - apply String.eqb_neq in E. exists n. rewrite hide_key_other; auto.
Qed.

Lemma show_key_root sm k sh c :
  k <> "ROOT" -> root_is sm sh c -> root_is (show_key sm k) sh c.
Proof.
  intros Hne (n & Hn & Hs & Hc). exists n. rewrite show_key_other; auto.
Qed.

Lemma show_key_has_root sm k : has_root sm -> has_root (show_key sm k).
Proof.
  intros (n & Hn). destruct (String.eqb k "ROOT") eqn:E.
  - apply String.eqb_eq in E; subst k. eexists.
    unfold show_key. rewrite Hn. cbn [concepts]. apply dict_get_set_same.
  - apply String.eqb_neq in E. exists n. rewrite show_key_other; auto.
Qed.

Lemma root_is_has_root sm sh c : root_is sm sh c -> has_root sm.
Proof. intros (n & Hn & _). now exists n. Qed.

Lemma has_root_root_is sm : has_root sm -> exists sh c, root_is sm sh c.
Proof. intros (n & Hn). exists (show n), (content n), n. auto. Qed.

Lemma parse_hide_root content sm c :
  root_is sm false c -> root_is (snd (_parse_hide content sm)) false c.
Proof.
  intros Hr. unfold _parse_hide.
  destruct (length (fst (get_hide_keys content)) =? 0); cbn [snd]; [assumption|].
  apply fold_left_invariant with (Q := fun _ => True);
    auto using Forall_trivial, hide_key_root.
Qed.

Lemma parse_block_root content sm sh c :
  root_is sm sh c ->
  root_is (snd (_parse_block content sm)) sh
    (match dict_get (get_nodes content) "ROOT" with Some v => v | None => c end).
Proof.
  intros (n & Hn & Hs & Hc). unfold root_is. cbn [_parse_block snd].
  rewrite upsert_blocks_lookup by apply get_nodes_NoDup.
  destruct (dict_get (get_nodes content) "ROOT") as [v|].
  - unfold upserted. rewrite Hn. exists (set_content v n). auto.
  - exists n. auto.
Qed.

Lemma post_parse_eq content sm :
  post_parse content sm =
  (true, snd (fst (_parse_hide content sm)),
   snd (_parse_block (snd (fst (_parse_hide content sm))) (snd (_parse_hide content sm)))).
Proof.
  unfold post_parse. destruct (_parse_hide content sm) as [[h c] sm1].
  reflexivity.
Qed.

Lemma post_parse_root content sm c :
  root_is sm false c ->
  root_is (snd (post_parse content sm)) false
    (match dict_get (get_nodes (snd (fst (_parse_hide content sm)))) "ROOT" with
     | Some v => v
     | None => c
     end).
Proof.
  intros Hr. rewrite post_parse_eq. cbn [snd].
  now apply parse_block_root, parse_hide_root.
Qed.

Lemma post_parse_has_root content sm : has_root sm -> has_root (snd (post_parse content sm)).
Proof.
  intros Hr. rewrite post_parse_eq. cbn [snd].
  unfold _parse_hide.
  assert (Hh : has_root (snd (_parse_hide content sm))).
  { unfold _parse_hide.
    destruct (length (fst (get_hide_keys content)) =? 0); cbn [snd]; [assumption|].
    apply fold_left_invariant with (Q := fun _ => True); auto using Forall_trivial.
    intros a k _ Ha. destruct (has_root_root_is Ha) as (sh & c & (n & Hn & _)).
    destruct (String.eqb k "ROOT") eqn:E.
    - apply String.eqb_eq in E; subst k. eexists.
      unfold hide_key. rewrite Hn. cbn [concepts]. apply dict_get_set_same.
    - apply String.eqb_neq in E. exists n. now rewrite hide_key_other. }
  destruct (has_root_root_is Hh) as (sh & c & Hroot).
  exact (root_is_has_root (parse_block_root _ Hroot)).
Qed.

Lemma instant_parse_has_root content sm :
  has_root sm ->
  exists parsed text sm', instant_parse content sm = Ok (parsed, text, sm') /\ has_root sm'.
Proof.
  intros Hr. destruct (parse_show_returns content sm) as (parsed & text & sm' & Hp & Hsm).
  exists parsed, text, sm'. split; [assumption|]. subst sm'. destruct parsed; [|assumption].
  apply fold_left_invariant with (Q := fun _ => True);
    auto using Forall_trivial, show_key_has_root.
Qed.

Lemma instant_parse_root content sm c :
  ~ In "ROOT" (fst (get_show_keys content)) ->
  root_is sm false c ->
  exists parsed text sm', instant_parse content sm = Ok (parsed, text, sm')
    /\ root_is sm' false c.
Proof.
  intros Hnot Hr.
  destruct (parse_show_returns content sm) as (parsed & text & sm' & Hp & Hsm).
  exists parsed, text, sm'. split; [assumption|]. subst sm'. destruct parsed; [|assumption].
  apply fold_left_invariant with (Q := fun k => k <> "ROOT").
  - intros a k Hk Ha. now apply show_key_root.
  - apply Forall_forall. intros k Hk ->. contradiction.
  - assumption.
Qed.

(** A call of [add_content] that returns leaves ROOT in the store. *)
Lemma add_content_leaves_root prompt llm_inference output_recall fuel input role
    sm text sm' :
  add_content prompt llm_inference output_recall fuel input role sm = Ok (text, sm') ->
  has_root sm'.
Proof.
  unfold add_content.
  destruct (String.eqb role "user" || String.eqb role "system"); [|discriminate].
  destruct (dict_get (concepts sm) "ROOT") as [root|]; [|discriminate].
  destruct (add_content_loop prompt llm_inference output_recall fuel
              (content root +:+ NL +:+ input) [] "" sm)
    as [[c s]| |]; [|discriminate|discriminate].
  destruct (dict_get (concepts s) "ROOT") as [root'|] eqn:E; [|discriminate].
  intros [= _ <-]. now exists root'.
Qed.

(** Where the model answers, its stream does not break and the callback
    returns, nothing in [add_content] raises once the role is valid and
    ROOT is there. *)
Section AddContentFacts.
Variable prompt : string -> string -> string.
Variable llm_inference : string -> call (list chunk).
Variable output_recall : option (list (option string) -> option string -> bool).
Hypothesis model_answers :
  forall message, exists toks, llm_inference message = Returns (tokens_only toks).
Hypothesis callback_returns :
  forall seen token, recall_returns output_recall seen token = true.

Lemma read_tokens_has_root toks : forall seen result sm,
  has_root sm ->
  exists parsed text sm' seen',
    read_tokens output_recall (tokens_only toks) seen result sm
    = Ok (parsed, text, sm', seen')
    /\ has_root sm'.
Proof.
  induction toks as [|[token|] toks IH]; intros seen result sm Hr;
    cbn [tokens_only map read_tokens].
  - now exists false, result, sm, seen.
  - rewrite callback_returns.
    destruct (instant_parse_has_root (result +:+ token) Hr)
      as (parsed & text & sm1 & Hp & Hr1).
    rewrite Hp. destruct parsed.
    + pose proof (post_parse_has_root text Hr1) as Hr2.
      destruct (post_parse text sm1) as [[b text2] sm2]. cbn [snd] in Hr2.
      now exists true, text2, sm2, (seen ++ [Some token]).
    + now apply IH.
  - rewrite callback_returns. now apply IH.
Qed.

Lemma add_content_loop_has_root fuel : forall new_text seen result sm,
  has_root sm ->
  match add_content_loop prompt llm_inference output_recall fuel new_text seen result sm
  with
  | Ok (_, sm') => has_root sm'
  | Exc => False
  | OutOfFuel => True
  end.
Proof.
  induction fuel as [|fuel IH]; intros new_text seen result sm Hr; [exact I|].
  cbn [add_content_loop].
  destruct (model_answers (prompt (shown_nodes sm) new_text +:+ result)) as [toks ->].
  destruct (read_tokens_has_root toks seen result Hr)
    as (parsed & text & sm1 & seen1 & Hread & Hr1).
  rewrite Hread. destruct parsed.
  - now apply IH.
  - pose proof (post_parse_has_root text Hr1) as Hr2.
    now destruct (post_parse text sm1) as [[b text2] sm2].
Qed.

Lemma add_content_has_root fuel input role sm :
  role = "user" \/ role = "system" ->
  has_root sm ->
  add_content prompt llm_inference output_recall fuel input role sm <> Exc.
Proof.
  intros Hrole (n & Hn). unfold add_content.
  replace (String.eqb role "user" || String.eqb role "system") with true
    by (destruct Hrole; subst; reflexivity).
  rewrite Hn.
  pose proof (add_content_loop_has_root fuel (content n +:+ NL +:+ input) [] ""
                (ex_intro _ n Hn)) as H.
  destruct (add_content_loop prompt llm_inference output_recall fuel
              (content n +:+ NL +:+ input) [] "" sm) as [[text sm']| |];
    [|destruct H|discriminate].
  destruct H as (root & ->). discriminate.
Qed.

End AddContentFacts.


(** *** The store as a dictionary *)

Lemma dict_set_keyed d k v :
  Forall keyed d -> key v = k -> Forall keyed (dict_set d k v).
Proof.
  intros Hd Hv. induction Hd as [|[k' v'] d Hk Hd IH]; cbn [dict_set].
  - now repeat constructor.
  - destruct (String.eqb k' k) eqn:E.
    + apply String.eqb_eq in E; subst k'. constructor; [exact Hv|assumption].
    + now constructor.
Qed.

Lemma dict_get_keyed d k n : Forall keyed d -> dict_get d k = Some n -> key n = k.
Proof.
  intros Hd Hn. apply dict_get_In in Hn. rewrite Forall_forall in Hd.
  exact (Hd _ Hn).
Qed.

Lemma map_other_keys (d : list (string * SummaryMemoryNode)) k node :
  Forall keyed d -> ~ In k (map fst d) ->
  map (fun x => if String.eqb (key x) k then node else x) (map snd d) = map snd d.
Proof.
  intros Hk. induction Hk as [|[k' v'] d Hkv Hd IH]; cbn [map fst snd]; [reflexivity|].
  intros Hnot. unfold keyed in Hkv. cbn [fst snd] in Hkv. rewrite Hkv.
  destruct (String.eqb k' k) eqn:E.
  - apply String.eqb_eq in E. exfalso. apply Hnot. now left.
  - rewrite IH; [reflexivity|]. intros H. apply Hnot. now right.
Qed.

(** On a table that mirrors the store, the upsert of a known key is the
    assignment in the store. *)
Lemma db_upsert_mirror (d : list (string * SummaryMemoryNode)) k n node :
  NoDup (map fst d) -> Forall keyed d -> dict_get d k = Some n ->
  db_upsert node k (map snd d) = map snd (dict_set d k node).
Proof.
  intros Hnd Hk Hn. unfold db_upsert.
  replace (existsb (fun x => String.eqb (key x) k) (map snd d)) with true.
  - revert Hnd Hn. induction Hk as [|[k' v'] d Hkv Hd IH]; intros Hnd Hn; [discriminate|].
    unfold keyed in Hkv. cbn [fst snd] in Hkv.
    cbn [map fst] in Hnd. apply NoDup_cons_iff in Hnd as [Hk' Hnd'].
    cbn [map snd dict_set dict_get] in *. rewrite Hkv at 1.
    destruct (String.eqb k' k) eqn:E.
    + apply String.eqb_eq in E. rewrite ?Hkv, ?E in Hk'. cbn [map snd].
      now rewrite map_other_keys.
    + cbn [map snd]. now rewrite IH.
  - symmetry. apply existsb_exists. exists n. split.
    + apply dict_get_In in Hn. change n with (snd (k, n)). now apply in_map.
    + rewrite (dict_get_keyed _ Hk Hn). apply String.eqb_refl.
Qed.

Lemma store_set_known sm k n node :
  store_ok sm -> dict_get (concepts sm) k = Some n -> key node = k ->
  store_ok {| concepts := dict_set (concepts sm) k node; db := db_upsert node k (db sm) |}.
Proof.
  intros (Hnd & Hk & Hdb) Hn Hnode. unfold store_ok. cbn [concepts db].
  split; [now apply dict_set_NoDup|]. split; [now apply dict_set_keyed|].
  rewrite Hdb. now apply db_upsert_mirror with (n := n).
Qed.

Lemma store_set_new sm k node :
  store_ok sm -> dict_get (concepts sm) k = None -> key node = k ->
  store_ok {| concepts := dict_set (concepts sm) k node; db := db_insert node (db sm) |}.
Proof.
  intros (Hnd & Hk & Hdb) Hn Hnode. unfold store_ok. cbn [concepts db].
  split; [now apply dict_set_NoDup|]. split; [now apply dict_set_keyed|].
  rewrite Hdb, dict_set_absent by assumption. unfold db_insert.
  now rewrite map_app.
Qed.

Lemma db_upsert_new (d : list (string * SummaryMemoryNode)) k node :
  Forall keyed d -> dict_get d k = None ->
  db_upsert node k (map snd d) = db_insert node (map snd d).
Proof.
  intros Hk Hn. unfold db_upsert.
  replace (existsb (fun x => String.eqb (key x) k) (map snd d)) with false; [reflexivity|].
  symmetry. apply not_true_is_false. intros H. apply existsb_exists in H as (x & Hx & E).
  apply in_map_iff in Hx as ([k' v'] & <- & Hin). cbn [snd] in E.
  rewrite Forall_forall in Hk. pose proof (Hk _ Hin) as Hkv.
  unfold keyed in Hkv. cbn [fst snd] in Hkv. rewrite Hkv in E.
  apply String.eqb_eq in E. subst k'.
  apply dict_get_None_In in Hn. apply Hn.
  change k with (fst (k, v')). now apply in_map.
Qed.

Lemma hide_key_ok sm k : store_ok sm -> store_ok (hide_key sm k).
Proof.
  intros Hok. unfold hide_key.
  destruct (dict_get (concepts sm) k) as [n|] eqn:E.
  - apply store_set_known with (n := n); [assumption|assumption|].
    destruct Hok as (_ & Hk & _). exact (dict_get_keyed _ Hk E).
  - now apply store_set_new.
Qed.

Lemma show_key_ok sm k : store_ok sm -> store_ok (show_key sm k).
Proof.
  intros Hok. unfold show_key.
  destruct (dict_get (concepts sm) k) as [n|] eqn:E; [|assumption].
  apply store_set_known with (n := n); [assumption|assumption|].
  destruct Hok as (_ & Hk & _). exact (dict_get_keyed _ Hk E).
Qed.

Lemma upsert_block_ok sm kv : store_ok sm -> store_ok (upsert_block sm kv).
Proof.
  intros Hok. destruct kv as [k v]. unfold upsert_block.
  destruct (dict_get (concepts sm) k) as [n|] eqn:E.
  - apply store_set_known with (n := n); [assumption|assumption|].
    destruct Hok as (_ & Hk & _). exact (dict_get_keyed _ Hk E).
  - destruct Hok as (Hnd & Hk & Hdb). rewrite Hdb, db_upsert_new by assumption.
    rewrite <- Hdb. now apply store_set_new.
Qed.

(** Loading the table of a store gives the store back. *)
Lemma load_concepts (cs : list (string * SummaryMemoryNode)) : forall acc,
  NoDup (map fst (acc ++ cs)) -> Forall keyed cs ->
  fold_left (fun d n => dict_set d (key n) n) (map snd cs) acc = acc ++ cs.
Proof.
  induction cs as [|[k v] cs IH]; intros acc Hnd Hk; cbn [map snd fold_left].
  - now rewrite app_nil_r.
  - apply Forall_cons_iff in Hk as [Hkv Hk'].
    unfold keyed in Hkv. cbn [fst snd] in Hkv.
    rewrite Hkv. rewrite dict_set_absent.
    + rewrite IH; [now rewrite <- app_assoc| |assumption].
      now rewrite <- app_assoc.
    + apply dict_get_not_In. rewrite map_app in Hnd. cbn [map fst] in Hnd.
      apply NoDup_remove_2 in Hnd. intros H. apply Hnd. apply in_app_iff. now left.
Qed.

Lemma init_reload sm : store_ok sm -> has_root sm -> init (db sm) = sm.
Proof.
  intros (Hnd & Hk & Hdb) (n & Hn). unfold init.
  rewrite Hdb, (@load_concepts (concepts sm) []) by assumption. cbn [app].
  destruct sm as [cs table]. cbn [concepts db] in *. subst table.
  destruct cs; [discriminate|reflexivity].
Qed.

Lemma post_parse_ok content sm : store_ok sm -> store_ok (snd (post_parse content sm)).
Proof.
  intros Hok. rewrite post_parse_eq. cbn [snd _parse_block].
  apply fold_left_invariant with (Q := fun _ => True);
    auto using Forall_trivial, upsert_block_ok.
  unfold _parse_hide.
  destruct (length (fst (get_hide_keys content)) =? 0); cbn [snd]; [assumption|].
  apply fold_left_invariant with (Q := fun _ => True);
    auto using Forall_trivial, hide_key_ok.
Qed.

Lemma instant_parse_ok content sm parsed text sm' :
  store_ok sm -> instant_parse content sm = Ok (parsed, text, sm') -> store_ok sm'.
Proof.
  intros Hok H.
  destruct (parse_show_returns content sm) as (p & t & s & Hp & Hs).
  unfold instant_parse in H. rewrite Hp in H. injection H as -> -> ->.
  subst sm'. destruct parsed; [|assumption].
  apply fold_left_invariant with (Q := fun _ => True);
    auto using Forall_trivial, show_key_ok.
Qed.

(** *** What holds from pass to pass holds across [add_content] *)

Section Passes.
Variable R : t -> t -> Prop.
Hypothesis R_refl : forall sm, R sm sm.
Hypothesis R_trans : forall a b c, R a b -> R b c -> R a c.
Hypothesis R_hide : forall sm k, R sm (hide_key sm k).
Hypothesis R_show : forall sm k, R sm (show_key sm k).
Hypothesis R_upsert : forall sm kv, R sm (upsert_block sm kv).

Lemma fold_related (A : Type) (f : t -> A -> t) (l : list A) :
  (forall sm a, R sm (f sm a)) -> forall sm, R sm (fold_left f l sm).
Proof.
  intros Hf. induction l as [|a l IH]; intros sm; cbn [fold_left]; [apply R_refl|].
  eapply R_trans; [apply Hf|apply IH].
Qed.

Lemma post_parse_related content sm : R sm (snd (post_parse content sm)).
Proof.
  rewrite post_parse_eq. cbn [snd _parse_block].
  eapply R_trans; [|apply fold_related; exact R_upsert].
  unfold _parse_hide.
  destruct (length (fst (get_hide_keys content)) =? 0); cbn [snd]; [apply R_refl|].
  apply fold_related. exact R_hide.
Qed.

Lemma instant_parse_related content sm parsed text sm' :
  instant_parse content sm = Ok (parsed, text, sm') -> R sm sm'.
Proof.
  intros H. destruct (parse_show_returns content sm) as (p & c & s & Hp & Hs).
  unfold instant_parse in H. rewrite Hp in H. injection H as -> -> ->. subst sm'.
  destruct parsed; [|apply R_refl]. apply fold_related. exact R_show.
Qed.

Variable prompt : string -> string -> string.
Variable llm_inference : string -> call (list chunk).
Variable output_recall : option (list (option string) -> option string -> bool).

Lemma read_tokens_related response : forall seen result sm parsed text sm' seen',
  read_tokens output_recall response seen result sm = Ok (parsed, text, sm', seen') ->
  R sm sm'.
Proof.
  induction response as [|[[token|]|e] response IH];
    intros seen result sm parsed text sm' seen'; cbn [read_tokens].
  - intros [= _ _ <- _]. apply R_refl.
  - destruct (recall_returns output_recall seen (Some token)); [|discriminate].
    destruct (instant_parse (result +:+ token) sm) as [[[p c] s]| |] eqn:Hi;
      [|discriminate|discriminate].
    pose proof (instant_parse_related _ _ Hi) as H1. destruct p.
    + pose proof (post_parse_related c s) as H2.
      destruct (post_parse c s) as [[b c2] s2]. cbn [snd] in H2.
      intros [= _ _ <- _]. eapply R_trans; eassumption.
    + intros H. eapply R_trans; [exact H1|]. eapply IH. exact H.
  - destruct (recall_returns output_recall seen None); [apply IH|discriminate].
  - discriminate.
Qed.

Lemma add_content_loop_related fuel : forall new_text seen result sm text sm',
  add_content_loop prompt llm_inference output_recall fuel new_text seen result sm
  = Ok (text, sm') ->
  R sm sm'.
Proof.
  induction fuel as [|fuel IH]; intros new_text seen result sm text sm';
    cbn [add_content_loop]; [discriminate|].
  destruct (llm_inference (prompt (shown_nodes sm) new_text +:+ result))
    as [response|e]; [|discriminate].
  destruct (read_tokens output_recall response seen result sm)
    as [[[[p c] s] seen1]| |] eqn:Hr; [|discriminate|discriminate].
  pose proof (read_tokens_related _ _ _ _ Hr) as H1. destruct p.
  - intros H. eapply R_trans; [exact H1|]. eapply IH. exact H.
  - pose proof (post_parse_related c s) as H2.
    destruct (post_parse c s) as [[b c2] s2]. cbn [snd] in H2.
    intros [= _ <-]. eapply R_trans; eassumption.
Qed.

Lemma add_content_related fuel input role sm text sm' :
  add_content prompt llm_inference output_recall fuel input role sm = Ok (text, sm') ->
  R sm sm'.
Proof.
  unfold add_content.
  destruct (String.eqb role "user" || String.eqb role "system"); [|discriminate].
  destruct (dict_get (concepts sm) "ROOT") as [root|]; [|discriminate].
  destruct (add_content_loop prompt llm_inference output_recall fuel
              (content root +:+ NL +:+ input) [] "" sm)
    as [[c s]| |] eqn:Hl; [|discriminate|discriminate].
  destruct (dict_get (concepts s) "ROOT"); [|discriminate].
  intros [= _ <-]. eapply add_content_loop_related. exact Hl.
Qed.

End Passes.

(** *** Directives only flip flags *)

Lemma hide_keys_lookup keys : forall sm k n,
  dict_get (concepts sm) k = Some n ->
  dict_get (concepts (fold_left hide_key keys sm)) k =
  Some (if listed k keys then set_show false n else n).
Proof.
  induction keys as [|k' keys IH]; intros sm k n Hn; [exact Hn|].
  cbn [fold_left listed existsb]. fold (listed k keys).
  destruct (String.eqb k k') eqn:E.
  - apply String.eqb_eq in E; subst k'. cbn [orb].
    rewrite (IH (hide_key sm k) k (set_show false n)).
    + now destruct (listed k keys).
    + unfold hide_key. rewrite Hn. cbn [concepts]. apply dict_get_set_same.
  - cbn [orb]. apply IH. rewrite hide_key_other; [assumption|].
    apply String.eqb_neq in E. congruence.
Qed.

Lemma show_keys_lookup keys : forall sm k n,
  dict_get (concepts sm) k = Some n ->
  dict_get (concepts (fold_left show_key keys sm)) k =
  Some (if listed k keys then set_show true n else n).
Proof.
  induction keys as [|k' keys IH]; intros sm k n Hn; [exact Hn|].
  cbn [fold_left listed existsb]. fold (listed k keys).
  destruct (String.eqb k k') eqn:E.
  - apply String.eqb_eq in E; subst k'. cbn [orb].
    rewrite (IH (show_key sm k) k (set_show true n)).
    + now destruct (listed k keys).
    + unfold show_key. rewrite Hn. cbn [concepts]. apply dict_get_set_same.
  - cbn [orb]. apply IH. rewrite show_key_other; [assumption|].
    apply String.eqb_neq in E. congruence.
Qed.

Lemma parse_hide_lookup content sm k n :
  dict_get (concepts sm) k = Some n ->
  dict_get (concepts (snd (_parse_hide content sm))) k =
  Some (if listed k (fst (get_hide_keys content)) then set_show false n else n).
Proof.
  intros Hn. unfold _parse_hide.
  destruct (fst (get_hide_keys content)) as [|k0 keys] eqn:E.
  - exact Hn.
  - cbn [length Nat.eqb snd]. now apply hide_keys_lookup.
Qed.

Lemma parse_show_lookup content sm k n :
  dict_get (concepts sm) k = Some n ->
  exists parsed text sm',
    _parse_show content sm = Ok (parsed, text, sm')
    /\ dict_get (concepts sm') k =
       Some (if listed k (fst (get_show_keys content)) then set_show true n else n).
Proof.
  intros Hn. unfold _parse_show, get_show_keys.
  destruct (search "show" content) as [m|]; cbn [fst].
  - destruct (keys_of_group (group2 m)) as [|k0 keys] eqn:E.
    + eexists _, _, _. split; [reflexivity|exact Hn].
    + cbn [length Nat.eqb]. eexists _, _, _. split; [reflexivity|].
      now apply show_keys_lookup.
  - eexists _, _, _. split; [reflexivity|exact Hn].
Qed.

(** Concepts that are not visible do not count for [get_show_memory]. *)
Lemma filter_visible_without (cs : list (string * SummaryMemoryNode)) :
  (forall kn, In kn cs -> fst kn = "ROOT" -> visible (snd kn) = false) ->
  filter visible (map snd cs) =
  filter visible
    (map snd (filter (fun kn => negb (String.eqb (fst kn) "ROOT")) cs)).
Proof.
  induction cs as [|[k n] cs IH]; intros H; [reflexivity|].
  cbn [map filter fst snd].
  assert (Hcs : forall kn, In kn cs -> fst kn = "ROOT" -> visible (snd kn) = false)
    by (intros kn Hin; apply H; now right).
  destruct (String.eqb k "ROOT") eqn:E; cbn [negb].
  - apply String.eqb_eq in E.
    pose proof (H (k, n) (or_introl eq_refl) E) as Hv. cbn [snd] in Hv.
    rewrite Hv. now apply IH.
  - cbn [map filter snd]. rewrite IH by assumption. reflexivity.
Qed.

(** A hidden ROOT is not among the concepts [get_show_memory] renders. *)
Lemma hidden_root_not_rendered sm c :
  store_ok sm -> root_is sm false c ->
  get_show_memory sm = get_show_memory (without_root sm).
Proof.
  intros (Hnd & Hk & _) (root & Hroot & Hshow & _).
  unfold get_show_memory, without_root. cbn [concepts].
  rewrite <- filter_visible_without; [reflexivity|].
  intros [k n] Hin Hkey. cbn [fst snd] in *. subst k.
  rewrite (dict_get_NoDup_In _ _ _ Hnd Hin) in Hroot. injection Hroot as ->.
  unfold visible. now rewrite Hshow.
Qed.

Lemma parse_hide_root_flag content sm sh c :
  root_is sm sh c ->
  root_is (snd (_parse_hide content sm))
    (if listed "ROOT" (fst (get_hide_keys content)) then false else sh) c.
Proof.
  intros (n & Hn & Hs & Hc). unfold root_is.
  rewrite (parse_hide_lookup content sm "ROOT" Hn).
  eexists. split; [reflexivity|].
  destruct (listed "ROOT" (fst (get_hide_keys content))); auto.
Qed.

Lemma post_parse_root_flag content sm sh c :
  root_is sm sh c ->
  root_is (snd (post_parse content sm))
    (if listed "ROOT" (fst (get_hide_keys content)) then false else sh)
    (match dict_get (get_nodes (snd (fst (_parse_hide content sm)))) "ROOT" with
     | Some v => v
     | None => c
     end).
Proof.
  intros Hr. rewrite post_parse_eq. cbn [snd].
  now apply parse_block_root, parse_hide_root_flag.
Qed.

Lemma instant_parse_root_flag content sm sh c :
  root_is sm sh c ->
  exists parsed text sm',
    instant_parse content sm = Ok (parsed, text, sm')
    /\ root_is sm' (if listed "ROOT" (fst (get_show_keys content)) then true else sh) c.
Proof.
  intros (n & Hn & Hs & Hc).
  destruct (parse_show_lookup content sm "ROOT" Hn) as (parsed & text & sm' & Hp & Hk).
  exists parsed, text, sm'. split; [exact Hp|]. unfold root_is. rewrite Hk.
  eexists. split; [reflexivity|].
  destruct (listed "ROOT" (fst (get_show_keys content))); auto.
Qed.

(** C4, as amended: after initialization on an empty table the concept
    ROOT exists with show=false and an empty text, and initialization on
    the table of a store gives that store back; a ROOT that is hidden
    adds nothing to get_show_memory; whatever its flag, ROOT is in the
    store after a pass of hide directives and blocks, after a show pass,
    and after every call of add_content that returns, and with a valid
    role that call does not raise where the model answers, its stream
    does not break and the callback returns; a hide directive that lists
    ROOT clears its flag, a show directive that lists ROOT sets it, as
    for any other concept, and otherwise the flag stays as it is; the
    text of ROOT is changed only through a <<ROOT>> block, which
    replaces it.  No leftover text is written to ROOT. *)
Theorem root_concept_kept sm sh c :
  store_ok sm ->
  root_is sm sh c ->
  (store_ok (init []) /\ root_is (init []) false "" /\ init (db sm) = sm)
  /\ (sh = false -> get_show_memory sm = get_show_memory (without_root sm))
  /\ (forall content,
      store_ok (snd (post_parse content sm))
      /\ root_is (snd (post_parse content sm))
           (if listed "ROOT" (fst (get_hide_keys content)) then false else sh)
           (match dict_get (get_nodes (snd (fst (_parse_hide content sm)))) "ROOT" with
            | Some v => v
            | None => c
            end))
  /\ (forall content,
      exists parsed text sm',
        instant_parse content sm = Ok (parsed, text, sm')
        /\ store_ok sm'
        /\ root_is sm'
             (if listed "ROOT" (fst (get_show_keys content)) then true else sh) c)
  /\ (forall prompt llm_inference output_recall fuel input role,
      (forall text sm',
         add_content prompt llm_inference output_recall fuel input role sm
         = Ok (text, sm') ->
         store_ok sm' /\ has_root sm')
      /\ (role = "user" \/ role = "system" ->
          (forall message, exists toks,
             llm_inference message = Returns (tokens_only toks)) ->
          (forall seen token, recall_returns output_recall seen token = true) ->
          add_content prompt llm_inference output_recall fuel input role sm <> Exc)).
Proof.
  intros Hok Hr. split; [|split; [|split; [|split]]].
  - split; [|split].
    + repeat split; cbn; repeat constructor. simpl. tauto.
    + eexists. repeat split.
    + apply init_reload; [assumption|]. exact (root_is_has_root Hr).
  - intros ->. now apply hidden_root_not_rendered with (c := c).
  - intros content. split; [now apply post_parse_ok|now apply post_parse_root_flag].
  - intros content.
    destruct (instant_parse_root_flag content Hr) as (parsed & text & sm' & Hp & Hr').
    exists parsed, text, sm'. split; [assumption|]. split; [|assumption].
    exact (instant_parse_ok _ Hok Hp).
  - intros prompt llm cb fuel input role. split.
    + intros text sm' H. split; [|exact (add_content_leaves_root _ _ _ _ _ _ _ H)].
      refine (@add_content_related (fun a b => store_ok a -> store_ok b)
                _ _ _ _ _ _ _ _ _ _ _ _ _ _ H Hok); auto.
      * intros a k. apply hide_key_ok.
      * intros a k. apply show_key_ok.
      * intros a kv. apply upsert_block_ok.
    + intros Hrole Hmodel Hcb.
      apply add_content_has_root; [assumption|assumption|assumption|].
      exact (root_is_has_root Hr).
Qed.

Lemma root_concept_kept_witness :
  root_is Samples.fresh_store false ""
  /\ get_show_memory Samples.fresh_store = ""
  /\ root_is (snd (post_parse Samples.hide_X Samples.fresh_store)) false ""
  /\ (exists parsed text sm',
        instant_parse Samples.show_ROOT Samples.fresh_store = Ok (parsed, text, sm')
        /\ root_is sm' true "")
  /\ add_content Samples.plain_prompt Samples.llm_plain None 1 "hi" "user"
       Samples.fresh_store <> Exc.
Proof.
  assert (H0 : root_is Samples.fresh_store false "") by (eexists; repeat split).
  assert (Hok : store_ok Samples.fresh_store).
  { repeat split; cbn; repeat constructor. simpl. tauto. }
  destruct (root_concept_kept Hok H0) as (_ & Hshow & Hpost & Hinst & Hadd).
  split; [exact H0|]. split; [rewrite (Hshow eq_refl); reflexivity|].
  split; [exact (proj2 (Hpost Samples.hide_X))|]. split.
  - destruct (Hinst Samples.show_ROOT) as (parsed & text & sm' & Hp & _ & Hroot).
    exists parsed, text, sm'. split; [exact Hp|exact Hroot].
  - apply (proj2 (Hadd Samples.plain_prompt Samples.llm_plain None 1 "hi" "user"));
      [now left| |reflexivity].
    intros message. now exists [Some "left"; Some "over"].
Defined.

(** C4 as stated fails: on a fresh store the model first emits a show
    directive listing ROOT, which sets ROOT's show flag, and then a word,
    which the block pass stores under the open <<ROOT>> title; ROOT is
    then part of get_show_memory.  And plain words without a title are
    stored nowhere: ROOT's text stays empty. *)
Lemma root_shown_and_nothing_accumulated :
  (exists text sm' n,
     add_content Samples.plain_prompt Samples.llm_show_root None 2 "hi" "user"
       Samples.fresh_store
     = Ok (text, sm')
     /\ dict_get (concepts sm') "ROOT" = Some n
     /\ show n = true
     /\ get_show_memory sm' = "<<ROOT>>" +:+ NL +:+ "x")
  /\ (exists text sm',
        add_content Samples.plain_prompt Samples.llm_plain None 1 "hi" "user"
          Samples.fresh_store
        = Ok (text, sm')
        /\ root_is sm' false "").
Proof.
  split.
  - eexists _, _, _. split; [vm_compute; reflexivity|].
    split; [reflexivity|]. split; reflexivity.
  - eexists _, _. split; [vm_compute; reflexivity|]. eexists. repeat split.
Qed.

End SummaryMemoryFacts.

(** * Properties of the memory tree *)

Module MemoryFacts.
Import Memory.

Lemma wf_ids m n : wf m = true -> In n (nodes m) -> node_id n < next_id m.
Proof.
  unfold wf. rewrite forallb_forall. intros H Hin. apply Nat.ltb_lt. now apply H.
Qed.

Lemma filter_other_ids (l : list MemoryNode) id :
  forallb (fun n => node_id n <? id) l = true ->
  filter (fun n => negb (has_id id n)) l = l.
Proof.
  induction l as [|x l IH]; cbn [forallb filter]; [reflexivity|].
  intros H. apply andb_true_iff in H as [Hx Hl]. apply Nat.ltb_lt in Hx.
  unfold has_id at 1. replace (node_id x =? id) with false
    by (symmetry; apply Nat.eqb_neq; lia).
  cbn [negb]. now rewrite IH.
Qed.

(** Deleting the node that was just inserted gives the list back. *)
Lemma delete_inserted (l : list MemoryNode) ref n :
  forallb (fun x => node_id x <? node_id n) l = true ->
  filter (fun x => negb (has_id (node_id n) x)) (insert_after ref n l) = l.
Proof.
  induction l as [|x l IH]; cbn [forallb insert_after]; intros H.
  - cbn [filter]. unfold has_id. now rewrite Nat.eqb_refl.
  - apply andb_true_iff in H as [Hx Hl].
    assert (Hkeep : negb (has_id (node_id n) x) = true).
    { unfold has_id. apply Nat.ltb_lt in Hx.
      replace (node_id x =? node_id n) with false
        by (symmetry; apply Nat.eqb_neq; lia).
      reflexivity. }
    destruct (has_id ref x); cbn [filter]; rewrite Hkeep.
    + replace (negb (has_id (node_id n) n)) with false
        by (unfold has_id; now rewrite Nat.eqb_refl).
      now rewrite filter_other_ids.
    + now rewrite IH.
Qed.

Lemma find_deleted (l : list MemoryNode) id :
  find (has_id id) (filter (fun n => negb (has_id id n)) l) = None.
Proof.
  induction l as [|x l IH]; cbn [filter find]; [reflexivity|].
  destruct (has_id id x) eqn:E; cbn [negb]; [assumption|].
  cbn [find]. now rewrite E.
Qed.

Lemma get_node_deleted m id : get_node (delete_node m id) id = None.
Proof. apply find_deleted. Qed.

Lemma In_insert_after ref n (l : list MemoryNode) x :
  In x (insert_after ref n l) <-> x = n \/ In x l.
Proof.
  induction l as [|y l IH]; cbn [insert_after In].
  - intuition congruence.
  - destruct (has_id ref y); cbn [In]; [intuition congruence|].
    rewrite IH. intuition congruence.
Qed.

Lemma wf_Forall m : wf m = true <-> Forall (fun n => node_id n < next_id m) (nodes m).
Proof.
  unfold wf. rewrite forallb_forall, Forall_forall.
  split; intros H n Hn; [apply Nat.ltb_lt|apply Nat.ltb_lt]; auto.
Qed.

Lemma wf_add_node_after m ref r a c : wf m = true -> wf (snd (add_node_after m ref r a c)) = true.
Proof.
  rewrite !wf_Forall, !Forall_forall. cbn [add_node_after snd nodes next_id].
  intros H n Hn. apply In_insert_after in Hn as [->|Hn].
  - cbn. lia.
  - specialize (H n Hn). lia.
Qed.

Lemma wf_add_node m r a c : wf m = true -> wf (snd (add_node m r a c)) = true.
Proof.
  rewrite !wf_Forall, !Forall_forall. cbn [add_node snd nodes next_id].
  intros H n Hn. apply in_app_iff in Hn as [Hn|[<-|[]]].
  - specialize (H n Hn). lia.
  - cbn. lia.
Qed.

Lemma wf_update m id f :
  (forall n, node_id (f n) = node_id n) -> wf m = true -> wf (update id f m) = true.
Proof.
  intros Hf. rewrite !wf_Forall, !Forall_forall. cbn [update nodes next_id].
  intros H n Hn. apply in_map_iff in Hn as (x & <- & Hx).
  specialize (H x Hx). destruct (has_id id x); [rewrite Hf|]; assumption.
Qed.

Lemma wf_success_node m id : wf m = true -> wf (success_node m id) = true.
Proof. now apply wf_update. Qed.

Lemma wf_set_content m id c : wf m = true -> wf (set_content m id c) = true.
Proof. now apply wf_update. Qed.

Lemma wf_delete_node m id : wf m = true -> wf (delete_node m id) = true.
Proof.
  rewrite !wf_Forall, !Forall_forall. cbn [delete_node nodes next_id].
  intros H n Hn. apply filter_In in Hn as [Hn _]. auto.
Qed.

Lemma wf_set_current_node m id : wf m = true -> wf (set_current_node m id) = true.
Proof. trivial. Qed.

Lemma find_inserted (l : list MemoryNode) ref n :
  forallb (fun x => node_id x <? node_id n) l = true ->
  find (has_id (node_id n)) (insert_after ref n l) = Some n.
Proof.
  induction l as [|x l IH]; cbn [forallb insert_after]; intros H.
  - cbn [find]. unfold has_id. now rewrite Nat.eqb_refl.
  - apply andb_true_iff in H as [Hx Hl]. apply Nat.ltb_lt in Hx.
    assert (Hnot : has_id (node_id n) x = false)
      by (unfold has_id; apply Nat.eqb_neq; lia).
    destruct (has_id ref x); cbn [find]; rewrite Hnot.
    + unfold has_id. now rewrite Nat.eqb_refl.
    + now apply IH.
Qed.

Lemma find_update (l : list MemoryNode) id j f :
  (forall n, node_id (f n) = node_id n) ->
  find (has_id j) (map (fun n => if has_id id n then f n else n) l) =
  option_map (fun n => if has_id id n then f n else n) (find (has_id j) l).
Proof.
  intros Hf. induction l as [|x l IH]; [reflexivity|]. cbn [map find].
  assert (E : has_id j (if has_id id x then f x else x) = has_id j x)
    by (destruct (has_id id x); unfold has_id; now rewrite ?Hf).
  rewrite E. destruct (has_id j x); [reflexivity|assumption].
Qed.

Lemma get_node_update m id j f :
  (forall n, node_id (f n) = node_id n) ->
  get_node (update id f m) j =
  option_map (fun n => if has_id id n then f n else n) (get_node m j).
Proof. intros Hf. now apply find_update. Qed.

Lemma find_pending_In (l : list MemoryNode) n : find is_pending l = Some n -> In n l.
Proof. intros H. now apply find_some in H. Qed.

End MemoryFacts.

(** * Properties of the agent *)

Module AgentFacts.
Import PyStr PyStrFacts Agent.

(** *** Traces *)

Lemma recalls_app a b : recalls (a ++ b) = recalls a ++ recalls b.
Proof.
  induction a as [|[] a IH]; cbn [app recalls]; try assumption.
  - reflexivity.
  - now rewrite IH.
Qed.

Lemma tokens_app a b : tokens (a ++ b) = tokens a ++ tokens b.
Proof.
  induction a as [|[|[t|]| | | |] a IH]; cbn [app tokens]; try assumption.
  - reflexivity.
  - now rewrite IH.
Qed.

Lemma outputs_app a b : outputs (a ++ b) = outputs a ++ outputs b.
Proof.
  induction a as [|[| | |i c [[o s]|e]| |] a IH]; cbn [app outputs]; try assumption.
  - reflexivity.
  - now rewrite IH.
Qed.

Lemma stop_after_app b a c : stop_after b (a ++ c) = stop_after (stop_after b a) c.
Proof. apply fold_left_app. Qed.

Lemma count_polls_app a b : count_polls (a ++ b) = count_polls a + count_polls b.
Proof.
  induction a as [|[] a IH]; cbn [app count_polls]; try assumption.
  - reflexivity.
  - now rewrite IH.
Qed.

Lemma text_of_app a b : text_of (a ++ b) = text_of a +:+ text_of b.
Proof.
  induction a as [|t a IH]; cbn [app text_of fold_right]; [reflexivity|].
  fold (text_of (a ++ b)). fold (text_of a). now rewrite IH, append_assoc.
Qed.

Lemma stop_requested_app output_recall a : forall tr b,
  stop_requested output_recall tr (a ++ b) =
  stop_requested output_recall tr a || stop_requested output_recall (tr ++ a) b.
Proof.
  induction a as [|ev a IH]; intros tr b; cbn [app stop_requested].
  - now rewrite app_nil_r.
  - now rewrite IH, <- app_assoc, orb_assoc.
Qed.

Lemma returns_raises eff : returns eff = true -> raises eff = None.
Proof. unfold returns. now destruct (raises eff). Qed.

Lemma raises_returns eff : returns eff = false -> exists e, raises eff = Some e.
Proof. unfold returns. destruct (raises eff) as [e|]; [eauto|discriminate]. Qed.

Section RunFacts.
Variable env : Env.
Variable output_recall : callback.

Lemma await_recall_eq o st :
  await_recall output_recall o st =
  (raises (output_recall (trace st) o),
   {| memory := memory st; trace := trace st ++ [ERecall o];
      stop_event := stop_event st || sets_stop (output_recall (trace st) o);
      is_running := is_running st |}).
Proof. reflexivity. Qed.

(** The loop over the interpreters stops at the first one that matches. *)
Lemma dispatch_first pre : forall i I post result st,
  Forall (fun x => match_template x result = false) pre ->
  match_template I result = true ->
  dispatch (pre ++ I :: post) i result st =
  (match parse I (trace st) result with
   | Returns (output, is_stop) => Parsed output is_stop
   | Raises e => ParseRaised e
   end,
   emit (EParse (i + length pre) result (parse I (trace st) result)) st).
Proof.
  induction pre as [|x pre IH]; intros i I post result st Hpre HI.
  - cbn [app dispatch length]. rewrite HI, Nat.add_0_r. reflexivity.
  - inversion Hpre as [|? ? Hx Hpre']; subst.
    cbn [app dispatch length]. rewrite Hx, IH by assumption.
    now rewrite Nat.add_succ_r.
Qed.

Lemma dispatch_none interps : forall i result st,
  Forall (fun x => match_template x result = false) interps ->
  dispatch interps i result st = (NoMatch, st).
Proof.
  induction interps as [|x interps IH]; intros i result st H; [reflexivity|].
  inversion H; subst. cbn [dispatch]. rewrite H2. now apply IH.
Qed.

(** Either no interpreter matches, or the list splits at the first one
    that does. *)
Lemma first_match_split (interps : list OutputInterpreter) result :
  Forall (fun x => match_template x result = false) interps
  \/ exists pre I post, interps = pre ++ I :: post
       /\ Forall (fun x => match_template x result = false) pre
       /\ match_template I result = true.
Proof.
  induction interps as [|x interps IH]; [left; constructor|].
  destruct (match_template x result) eqn:E.
  - right. exists [], x, interps. repeat split; [constructor|assumption].
  - destruct IH as [IH|(pre & I & post & -> & Hpre & HI)].
    + left. now constructor.
    + right. exists (x :: pre), I, post. repeat split; [now constructor|assumption].
Qed.

(** What the loop over the interpreters does: no match, or the parse of
    one interpreter of the list, recorded with what it did. *)
Lemma dispatch_cases interps : forall i result st,
  dispatch interps i result st = (NoMatch, st)
  \/ exists j I,
       In I interps
       /\ dispatch interps i result st =
          (match parse I (trace st) result with
           | Returns (output, is_stop) => Parsed output is_stop
           | Raises e => ParseRaised e
           end, emit (EParse j result (parse I (trace st) result)) st).
Proof.
  intros i result st.
  destruct (first_match_split interps result) as [H|(pre & I & post & -> & Hpre & HI)].
  - left. now apply dispatch_none.
  - right. exists (i + length pre), I. split; [apply in_elt|]. now apply dispatch_first.
Qed.

Lemma end_of_turn_cases result is_stop st :
  end_of_turn output_recall result is_stop st =
  (match raises (output_recall (trace st) None) with
   | None => Completed result is_stop
   | Some e => raised_in_try e result is_stop
   end,
   snd (await_recall output_recall None st)).
Proof.
  unfold end_of_turn. rewrite await_recall_eq. cbn [snd].
  now destruct (raises (output_recall (trace st) None)).
Qed.

Lemma raised_result e result is_stop :
  result_of (raised_in_try e result is_stop) = result
  /\ is_stop_of (raised_in_try e result is_stop) = is_stop.
Proof. now destruct e. Qed.

(** How a turn that has raised may have ended. *)
Lemma raised_shape e result is_stop (new : list event) last :
  recalls new = map Some (tokens new) ++ map framed (outputs new) ++ last ->
  length (outputs new) <= 1 ->
  last = [] \/ (last = [None] /\ exists tr, returns (output_recall tr None) = false) ->
  turn_shape output_recall (raised_in_try e result is_stop) new.
Proof.
  intros Hrec Hlen Hlast. exists last. destruct e; cbn [raised_in_try]; auto.
Qed.

(** The [try] block from the first token on: it leaves the memory as it
    is, and its events have the shape of a turn. *)
Lemma stream_spec response : forall result st e st',
  stream env output_recall response result st = (e, st') ->
  memory st' = memory st /\ is_running st' = is_running st
  /\ exists new,
       trace st' = trace st ++ new
       /\ Forall turn_event new
       /\ turn_shape output_recall e new
       /\ result_of e = result +:+ text_of (tokens new)
       /\ is_stop_of e = stop_after false new.
Proof.
  induction response as [|[[token|]|e0] response IH]; intros result st e st' H.
  - cbn [stream] in H. rewrite end_of_turn_cases in H. injection H as <- <-.
    cbn [snd await_recall memory is_running trace emit stop].
    repeat split. exists [ERecall None]. split; [reflexivity|].
    split; [repeat constructor|].
    destruct (raises (output_recall (trace st) None)) as [e1|] eqn:R.
    + split; [|destruct (raised_result e1 result false) as [-> ->];
                cbn; now rewrite append_nil_r].
      apply raised_shape with (last := [None]); [reflexivity|cbn; lia|].
      right. split; [reflexivity|]. exists (trace st). unfold returns. now rewrite R.
    + split; [exists [None]; repeat split; cbn; lia|].
      cbn. now rewrite append_nil_r.
  - cbn [stream] in H. rewrite await_recall_eq in H.
    destruct (raises (output_recall (trace (emit (EToken (Some token)) st))
                (Some token))) as [e1|] eqn:R.
    + injection H as <- <-. cbn [memory is_running trace emit stop].
      repeat split.
      exists [EToken (Some token); ERecall (Some token)].
      split; [rewrite <- !app_assoc; reflexivity|].
      split; [repeat constructor|].
      split; [apply raised_shape with (last := []); [reflexivity|cbn; lia|now left]|].
      destruct (raised_result e1 (result +:+ token) false) as [-> ->].
      cbn. now rewrite append_nil_r.
    + match type of H with
      | context [dispatch ?l ?i ?r ?s] =>
          destruct (dispatch_cases l i r s) as [D|(j & I & _ & D)]; rewrite D in H
      end.
      * apply IH in H. cbn [memory is_running trace emit] in H.
        destruct H as (Hm & Hr & new & Ht & Hev & (last & Hrec & Hlen & Hl) & Hres & Hstop).
        repeat split; try assumption.
        exists (EToken (Some token) :: ERecall (Some token) :: new).
        split; [rewrite Ht, <- !app_assoc; reflexivity|].
        split; [repeat constructor; assumption|].
        split.
        { exists last. cbn [recalls tokens outputs map app]. rewrite Hrec.
          repeat split; assumption. }
        cbn [tokens text_of fold_right]. fold (text_of (tokens new)).
        rewrite Hres, append_assoc. split; [reflexivity|]. exact Hstop.
      * match type of H with
        | context [parse I ?tr ?c] =>
            destruct (parse I tr c) as [[output is_stop]|e1] eqn:P
        end.
        -- rewrite await_recall_eq in H.
           match type of H with
           | context [raises ?x] => destruct (raises x) as [e2|] eqn:R2
           end.
           ++ injection H as <- <-. cbn [memory is_running trace emit stop].
              repeat split.
              eexists [EToken (Some token); ERecall (Some token);
                       EParse j _ (Returns (output, is_stop));
                       ERecall (Some (NL +:+ output +:+ NL))].
              split; [rewrite <- !app_assoc; reflexivity|].
              split; [repeat constructor|].
              split; [apply raised_shape with (last := []);
                      [reflexivity|cbn; lia|now left]|].
              destruct (raised_result e2 (result +:+ token) is_stop) as [-> ->].
              cbn. now rewrite append_nil_r.
           ++ rewrite end_of_turn_cases in H. injection H as <- <-.
              cbn [snd await_recall memory is_running trace emit stop].
              repeat split.
              eexists [EToken (Some token); ERecall (Some token);
                       EParse j _ (Returns (output, is_stop));
                       ERecall (Some (NL +:+ output +:+ NL)); ERecall None].
              split; [rewrite <- !app_assoc; reflexivity|].
              split; [repeat constructor|].
              match goal with
              | |- context [raises ?x] => destruct (raises x) as [e3|] eqn:R3
              end.
              ** split; [|destruct (raised_result e3 (result +:+ token) is_stop)
                            as [-> ->]; cbn; now rewrite append_nil_r].
                 apply raised_shape with (last := [None]); [reflexivity|cbn; lia|].
                 right. split; [reflexivity|]. eexists. unfold returns. now rewrite R3.
              ** split; [exists [None]; repeat split; cbn; lia|].
                 cbn. now rewrite append_nil_r.
        -- injection H as <- <-. cbn [memory is_running trace emit stop].
           repeat split.
           eexists [EToken (Some token); ERecall (Some token); EParse j _ (Raises e1)].
           split; [rewrite <- !app_assoc; reflexivity|].
           split; [repeat constructor|].
           split; [apply raised_shape with (last := []);
                   [reflexivity|cbn; lia|now left]|].
           destruct (raised_result e1 (result +:+ token) false) as [-> ->].
           cbn. now rewrite append_nil_r.
  - cbn [stream] in H. rewrite end_of_turn_cases in H. injection H as <- <-.
    cbn [snd await_recall memory is_running trace emit stop].
    repeat split. exists [EToken None; ERecall None].
    split; [rewrite <- !app_assoc; reflexivity|].
    split; [repeat constructor|].
    destruct (raises (output_recall (trace st ++ [EToken None]) None)) as [e1|] eqn:R.
    + split; [|destruct (raised_result e1 result false) as [-> ->];
                cbn; now rewrite append_nil_r].
      apply raised_shape with (last := [None]); [reflexivity|cbn; lia|].
      right. split; [reflexivity|]. eexists. unfold returns. now rewrite R.
    + split; [exists [None]; repeat split; cbn; lia|].
      cbn. now rewrite append_nil_r.
  - cbn [stream] in H. injection H as <- <-. repeat split.
    exists []. split; [now rewrite app_nil_r|]. split; [constructor|].
    split; [apply raised_shape with (last := []); [reflexivity|cbn; lia|now left]|].
    destruct (raised_result e0 result false) as [-> ->].
    cbn. now rewrite append_nil_r.
Qed.

(** C1: when the callback has returned on a token and the buffer is then
    matched by the pattern of the interpreter at place [length pre] of
    the priority list (python, bash, applescript, file, ask), by none
    before it and by a later one [J] as well, the token loop invokes the
    parse of that first interpreter on the buffer, and after it only
    hands things to the callback: no other parse is invoked and no token
    is taken any more, whatever tokens were still to come. *)
Theorem first_match_wins token rest result pre I post J st :
  output_interpreters env = pre ++ I :: post ->
  Forall (fun x => match_template x (result +:+ token) = false) pre ->
  match_template I (result +:+ token) = true ->
  In J post ->
  match_template J (result +:+ token) = true ->
  returns (output_recall (trace st ++ [EToken (Some token)]) (Some token)) = true ->
  exists after,
    trace (snd (stream env output_recall (Token (Some token) :: rest) result st)) =
    trace st
    ++ [EToken (Some token); ERecall (Some token);
        EParse (length pre) (result +:+ token)
          (parse I (trace st ++ [EToken (Some token); ERecall (Some token)])
             (result +:+ token))]
    ++ after
    /\ Forall is_recall after
    /\ forall rest',
         stream env output_recall (Token (Some token) :: rest') result st =
         stream env output_recall (Token (Some token) :: rest) result st.
Proof.
  intros Hsplit Hpre HI _ _ Hret. apply returns_raises in Hret.
  assert (Hd : forall st0,
     dispatch (output_interpreters env) 0 (result +:+ token) st0 =
     (match parse I (trace st0) (result +:+ token) with
      | Returns (output, is_stop) => Parsed output is_stop
      | Raises e => ParseRaised e
      end,
      emit (EParse (length pre) (result +:+ token)
              (parse I (trace st0) (result +:+ token))) st0)).
  { intros st0. rewrite Hsplit. now rewrite dispatch_first. }
  cbn [stream]. rewrite await_recall_eq. cbn [trace emit]. rewrite Hret, Hd.
  cbn [trace]. rewrite <- app_assoc. cbn [app].
  destruct (parse I (trace st ++ [EToken (Some token); ERecall (Some token)])
              (result +:+ token)) as [[output is_stop]|e] eqn:P.
  - rewrite await_recall_eq. cbn [trace emit].
    match goal with
    | |- context [raises ?x] => destruct (raises x) as [e2|] eqn:R2
    end.
    + exists [ERecall (Some (NL +:+ output +:+ NL))]. cbn [snd trace].
      rewrite <- !app_assoc. cbn [app].
      split; [reflexivity|]. split; [|reflexivity].
      repeat constructor. eexists. reflexivity.
    + rewrite end_of_turn_cases. cbn [snd await_recall trace emit stop].
      exists [ERecall (Some (NL +:+ output +:+ NL)); ERecall None].
      rewrite <- !app_assoc. cbn [app].
      split; [reflexivity|]. split; [|reflexivity].
      repeat constructor; eexists; reflexivity.
  - exists []. cbn [snd trace emit]. rewrite <- !app_assoc. cbn [app].
    split; [reflexivity|]. split; [constructor|reflexivity].
Qed.

End RunFacts.

Lemma first_match_wins_witness :
  exists after,
    trace (snd (stream (Samples.env_of Samples.llm_run Samples.runs_py Samples.runs_sh)
                  Samples.quiet [Token (Some "run"); Token (Some "more")] ""
                  Samples.st_question))
    = [EToken (Some "run"); ERecall (Some "run");
       EParse 0 "run" (Returns ("py", false))] ++ after
    /\ Forall is_recall after.
Proof.
  destruct (@first_match_wins
              (Samples.env_of Samples.llm_run Samples.runs_py Samples.runs_sh)
              Samples.quiet "run" [Token (Some "more")] "" []
              Samples.runs_py
              [Samples.runs_sh; Samples.never; Samples.never; Samples.never]
              Samples.runs_sh Samples.st_question) as (after & Htrace & Hrec & _).
  - reflexivity.
  - constructor.
  - reflexivity.
  - now left.
  - reflexivity.
  - reflexivity.
  - exists after. split; [exact Htrace|exact Hrec].
Defined.

Section TurnFacts.
Variable env : Env.
Variable output_recall : callback.

(** [_execute_node] ahead of its [try] block: where it gets through,
    the answer node is in the tree, right after the node. *)
Lemma prepare_spec node st r st1 :
  prepare env output_recall node st = (r, st1) ->
  is_running st1 = is_running st
  /\ match r with
     | Some (msgs, answer) =>
         answer = Memory.fresh (memory st) "system" "answer" "" (Some (Memory.node_id node))
         /\ Memory.nodes (memory st1) =
            Memory.insert_after (Memory.node_id node) answer (Memory.nodes (memory st))
         /\ Memory.next_id (memory st1) = S (Memory.next_id (memory st))
         /\ trace st1 = trace st ++ banner node
     | None =>
         (trace st1 = trace st ++ [EExecute (Memory.node_id node)]
          /\ memory st1 = memory st)
         \/ (trace st1 = trace st ++ banner node
             /\ exists tr o, returns (output_recall tr o) = false)
     end.
Proof.
  unfold prepare, banner. cbn [trace emit].
  destruct (system_prompt env (trace st ++ [EExecute (Memory.node_id node)])) as [prompt|].
  - cbn [Memory.add_node_after].
    destruct (String.eqb (Memory.action node) "plan").
    + rewrite await_recall_eq.
      match goal with
      | |- context [raises ?x] => destruct (raises x) as [e|] eqn:R
      end; intros [= <- <-];
        cbn [memory trace is_running emit set_memory Memory.nodes Memory.next_id
             Memory.set_current_node]; rewrite <- app_assoc.
      * split; [reflexivity|]. right. split; [reflexivity|].
        eexists _, _. unfold returns. now rewrite R.
      * repeat split.
    + intros [= <- <-].
      cbn [memory trace is_running emit set_memory Memory.nodes Memory.next_id
           Memory.set_current_node].
      repeat split.
  - intros [= <- <-]. cbn [memory trace is_running emit]. split; [reflexivity|].
    now left.
Qed.

(** The whole [try] block. *)
Lemma try_block_spec msgs st e st' :
  try_block env output_recall msgs st = (e, st') ->
  memory st' = memory st /\ is_running st' = is_running st
  /\ exists new,
       trace st' = trace st ++ new
       /\ Forall turn_event new
       /\ turn_shape output_recall e new
       /\ result_of e = text_of (tokens new)
       /\ is_stop_of e = stop_after false new.
Proof.
  unfold try_block. destruct (llm_inference env (trace st) msgs) as [response|e0].
  - intros H. apply stream_spec in H. exact H.
  - intros [= <- <-]. repeat split. exists [].
    split; [now rewrite app_nil_r|]. split; [constructor|].
    split; [apply raised_shape with (last := []); [reflexivity|cbn; lia|now left]|].
    destruct (raised_result e0 "" false) as [-> ->]. now split.
Qed.



End TurnFacts.





(** *** The stop flag *)

Lemma state_ext st st' : same_run st st' -> stop_event st = stop_event st' -> st = st'.
Proof.
  destruct st, st'. unfold same_run. cbn. intros (-> & -> & ->) ->. reflexivity.
Qed.

Lemma same_run_refl st : same_run st st.
Proof. now repeat split. Qed.

(** The turn reads neither the flag nor the calls of [stop()]: two
    callbacks that raise alike give the same turn from two states that
    differ at most in the flag. *)
Section Insensitive.
Variable env : Env.
Variables output_recall output_recall' : callback.
Hypothesis same_raises :
  forall tr o, raises (output_recall tr o) = raises (output_recall' tr o).

Lemma await_recall_same o st st' :
  same_run st st' ->
  fst (await_recall output_recall o st) = fst (await_recall output_recall' o st')
  /\ same_run (snd (await_recall output_recall o st))
       (snd (await_recall output_recall' o st')).
Proof.
  intros (Hm & Ht & Hr). unfold await_recall, same_run.
  cbn [fst snd memory trace is_running stop emit]. rewrite Ht, Hm, Hr.
  now rewrite same_raises.
Qed.

Lemma emit_same ev st st' : same_run st st' -> same_run (emit ev st) (emit ev st').
Proof.
  intros (Hm & Ht & Hr). unfold same_run. cbn [memory trace is_running emit].
  now rewrite Ht, Hm, Hr.
Qed.

Lemma set_memory_same m st st' :
  same_run st st' -> same_run (set_memory m st) (set_memory m st').
Proof.
  intros (Hm & Ht & Hr). unfold same_run. cbn [memory trace is_running set_memory].
  now rewrite Ht, Hr.
Qed.

Lemma dispatch_same interps : forall i result st st',
  same_run st st' ->
  fst (dispatch interps i result st) = fst (dispatch interps i result st')
  /\ same_run (snd (dispatch interps i result st)) (snd (dispatch interps i result st')).
Proof.
  induction interps as [|x interps IH]; intros i result st st' H; [now split|].
  cbn [dispatch]. destruct (match_template x result); [|now apply IH].
  cbn [fst snd]. destruct H as (Hm & Ht & Hr). rewrite Ht. split; [reflexivity|].
  apply emit_same. now repeat split.
Qed.

Lemma end_of_turn_same result is_stop st st' :
  same_run st st' ->
  fst (end_of_turn output_recall result is_stop st)
  = fst (end_of_turn output_recall' result is_stop st')
  /\ same_run (snd (end_of_turn output_recall result is_stop st))
       (snd (end_of_turn output_recall' result is_stop st')).
Proof.
  intros H. unfold end_of_turn.
  destruct (await_recall_same None H) as [Hf Hs].
  destruct (await_recall output_recall None st) as [r s1],
           (await_recall output_recall' None st') as [r' s1'].
  cbn [fst snd] in Hf, Hs. subst r'. now destruct r.
Qed.

Lemma stream_same response : forall result st st',
  same_run st st' ->
  fst (stream env output_recall response result st)
  = fst (stream env output_recall' response result st')
  /\ same_run (snd (stream env output_recall response result st))
       (snd (stream env output_recall' response result st')).
Proof.
  induction response as [|[[token|]|e0] response IH]; intros result st st' H;
    cbn [stream].
  - now apply end_of_turn_same.
  - destruct (await_recall_same (Some token) (emit_same (EToken (Some token)) H))
      as [Hf Hs].
    destruct (await_recall output_recall (Some token) (emit (EToken (Some token)) st))
      as [r s1],
      (await_recall output_recall' (Some token) (emit (EToken (Some token)) st'))
      as [r' s1'].
    cbn [fst snd] in Hf, Hs. subst r'. destruct r as [e1|]; [now split|].
    destruct (dispatch_same (output_interpreters env) 0 (result +:+ token) Hs)
      as [Hdf Hds].
    destruct (dispatch (output_interpreters env) 0 (result +:+ token) s1) as [d s2],
      (dispatch (output_interpreters env) 0 (result +:+ token) s1') as [d' s2'].
    cbn [fst snd] in Hdf, Hds. subst d'.
    destruct d as [|output is_stop|e1]; [now apply IH| |now split].
    destruct (await_recall_same (Some (NL +:+ output +:+ NL)) Hds) as [Hf2 Hs2].
    destruct (await_recall output_recall (Some (NL +:+ output +:+ NL)) s2) as [r2 s3],
      (await_recall output_recall' (Some (NL +:+ output +:+ NL)) s2') as [r2' s3'].
    cbn [fst snd] in Hf2, Hs2. subst r2'.
    destruct r2 as [e2|]; [now split|now apply end_of_turn_same].
  - apply end_of_turn_same. now apply emit_same.
  - now split.
Qed.

Lemma try_block_same msgs st st' :
  same_run st st' ->
  fst (try_block env output_recall msgs st) = fst (try_block env output_recall' msgs st')
  /\ same_run (snd (try_block env output_recall msgs st))
       (snd (try_block env output_recall' msgs st')).
Proof.
  intros H. unfold try_block. destruct H as (Hm & Ht & Hr). rewrite Ht.
  destruct (llm_inference env (trace st') msgs) as [response|e0].
  - apply stream_same. now repeat split.
  - split; [reflexivity|now repeat split].
Qed.

Lemma prepare_same node st st' :
  same_run st st' ->
  fst (prepare env output_recall node st) = fst (prepare env output_recall' node st')
  /\ same_run (snd (prepare env output_recall node st))
       (snd (prepare env output_recall' node st')).
Proof.
  intros H. unfold prepare. pose proof (emit_same (EExecute (Memory.node_id node)) H) as H1.
  destruct H as (Hm & Ht & Hr). cbn [trace emit memory]. rewrite Ht, Hm.
  destruct (system_prompt env (trace st' ++ [EExecute (Memory.node_id node)]))
    as [prompt|]; [|now split].
  cbn [Memory.add_node_after].
  match goal with
  | |- context [set_memory ?m (emit ?ev st)] =>
      pose proof (set_memory_same m H1) as H2
  end.
  destruct (String.eqb (Memory.action node) "plan"); [|now split].
  match goal with
  | |- context [await_recall output_recall ?o ?s] =>
      destruct (await_recall_same o H2) as [Hf Hs];
      destruct (await_recall output_recall o s) as [r s1]
  end.
  match goal with
  | |- context [await_recall output_recall' ?o ?s] =>
      destruct (await_recall output_recall' o s) as [r' s1']
  end.
  cbn [fst snd] in Hf, Hs. subst r'. now destruct r.
Qed.

Lemma execute_node_same node st st' :
  same_run st st' ->
  fst (_execute_node env output_recall node st)
  = fst (_execute_node env output_recall' node st')
  /\ same_run (snd (_execute_node env output_recall node st))
       (snd (_execute_node env output_recall' node st')).
Proof.
  intros H. unfold _execute_node.
  destruct (prepare_same node H) as [Hf Hs].
  destruct (prepare env output_recall node st) as [r s1],
    (prepare env output_recall' node st') as [r' s1'].
  cbn [fst snd] in Hf, Hs. subst r'. destruct r as [[msgs answer]|]; [|now split].
  destruct (try_block_same msgs Hs) as [Hf2 Hs2].
  destruct (try_block env output_recall msgs s1) as [e s2],
    (try_block env output_recall' msgs s1') as [e' s2'].
  cbn [fst snd] in Hf2, Hs2. subst e'.
  destruct e as [result is_stop|result is_stop|result is_stop]; [| |now split].
  - unfold commit. cbn [fst snd]. split; [reflexivity|].
    destruct Hs2 as (Hm & Ht & Hr). rewrite Hm. apply set_memory_same.
    now repeat split.
  - unfold recover.
    destruct (await_recall_same (Some result) Hs2) as [Hf3 Hs3].
    destruct (await_recall output_recall (Some result) s2) as [r3 s3],
      (await_recall output_recall' (Some result) s2') as [r3' s3'].
    cbn [fst snd] in Hf3, Hs3. subst r3'. destruct r3 as [e3|]; [now split|].
    cbn [fst snd]. split; [reflexivity|].
    destruct Hs3 as (Hm & Ht & Hr). rewrite Hm. apply set_memory_same.
    now repeat split.
Qed.

End Insensitive.

Section FlagFacts.
Variable env : Env.
Variable output_recall : callback.

Lemma tracks_refl st : tracks output_recall st st.
Proof. exists []. now rewrite app_nil_r, orb_false_r. Qed.

Lemma tracks_trans a b c :
  tracks output_recall a b -> tracks output_recall b c -> tracks output_recall a c.
Proof.
  intros (n1 & Ht1 & Hs1) (n2 & Ht2 & Hs2). exists (n1 ++ n2).
  split; [now rewrite Ht2, Ht1, app_assoc|].
  now rewrite Hs2, Hs1, Ht1, stop_requested_app, orb_assoc.
Qed.

Lemma tracks_emit ev st :
  (forall o, ev <> ERecall o) -> tracks output_recall st (emit ev st).
Proof.
  intros Hev. exists [ev]. split; [reflexivity|].
  cbn [emit stop_event stop_requested].
  destruct ev; try (now rewrite !orb_false_r). now destruct (Hev output).
Qed.

Lemma tracks_await o st :
  tracks output_recall st (snd (await_recall output_recall o st)).
Proof.
  exists [ERecall o]. split; [reflexivity|].
  cbn [snd await_recall stop emit stop_event stop_requested]. now rewrite orb_false_r.
Qed.

Lemma tracks_set_memory m st st' :
  tracks output_recall st st' -> tracks output_recall st (set_memory m st').
Proof. intros (new & Ht & Hs). now exists new. Qed.

Lemma dispatch_tracks interps : forall i result st,
  tracks output_recall st (snd (dispatch interps i result st)).
Proof.
  induction interps as [|x interps IH]; intros i result st; [apply tracks_refl|].
  cbn [dispatch]. destruct (match_template x result); [|apply IH].
  cbn [snd]. apply tracks_emit. discriminate.
Qed.

Lemma end_of_turn_tracks result is_stop st :
  tracks output_recall st (snd (end_of_turn output_recall result is_stop st)).
Proof. rewrite end_of_turn_cases. cbn [snd]. apply tracks_await. Qed.

Lemma stream_tracks response : forall result st,
  tracks output_recall st (snd (stream env output_recall response result st)).
Proof.
  induction response as [|[[token|]|e0] response IH]; intros result st; cbn [stream].
  - apply end_of_turn_tracks.
  - eapply tracks_trans;
      [apply tracks_emit with (ev := EToken (Some token)); discriminate|].
    pose proof (tracks_await (Some token) (emit (EToken (Some token)) st)) as H1.
    destruct (await_recall output_recall (Some token) (emit (EToken (Some token)) st))
      as [[e1|] s1]; cbn [snd] in H1; [exact H1|].
    eapply tracks_trans; [exact H1|].
    pose proof (dispatch_tracks (output_interpreters env) 0 (result +:+ token) s1) as H2.
    destruct (dispatch (output_interpreters env) 0 (result +:+ token) s1)
      as [[|output is_stop|e1] s2]; cbn [snd] in H2.
    + eapply tracks_trans; [exact H2|apply IH].
    + eapply tracks_trans; [exact H2|].
      pose proof (tracks_await (Some (NL +:+ output +:+ NL)) s2) as H3.
      destruct (await_recall output_recall (Some (NL +:+ output +:+ NL)) s2)
        as [[e2|] s3]; cbn [snd] in H3; [exact H3|].
      eapply tracks_trans; [exact H3|apply end_of_turn_tracks].
    + exact H2.
  - eapply tracks_trans; [apply tracks_emit with (ev := EToken None); discriminate|].
    apply end_of_turn_tracks.
  - apply tracks_refl.
Qed.

Lemma try_block_tracks msgs st :
  tracks output_recall st (snd (try_block env output_recall msgs st)).
Proof.
  unfold try_block.
  destruct (llm_inference env (trace st) msgs); [apply stream_tracks|apply tracks_refl].
Qed.

Lemma prepare_tracks node st :
  tracks output_recall st (snd (prepare env output_recall node st)).
Proof.
  unfold prepare.
  eapply tracks_trans;
    [apply tracks_emit with (ev := EExecute (Memory.node_id node)); discriminate|].
  destruct (system_prompt env (trace (emit (EExecute (Memory.node_id node)) st)));
    [|apply tracks_refl].
  cbn [Memory.add_node_after].
  destruct (String.eqb (Memory.action node) "plan");
    [|apply tracks_set_memory, tracks_refl].
  match goal with
  | |- context [await_recall output_recall ?o (set_memory ?m ?s)] =>
      pose proof (tracks_await o (set_memory m s)) as H;
      destruct (await_recall output_recall o (set_memory m s)) as [[e|] s1]
  end; cbn [snd] in *;
    (eapply tracks_trans; [apply tracks_set_memory, tracks_refl|exact H]).
Qed.

Lemma execute_node_tracks node st :
  tracks output_recall st (snd (_execute_node env output_recall node st)).
Proof.
  unfold _execute_node.
  pose proof (prepare_tracks node st) as H1.
  destruct (prepare env output_recall node st) as [[[msgs answer]|] s1];
    cbn [snd] in H1; [|exact H1].
  eapply tracks_trans; [exact H1|].
  pose proof (try_block_tracks msgs s1) as H2.
  destruct (try_block env output_recall msgs s1)
    as [[result is_stop|result is_stop|result is_stop] s2]; cbn [snd] in H2.
  - unfold commit. cbn [snd]. now apply tracks_set_memory.
  - eapply tracks_trans; [exact H2|]. unfold recover.
    pose proof (tracks_await (Some result) s2) as H3.
    destruct (await_recall output_recall (Some result) s2) as [[e|] s3];
      cbn [snd] in *; [exact H3|].
    now apply tracks_set_memory.
  - exact H2.
Qed.

End FlagFacts.

Section PollFacts.
Variable env : Env.
Variable output_recall : callback.

Lemma stop_requested_without_stop new : forall tr,
  stop_requested (without_stop output_recall) tr new = false.
Proof.
  induction new as [|ev new IH]; intros tr; [reflexivity|].
  cbn [stop_requested]. rewrite IH. now destruct ev.
Qed.

(** A turn does the same from a state where the flag has been set, and
    leaves the flag set. *)
Lemma execute_node_stop b node st :
  _execute_node env output_recall node (stop b st) =
  (fst (_execute_node env output_recall node st),
   stop b (snd (_execute_node env output_recall node st))).
Proof.
  assert (Hsame : same_run st (stop b st)) by now repeat split.
  destruct (@execute_node_same env output_recall output_recall
              (fun _ _ => eq_refl) node st (stop b st) Hsame) as [Hf Hs].
  destruct (execute_node_tracks env output_recall node st) as (n1 & Ht1 & Hs1).
  destruct (execute_node_tracks env output_recall node (stop b st)) as (n2 & Ht2 & Hs2).
  destruct (_execute_node env output_recall node st) as [r s1],
    (_execute_node env output_recall node (stop b st)) as [r' s1'].
  cbn [fst snd] in *. subst r'. f_equal. symmetry. apply state_ext.
  - destruct Hs as (Hm & Ht & Hr). now repeat split.
  - cbn [stop stop_event trace] in *. rewrite Hs1, Hs2.
    destruct Hs as (_ & Ht & _). rewrite Ht1, Ht2 in Ht. apply app_inv_head in Ht.
    subst n2. now rewrite <- !orb_assoc, (orb_comm b).
Qed.

(** A turn does the same, event for event, whether [stop()] is called
    during it or not. *)
Lemma execute_node_without_stop node st :
  _execute_node env (without_stop output_recall) node st =
  (fst (_execute_node env output_recall node st),
   with_flag (stop_event st) (snd (_execute_node env output_recall node st))).
Proof.
  destruct (@execute_node_same env output_recall (without_stop output_recall)
              (fun _ _ => eq_refl) node st st (same_run_refl st)) as [Hf Hs].
  destruct (execute_node_tracks env (without_stop output_recall) node st)
    as (n2 & Ht2 & Hs2).
  rewrite stop_requested_without_stop, orb_false_r in Hs2.
  destruct (_execute_node env output_recall node st) as [r s1],
    (_execute_node env (without_stop output_recall) node st) as [r' s1'].
  cbn [fst snd] in *. subst r'. f_equal. symmetry. apply state_ext.
  - destruct Hs as (Hm & Ht & Hr). now repeat split.
  - cbn [with_flag stop_event]. now symmetry.
Qed.

Lemma banner_counts node :
  count_polls (banner node) = 0 /\ count_executes (banner node) = 1
  /\ tokens (banner node) = [] /\ outputs (banner node) = [].
Proof. unfold banner. now destruct (String.eqb (Memory.action node) "plan"). Qed.

Lemma turn_events_no_poll new : Forall turn_event new -> count_polls new = 0.
Proof.
  induction 1 as [|ev new Hev _ IH]; [reflexivity|].
  destruct ev; cbn [count_polls]; try assumption; destruct Hev.
Qed.

Lemma execute_node_trace node st r st1 :
  _execute_node env output_recall node st = (r, st1) ->
  exists turn, trace st1 = trace st ++ turn /\ count_polls turn = 0.
Proof.
  unfold _execute_node.
  destruct (prepare env output_recall node st) as [p st0] eqn:Hprep.
  destruct (prepare_spec _ _ _ _ Hprep) as (_ & Hp).
  destruct (banner_counts node) as (Hbanner & _).
  destruct p as [[msgs answer]|].
  - destruct Hp as (_ & _ & _ & Ht0).
    destruct (try_block env output_recall msgs st0) as [e st2] eqn:Htry.
    destruct (try_block_spec _ _ _ _ Htry) as (_ & _ & new & Htr & Hev & _).
    apply turn_events_no_poll in Hev.
    destruct e as [result is_stop|result is_stop|result is_stop].
    + intros [= <- <-]. cbn [trace set_memory]. eexists. rewrite Htr, Ht0, <- app_assoc.
      split; [reflexivity|]. now rewrite count_polls_app, Hbanner, Hev.
    + unfold recover. rewrite await_recall_eq.
      destruct (raises _); intros [= <- <-]; cbn [trace set_memory];
        (eexists; rewrite Htr, Ht0, <- !app_assoc; split; [reflexivity|]);
        now rewrite !count_polls_app, Hbanner, Hev.
    + intros [= <- <-]. eexists. rewrite Htr, Ht0, <- app_assoc.
      split; [reflexivity|]. now rewrite count_polls_app, Hbanner, Hev.
  - intros [= <- <-]. destruct Hp as [[Ht0 _]|[Ht0 _]]; eexists; (split; [exact Ht0|]);
      [reflexivity|exact Hbanner].
Qed.


End PollFacts.



(** *** What [run] returns *)

Lemma stop_after_last new : forall x,
  stop_after false new = true -> stop_after x new = true.
Proof.
  unfold stop_after. induction new as [|ev new IH]; intros x; cbn [fold_left].
  - discriminate.
  - destruct ev as [| | |i c [[o s]|e]| |]; try apply IH.
    trivial.
Qed.

Section ReturnFacts.
Variable env : Env.
Variable output_recall : callback.
Hypothesis callback_returns : forall tr o, returns (output_recall tr o) = true.
Hypothesis prompt_renders : forall tr, system_prompt env tr <> None.
Hypothesis no_interrupt : exceptions_only env.

Lemma callback_raises_nothing tr o : raises (output_recall tr o) = None.
Proof. apply returns_raises, callback_returns. Qed.

(** What is raised inside the try block is an Exception, and it is
    raised before any interpreter has returned. *)
Lemma stream_absorbed response : forall result st e st',
  ~ In (Fault BaseException) response ->
  stream env output_recall response result st = (e, st') ->
  match e with
  | Completed _ _ => True
  | Excepted _ s => s = false
  | Aborted _ _ => False
  end.
Proof.
  destruct no_interrupt as (_ & _ & Hparse).
  induction response as [|[[token|]|e0] response IH]; intros result st e st' Hno H;
    cbn [stream] in H.
  - rewrite end_of_turn_cases, callback_raises_nothing in H. now injection H as <- _.
  - rewrite await_recall_eq, callback_raises_nothing in H.
    match type of H with
    | context [dispatch ?l ?i ?c ?x] =>
        destruct (dispatch_cases l i c x) as [D|(j & I & HI & D)]; rewrite D in H
    end.
    + apply IH in H; [assumption|]. intros Hin. apply Hno. now right.
    + match type of H with
      | context [parse I ?tr ?c] =>
          pose proof (Hparse I tr c HI) as Hp;
          destruct (parse I tr c) as [[output is_stop]|[|]]
      end.
      * rewrite await_recall_eq, callback_raises_nothing in H.
        rewrite end_of_turn_cases, callback_raises_nothing in H. now injection H as <- _.
      * now injection H as <- _.
      * now destruct Hp.
  - rewrite end_of_turn_cases, callback_raises_nothing in H. now injection H as <- _.
  - destruct e0.
    + now injection H as <- _.
    + destruct Hno. now left.
Qed.

Lemma try_block_absorbed msgs st e st' :
  try_block env output_recall msgs st = (e, st') ->
  match e with
  | Completed _ _ => True
  | Excepted _ s => s = false
  | Aborted _ _ => False
  end.
Proof.
  destruct no_interrupt as (Hcall & Hstream & _).
  unfold try_block.
  pose proof (Hcall (trace st) msgs) as H1. pose proof (Hstream (trace st) msgs) as H2.
  destruct (llm_inference env (trace st) msgs) as [response|[|]].
  - apply stream_absorbed. now apply H2.
  - now intros [= <- _].
  - now destruct H1.
Qed.

(** With a callback that returns, a system prompt that renders and no
    interruption, a turn returns; it keeps the ids of the tree in order;
    and when it asks to stop, what it returns is the answer node. *)
Lemma execute_node_returns node st r st1 :
  Memory.wf (memory st) = true ->
  _execute_node env output_recall node st = (r, st1) ->
  Memory.wf (memory st1) = true
  /\ exists id is_stop, r = Ok (id, is_stop) /\ (is_stop = true -> stopped_on st1 id).
Proof.
  intros Hwf. unfold _execute_node.
  destruct (prepare env output_recall node st) as [p st0] eqn:Hprep.
  destruct (prepare_spec _ _ _ _ Hprep) as (_ & Hp).
  destruct p as [[msgs answer]|].
  2:{ destruct Hp as [[Ht Hm]|[_ (tr & o & Hno)]];
        [|now rewrite callback_returns in Hno].
      exfalso. revert Hprep. unfold prepare. cbn [trace emit].
      pose proof (prompt_renders (trace st ++ [EExecute (Memory.node_id node)])) as Hr.
      destruct (system_prompt env (trace st ++ [EExecute (Memory.node_id node)]));
        [|now destruct Hr].
      cbn [Memory.add_node_after].
      destruct (String.eqb (Memory.action node) "plan"); [|discriminate].
      rewrite await_recall_eq, callback_raises_nothing. discriminate. }
  destruct Hp as (Hans & Hnodes & Hnext & _).
  assert (Hwf0 : Memory.wf (memory st0) = true).
  { apply MemoryFacts.wf_Forall. rewrite Hnodes, Hnext. apply Forall_forall.
    intros n Hn. apply MemoryFacts.In_insert_after in Hn as [->|Hn].
    - rewrite Hans. cbn. lia.
    - apply (MemoryFacts.wf_ids _ _ Hwf) in Hn. lia. }
  assert (Hfind : Memory.get_node (memory st0) (Memory.node_id answer) = Some answer).
  { unfold Memory.get_node. rewrite Hnodes. apply MemoryFacts.find_inserted.
    rewrite Hans. exact Hwf. }
  destruct (try_block env output_recall msgs st0)
    as [[result is_stop|result is_stop|result is_stop] st2] eqn:Htry;
    pose proof (try_block_absorbed _ _ Htry) as Habs; cbn beta iota in Habs;
    destruct (try_block_spec _ _ _ _ Htry) as (Hmem & _ & new & Htr & _ & _ & _ & Hstop).
  - intros [= <- <-]. cbn [memory set_memory trace]. rewrite Hmem. split.
    + now apply MemoryFacts.wf_success_node, MemoryFacts.wf_success_node,
        MemoryFacts.wf_set_content.
    + eexists _, _. split; [reflexivity|]. intros ->.
      unfold stopped_on. cbn [memory trace set_memory].
      unfold Memory.success_node, Memory.set_content.
      rewrite !MemoryFacts.get_node_update, Hfind by reflexivity.
      cbn [option_map]. eexists. split; [reflexivity|].
      assert (Hid : Memory.has_id (Memory.node_id answer) answer = true)
        by (unfold Memory.has_id; apply Nat.eqb_refl).
      rewrite Hid.
      repeat split.
      * destruct (Memory.has_id (Memory.node_id node) _);
          match goal with
          | |- context [if ?b then _ else _] => destruct b
          end; rewrite Hans; reflexivity.
      * destruct (Memory.has_id (Memory.node_id node) _) eqn:E1.
        -- match goal with
           | |- context [if ?b then _ else _] => destruct b
           end; reflexivity.
        -- change (Memory.has_id (Memory.node_id answer)
                     (Memory.with_content result answer))
             with (Memory.has_id (Memory.node_id answer) answer).
           now rewrite Hid.
      * rewrite Htr, stop_after_app. apply stop_after_last.
        cbn [is_stop_of] in Hstop. now symmetry.
  - subst is_stop.
    unfold recover. rewrite await_recall_eq, callback_raises_nothing.
    intros [= <- <-]. cbn [memory set_memory]. rewrite Hmem. split.
    + now apply MemoryFacts.wf_delete_node.
    + eexists _, _. split; [reflexivity|]. discriminate.
  - destruct Habs.
Qed.

Lemma loop_body_returns node st e st' :
  Memory.wf (memory st) = true ->
  loop_body env output_recall node st = (e, st') ->
  Memory.wf (memory st') = true
  /\ match e with
     | Return (Some id) => stopped_on st' id
     | Return None => is_running st' = false /\ stop_event st' = true
     | Continue todo_node => todo_node = Memory.get_todo_node (memory st')
     | Escaped => False
     end.
Proof.
  intros Hwf. unfold loop_body.
  destruct (_execute_node env output_recall node st) as [r st1] eqn:Hexec.
  destruct (execute_node_returns _ _ Hwf Hexec) as (Hwf1 & id & is_stop & -> & Hstop).
  destruct is_stop.
  - intros [= <- <-]. auto.
  - cbn [emit stop stop_event]. destruct (stop_event st1 || _) eqn:F.
    + intros [= <- <-]. cbn [memory is_running stop_event set_running]. auto.
    + intros [= <- <-]. cbn [memory]. auto.
Qed.

Lemma run_loop_returns fuel : forall todo_node st r st',
  Memory.wf (memory st) = true ->
  (todo_node = None -> Memory.get_todo_node (memory st) = None) ->
  run_loop env output_recall fuel todo_node st = (r, st') ->
  r <> Exc
  /\ (forall id, r = Ok (Some id) -> stopped_on st' id)
  /\ (r = Ok None ->
      is_running st' = false
      /\ (stop_event st' = true \/ Memory.get_todo_node (memory st') = None)).
Proof.
  induction fuel as [|fuel IH]; intros todo_node st r st' Hwf Htodo;
    destruct todo_node as [node|]; cbn [run_loop].
  - intros [= <- <-]. repeat split; discriminate.
  - intros [= <- <-]. cbn [memory is_running set_running].
    repeat split; try discriminate. right. now apply Htodo.
  - destruct (loop_body env output_recall node st) as [e st1] eqn:Hbody.
    destruct (loop_body_returns _ _ Hwf Hbody) as (Hwf1 & He).
    destruct e as [[id|]|todo'|]; [| | |destruct He].
    + intros [= <- <-]. repeat split; try discriminate. now intros ? [= <-].
    + intros [= <- <-]. repeat split; try discriminate; [apply He|left; apply He].
    + apply IH; [assumption|]. intros ->. now symmetry.
  - intros [= <- <-]. cbn [memory is_running set_running].
    repeat split; try discriminate. right. now apply Htodo.
Qed.


End ReturnFacts.



(** *** The input node *)

Lemma find_split (A : Type) (p : A -> bool) (l : list A) x :
  find p l = Some x ->
  exists l1 l2, l = l1 ++ x :: l2 /\ p x = true /\ Forall (fun y => p y = false) l1.
Proof.
  induction l as [|y l IH]; cbn [find]; [discriminate|].
  destruct (p y) eqn:E.
  - intros [= ->]. exists [], l. repeat split; [assumption|constructor].
  - intros H. destruct (IH H) as (l1 & l2 & -> & Hx & Hl1).
    exists (y :: l1), l2. repeat split; [assumption|now constructor].
Qed.

Lemma find_app_left (A : Type) (p : A -> bool) (l l' : list A) x :
  find p l = Some x -> find p (l ++ l') = Some x.
Proof.
  induction l as [|y l IH]; cbn [find app]; [discriminate|].
  destruct (p y); auto.
Qed.

Lemma insert_after_split ref n (l1 l2 : list Memory.MemoryNode) x :
  Forall (fun y => Memory.has_id ref y = false) l1 ->
  Memory.has_id ref x = true ->
  Memory.insert_after ref n (l1 ++ x :: l2) = l1 ++ x :: n :: l2.
Proof.
  intros Hl1 Hx. induction Hl1 as [|y l1 Hy _ IH]; cbn [app Memory.insert_after].
  - now rewrite Hx.
  - now rewrite Hy, IH.
Qed.

Lemma map_untouched (l : list Memory.MemoryNode) id f :
  Forall (fun y => Memory.has_id id y = false) l ->
  map (fun n => if Memory.has_id id n then f n else n) l = l.
Proof.
  intros H. induction H as [|y l Hy _ IH]; cbn [map]; [reflexivity|].
  now rewrite Hy, IH.
Qed.

Section InsertFacts.
Variable env : Env.
Variable output_recall : callback.

(** C10: with an input and a for_node_id that names a node, run puts the
    new input node, pending, right after that node, and that node has
    the status success and is otherwise as it was; only then run goes on
    to the input interpreters and the to-do loop, no turn having been
    started; without a for_node_id the input node is added at the end
    as a pending node and every node that was in the tree is found as it
    was. *)
Theorem insert_node_placement text st fuel :
  Memory.wf (memory st) = true ->
  NoDup (map Memory.node_id (Memory.nodes (memory st))) ->
  (forall id for_node,
     Memory.get_node (memory st) id = Some for_node ->
     exists st1 l1 l2,
       let new := Memory.fresh (memory st) "user" "input" text (Some id) in
       let marked :=
         {| Memory.node_id := Memory.node_id for_node;
            Memory.role := Memory.role for_node;
            Memory.action := Memory.action for_node;
            Memory.content := Memory.content for_node;
            Memory.status := Memory.success;
            Memory.parent := Memory.parent for_node |} in
       _insert_node text (Some id) (set_running true st) = (Ok new, st1)
       /\ Memory.nodes (memory st) = l1 ++ for_node :: l2
       /\ Memory.nodes (memory st1) = l1 ++ marked :: new :: l2
       /\ Memory.status new = Memory.pending
       /\ trace st1 = trace st
       /\ run env output_recall fuel (Some text) (Some id) st =
          run_from env output_recall fuel (Some new) st1)
  /\ (exists st1,
        let new := Memory.fresh (memory st) "user" "input" text None in
        _insert_node text None (set_running true st) = (Ok new, st1)
        /\ Memory.nodes (memory st1) = Memory.nodes (memory st) ++ [new]
        /\ Memory.status new = Memory.pending
        /\ (forall j n, Memory.get_node (memory st) j = Some n ->
                        Memory.get_node (memory st1) j = Some n)
        /\ trace st1 = trace st
        /\ run env output_recall fuel (Some text) None st =
           run_from env output_recall fuel (Some new) st1).
Proof.
  intros Hwf Hnd. split.
  - intros id for_node Hget.
    destruct (find_split _ _ Hget) as (l1 & l2 & Hl & Hid & Hl1).
    assert (Hfor : Memory.node_id for_node = id)
      by (now apply Nat.eqb_eq in Hid).
    assert (Hl2 : Forall (fun y => Memory.has_id id y = false) l2).
    { rewrite Hl, map_app in Hnd. apply NoDup_remove_2 in Hnd.
      apply Forall_forall. intros y Hy. unfold Memory.has_id.
      apply Nat.eqb_neq. intros Heq. apply Hnd. rewrite in_app_iff. right.
      cbn [map]. rewrite Hfor, <- Heq. now apply in_map. }
    assert (Hnew : Memory.has_id id (Memory.fresh (memory st) "user" "input" text (Some id))
                   = false).
    { unfold Memory.has_id. cbn [Memory.fresh Memory.node_id]. apply Nat.eqb_neq.
      assert (In for_node (Memory.nodes (memory st)))
        by (rewrite Hl; apply in_elt).
      pose proof (MemoryFacts.wf_ids _ _ Hwf H). lia. }
    eexists _, l1, l2. cbn zeta.
    assert (Hins : _insert_node text (Some id) (set_running true st) =
      (Ok (Memory.fresh (memory st) "user" "input" text (Some id)),
       set_memory
         (Memory.success_node
            (snd (Memory.add_node_after (memory st) id "user" "input" text)) id)
         (set_running true st))).
    { unfold _insert_node. cbn [memory set_running]. rewrite Hget, Hfor. reflexivity. }
    split; [exact Hins|]. split; [exact Hl|].
    split; [|split; [reflexivity|split; [reflexivity|]]].
    + cbn [memory set_memory Memory.success_node Memory.update Memory.nodes
           Memory.add_node_after snd].
      rewrite Hl, insert_after_split by assumption.
      rewrite map_app. cbn [map]. rewrite Hid, Hnew.
      now rewrite !map_untouched by assumption.
    + unfold run. now rewrite Hins.
  - eexists. cbn zeta.
    assert (Hins : _insert_node text None (set_running true st) =
      (Ok (Memory.fresh (memory st) "user" "input" text None),
       set_memory (snd (Memory.add_node (memory st) "user" "input" text))
         (set_running true st))) by reflexivity.
    split; [exact Hins|]. split; [reflexivity|]. split; [reflexivity|].
    split; [|split; [reflexivity|]].
    + intros j n Hj. cbn [memory set_memory Memory.add_node snd].
      unfold Memory.get_node in *. cbn [Memory.nodes]. now apply find_app_left.
    + unfold run. now rewrite Hins.
Qed.

End InsertFacts.

Lemma insert_node_placement_witness :
  exists st1,
    _insert_node "more" (Some 0) (set_running true Samples.st_two_questions)
    = (Ok (Memory.fresh (memory Samples.st_two_questions) "user" "input" "more" (Some 0)),
       st1)
    /\ Memory.nodes (memory st1)
       = [{| Memory.node_id := 0; Memory.role := "user"; Memory.action := "input";
             Memory.content := "q"; Memory.status := Memory.success;
             Memory.parent := None |};
          Memory.fresh (memory Samples.st_two_questions) "user" "input" "more" (Some 0);
          Samples.second_question].
Proof.
  destruct (@insert_node_placement
              (Samples.env_of Samples.llm_words Samples.never Samples.never)
              Samples.quiet "more" Samples.st_two_questions 1 eq_refl) as [Hafter _].
  - repeat constructor; simpl; intuition discriminate.
  - destruct (Hafter 0 Samples.question eq_refl)
      as (st1 & l1 & l2 & Hins & Hold & Hnodes & _).
    exists st1. split; [exact Hins|].
    destruct l1 as [|x l1].
    + injection Hold as <-. exact Hnodes.
    + exfalso. injection Hold as Hx Hold.
      destruct l1 as [|y l1]; [discriminate|].
      injection Hold as Hy Hold. now destruct l1.
Defined.

End AgentFacts.

(** * The plan of the test *)

Module PlanFacts.
Import PyStr Plan.

(** C9: the text of the claim gives two top-level items, 1.xxx and 2.xxx
    in that order, the first with the one child 1.1 xxx and the second
    with none. *)
Theorem structure_plan_sample :
  structure_plan ("1.xxx" +:+ NL +:+ "    1.1 xxx" +:+ NL +:+ NL +:+ "2.xxx" +:+ NL +:+ NL) =
  [Item "1.xxx" [Item "1.1 xxx" []]; Item "2.xxx" []].
Proof. reflexivity. Qed.

(** The text of [test_structure_plan] gives the same plan. *)
Example structure_plan_test :
  structure_plan Samples.test_plan_text = structure_plan Samples.plan_text.
Proof. reflexivity. Qed.

End PlanFacts.

(** * More on the summary memory *)

Module SummaryMemoryMore.
Import PyStr PyStrFacts Directive SummaryMemory Blocks Streams SummaryMemoryFacts.


(** *** The table and the order of the keys *)


(** X1: the table follows the store through add_content: from a store
    whose table mirrors it, a call that returns leaves a store whose
    table mirrors it again, so that initialization on that table gives
    the very same store back. *)
Theorem add_content_persists prompt llm_inference output_recall fuel input role
    sm text sm' :
  store_ok sm ->
  add_content prompt llm_inference output_recall fuel input role sm = Ok (text, sm') ->
  store_ok sm' /\ init (db sm') = sm'.
Proof.
  intros Hok H.
  assert (Hok' : store_ok sm').
  { refine (@add_content_related (fun a b => store_ok a -> store_ok b)
              _ _ _ _ _ _ _ _ _ _ _ _ _ _ H Hok); auto.
    - intros a k. apply hide_key_ok.
    - intros a k. apply show_key_ok.
    - intros a kv. apply upsert_block_ok. }
  split; [assumption|]. apply init_reload; [assumption|].
  exact (add_content_leaves_root _ _ _ _ _ _ _ H).
Qed.

Lemma add_content_persists_witness :
  exists text sm',
    add_content Samples.plain_prompt MoreSamples.llm_block None 1 "hi" "user"
      Samples.fresh_store
    = Ok (text, sm')
    /\ keys_of sm' = ["ROOT"; "t"]
    /\ init (db sm') = sm'.
Proof.
  eexists _, _. split; [reflexivity|]. split; [reflexivity|].
  refine (proj2 (@add_content_persists Samples.plain_prompt MoreSamples.llm_block None 1
                   "hi" "user" Samples.fresh_store _ _ _ eq_refl)).
  repeat split; cbn; repeat constructor. simpl. tauto.
Defined.

Lemma dict_set_keys_grow (V : Type) (d : list (string * V)) k v :
  exists more, map fst (dict_set d k v) = map fst d ++ more.
Proof.
  destruct (dict_get d k) as [v0|] eqn:E.
  - exists []. now rewrite app_nil_r, (dict_set_keys d k v E).
  - exists [k]. now rewrite dict_set_absent, map_app.
Qed.

Lemma keys_grow_refl sm : keys_grow sm sm.
Proof. exists []. now rewrite app_nil_r. Qed.

Lemma keys_grow_trans a b c : keys_grow a b -> keys_grow b c -> keys_grow a c.
Proof.
  intros [m1 H1] [m2 H2]. exists (m1 ++ m2). now rewrite H2, H1, app_assoc.
Qed.

(** X2: add_content deletes no concept and moves none: the keys of the
    store after a call that returns are the keys from before, in the same
    order, followed by the new ones. *)
Theorem add_content_keeps_order prompt llm_inference output_recall fuel input role
    sm text sm' :
  add_content prompt llm_inference output_recall fuel input role sm = Ok (text, sm') ->
  exists more, keys_of sm' = keys_of sm ++ more.
Proof.
  intros H.
  refine (@add_content_related keys_grow _ _ _ _ _ _ _ _ _ _ _ _ _ _ H).
  - apply keys_grow_refl.
  - apply keys_grow_trans.
  - intros a k. unfold keys_grow, keys_of, hide_key.
    destruct (dict_get (concepts a) k); cbn [concepts]; apply dict_set_keys_grow.
  - intros a k. unfold keys_grow, keys_of, show_key.
    destruct (dict_get (concepts a) k); cbn [concepts];
      [apply dict_set_keys_grow|apply keys_grow_refl].
  - intros a [k v]. unfold keys_grow, keys_of, upsert_block. cbn [concepts].
    apply dict_set_keys_grow.
Qed.

Lemma add_content_keeps_order_witness :
  exists text sm' more,
    add_content Samples.plain_prompt MoreSamples.llm_block None 1 "hi" "user"
      MoreSamples.store_A
    = Ok (text, sm')
    /\ keys_of sm' = keys_of MoreSamples.store_A ++ more.
Proof.
  destruct (@add_content_keeps_order Samples.plain_prompt MoreSamples.llm_block None 1
              "hi" "user" MoreSamples.store_A _ _ eq_refl) as [more Hmore].
  eexists _, _, more. split; [reflexivity|exact Hmore].
Defined.

(** *** Directives only flip flags *)

(** X3: a hide pass and a show pass change nothing of an existing concept
    but its show flag: the concept of a key comes out with show=false
    (hide) or show=true (show) when the key is among those the pass takes
    from the text (those of every hide directive, those of the first
    show directive), and untouched otherwise; its content, children and
    parents are never altered, and the show pass always returns. *)
Theorem directives_flip_flags content sm k n :
  dict_get (concepts sm) k = Some n ->
  dict_get (concepts (snd (_parse_hide content sm))) k =
    Some (if listed k (fst (get_hide_keys content)) then set_show false n else n)
  /\ exists parsed text sm',
       _parse_show content sm = Ok (parsed, text, sm')
       /\ dict_get (concepts sm') k =
          Some (if listed k (fst (get_show_keys content)) then set_show true n else n).
Proof.
  intros Hn. split.
  - now apply parse_hide_lookup.
  - now apply parse_show_lookup.
Qed.

Lemma directives_flip_flags_witness :
  dict_get (concepts (snd (_parse_hide MoreSamples.hide_A MoreSamples.store_A))) "A"
  = Some (new_node "A" "alpha" false)
  /\ dict_get (concepts (snd (_parse_hide MoreSamples.hide_A MoreSamples.store_A))) "ROOT"
     = Some (new_node "ROOT" "" false).
Proof.
  split.
  - exact (proj1 (@directives_flip_flags MoreSamples.hide_A MoreSamples.store_A "A"
                    (new_node "A" "alpha" true) eq_refl)).
  - exact (proj1 (@directives_flip_flags MoreSamples.hide_A MoreSamples.store_A "ROOT"
                    (new_node "ROOT" "" false) eq_refl)).
Defined.

Lemma set_show_same n : set_show (show n) n = n.
Proof. now destruct n. Qed.

(** X4: hiding a shown concept and showing it again gives the concept
    back as it was: after the hide pass it is no longer visible, and
    after a show pass that lists its key the store holds the original
    concept, content included. *)
Theorem hide_then_show hidden shown sm k n :
  dict_get (concepts sm) k = Some n ->
  show n = true ->
  listed k (fst (get_hide_keys hidden)) = true ->
  listed k (fst (get_show_keys shown)) = true ->
  (exists n1, dict_get (concepts (snd (_parse_hide hidden sm))) k = Some n1
              /\ visible n1 = false /\ content n1 = content n)
  /\ exists text sm2,
       _parse_show shown (snd (_parse_hide hidden sm)) = Ok (true, text, sm2)
       /\ dict_get (concepts sm2) k = Some n.
Proof.
  intros Hn Hshow Hh Hs.
  pose proof (parse_hide_lookup hidden sm k Hn) as Hhide.
  rewrite Hh in Hhide. split.
  - eexists. split; [exact Hhide|]. now split.
  - destruct (parse_show_lookup shown (snd (_parse_hide hidden sm)) k Hhide)
      as (parsed & text & sm2 & Hp & Hk).
    rewrite Hs in Hk.
    assert (parsed = true).
    { unfold _parse_show in Hp.
      destruct (fst (get_show_keys shown)) as [|k0 keys]; [discriminate Hs|].
      cbn [length Nat.eqb] in Hp.
      destruct (search "show" shown); [|discriminate]. now injection Hp as <- _ _. }
    subst parsed. exists text, sm2. split; [assumption|]. rewrite Hk. f_equal.
    rewrite <- Hshow. cbn. rewrite <- (set_show_same n) at 2.
    now destruct n.
Qed.

Lemma hide_then_show_witness :
  exists text sm2,
    _parse_show MoreSamples.show_A (snd (_parse_hide MoreSamples.hide_A MoreSamples.store_A))
    = Ok (true, text, sm2)
    /\ dict_get (concepts sm2) "A" = Some (new_node "A" "alpha" true).
Proof.
  exact (proj2 (@hide_then_show MoreSamples.hide_A MoreSamples.show_A MoreSamples.store_A
                  "A" (new_node "A" "alpha" true) eq_refl eq_refl eq_refl eq_refl)).
Defined.

(** *** More on the blocks *)

(** X5: a text none of whose lines is a title gives no block at all: the
    block pass leaves the store and the table exactly as they are, and
    the text is kept by no concept (the empty text and a text of blank
    lines included). *)
Theorem untitled_text_is_dropped content sm :
  Forall no_title (split nl (strip content)) ->
  get_nodes content = [] /\ _parse_block content sm = (true, content, sm).
Proof.
  intros Hlines.
  assert (Hnodes : get_nodes content = []).
  { unfold get_nodes. rewrite <- (app_nil_r (split nl (strip content))).
    now rewrite loop_over_body. }
  split; [assumption|]. unfold _parse_block. now rewrite Hnodes.
Qed.

Lemma untitled_text_is_dropped_witness :
  _parse_block "left over" Samples.fresh_store = (true, "left over", Samples.fresh_store)
  /\ _parse_block "" Samples.fresh_store = (true, "", Samples.fresh_store).
Proof.
  split.
  - apply (@untitled_text_is_dropped "left over" Samples.fresh_store). repeat constructor.
  - apply (@untitled_text_is_dropped "" Samples.fresh_store). repeat constructor.
Defined.

Lemma dict_set_twice (V : Type) (d : list (string * V)) k v w :
  dict_set (dict_set d k v) k w = dict_set d k w.
Proof.
  induction d as [|[k' v'] d IH]; cbn [dict_set].
  - now rewrite String.eqb_refl.
  - destruct (String.eqb k' k) eqn:E; cbn [dict_set]; rewrite E; [reflexivity|].
    now rewrite IH.
Qed.

Lemma store_block_twice nodes k v w :
  store_block (store_block nodes k v) k w = store_block nodes k (v +:+ w).
Proof.
  unfold store_block. rewrite dict_get_set_same, dict_set_twice.
  now rewrite append_assoc.
Qed.

Lemma loop_over_same_title blocks : forall t value nodes,
  Forall (fun b => fst b = t) blocks ->
  Forall (fun b => Forall no_title (snd b)) blocks ->
  gathered (get_nodes_loop (lines_of blocks) (Some t) value nodes) =
  store_block nodes t (value +:+ body_of (concat (map snd blocks))).
Proof.
  induction blocks as [|[t' ls] blocks IH]; intros t value nodes Ht Hb.
  - cbn. now rewrite append_nil_r.
  - inversion Ht as [|? ? Ht' Ht'']; subst. cbn [fst] in *.
    inversion Hb as [|? ? Hls Hb']; subst. cbn [snd] in Hls.
    cbn [lines_of flat_map fst snd]. rewrite <- app_comm_cons.
    cbn [get_nodes_loop]. rewrite strip_title, is_title_title, slice_title.
    replace (String.length ("<<" +:+ t' +:+ ">>") =? 0) with false by reflexivity.
    rewrite loop_over_body by assumption. cbn [String.append].
    change (flat_map (fun b => ("<<" +:+ fst b +:+ ">>") :: snd b) blocks)
      with (lines_of blocks).
    rewrite IH by assumption. rewrite store_block_twice.
    cbn [map snd concat]. now rewrite body_of_app.
Qed.

(** X6: a title that comes back in the same text does not overwrite its
    earlier block: when every block of the text has the title [t], the
    one concept [t] gets the kept lines of all the bodies (and of the
    lines ahead of the first title), in order, joined by newlines. *)
Theorem repeated_title_appends content pre t body blocks :
  split nl (strip content) = pre ++ lines_of ((t, body) :: blocks) ->
  Forall no_title pre ->
  Forall (fun b => fst b = t) blocks ->
  Forall (fun b => Forall no_title (snd b)) ((t, body) :: blocks) ->
  get_nodes content =
  [(t, join NL (kept_lines (pre ++ body ++ concat (map snd blocks))))].
Proof.
  intros Hlines Hpre Ht Hb. unfold get_nodes.
  rewrite Hlines, close_nodes_gathered, loop_over_body by assumption.
  inversion Hb as [|? ? Hbody Hb']; subst. cbn [snd] in Hbody.
  cbn [lines_of flat_map fst snd]. rewrite <- app_comm_cons.
  cbn [get_nodes_loop]. rewrite strip_title, is_title_title, slice_title.
  replace (String.length ("<<" +:+ t +:+ ">>") =? 0) with false by reflexivity.
  rewrite loop_over_body by assumption.
  change (flat_map (fun b => ("<<" +:+ fst b +:+ ">>") :: snd b) blocks)
    with (lines_of blocks).
  rewrite loop_over_same_title by assumption.
  unfold store_block. cbn [dict_get dict_set map fst snd String.append].
  now rewrite <- !body_of_app, <- app_assoc, strip_body_of.
Qed.

Lemma repeated_title_appends_witness :
  get_nodes MoreSamples.twice_t = [("t", "a" +:+ NL +:+ "b")].
Proof.
  apply (@repeated_title_appends MoreSamples.twice_t [] "t" ["a"] [("t", ["b"])]).
  - reflexivity.
  - constructor.
  - repeat constructor.
  - repeat constructor.
Defined.

(** *** Parsing the same text again *)

Lemma set_content_same n : set_content (content n) n = n.
Proof. now destruct n. Qed.

Lemma dict_set_same (V : Type) (d : list (string * V)) k v :
  dict_get d k = Some v -> dict_set d k v = d.
Proof.
  induction d as [|[k' v'] d IH]; cbn [dict_get dict_set]; [discriminate|].
  destruct (String.eqb k' k) eqn:E.
  - now intros [= ->].
  - intros H. now rewrite IH.
Qed.

Lemma upsert_block_same sm k v n :
  store_ok sm -> dict_get (concepts sm) k = Some n -> content n = v ->
  upsert_block sm (k, v) = sm.
Proof.
  intros (Hnd & Hk & Hdb) Hn Hv. unfold upsert_block. rewrite Hn. subst v.
  rewrite set_content_same.
  rewrite Hdb, (@db_upsert_mirror _ k n n Hnd Hk Hn), dict_set_same by assumption.
  destruct sm as [cs table]. cbn [concepts db] in *. now subst table.
Qed.

Lemma upsert_blocks_same nodes : forall sm,
  store_ok sm ->
  (forall k v, In (k, v) nodes ->
     exists n, dict_get (concepts sm) k = Some n /\ content n = v) ->
  fold_left upsert_block nodes sm = sm.
Proof.
  induction nodes as [|[k v] nodes IH]; intros sm Hok Hall; [reflexivity|].
  cbn [fold_left]. destruct (Hall k v (or_introl eq_refl)) as (n & Hn & Hv).
  rewrite (upsert_block_same _ Hok Hn Hv). apply IH; [assumption|].
  intros k' v' Hin. apply Hall. now right.
Qed.

(** X7: the block pass is idempotent: on a store whose table mirrors it,
    parsing the same text a second time changes neither the store nor
    the table. *)
Theorem parse_block_idempotent content sm :
  store_ok sm ->
  snd (_parse_block content (snd (_parse_block content sm))) =
  snd (_parse_block content sm).
Proof.
  intros Hok. cbn [_parse_block snd]. apply upsert_blocks_same.
  - apply fold_left_invariant with (Q := fun _ => True);
      auto using Forall_trivial, upsert_block_ok.
  - intros k v Hin.
    pose proof (get_nodes_NoDup content) as Hnd.
    rewrite upsert_blocks_lookup by assumption.
    rewrite (dict_get_NoDup_In _ _ _ Hnd Hin). eexists. split; [reflexivity|].
    unfold upserted. now destruct (dict_get (concepts sm) k).
Qed.

Lemma parse_block_idempotent_witness :
  snd (_parse_block MoreSamples.twice_t
         (snd (_parse_block MoreSamples.twice_t MoreSamples.store_A)))
  = snd (_parse_block MoreSamples.twice_t MoreSamples.store_A)
  /\ keys_of (snd (_parse_block MoreSamples.twice_t MoreSamples.store_A))
     = ["ROOT"; "A"; "t"].
Proof.
  split; [|reflexivity].
  apply (@parse_block_idempotent MoreSamples.twice_t MoreSamples.store_A).
  repeat split; cbn; repeat constructor; simpl; intuition discriminate.
Defined.

(** *** A call without show directive *)

Lemma parse_show_quiet content sm :
  search "show" content = None -> _parse_show content sm = Ok (false, content, sm).
Proof. intros H. unfold _parse_show, get_show_keys. now rewrite H. Qed.

Lemma read_tokens_quiet output_recall toks : forall seen result sm,
  (forall seen token, recall_returns output_recall seen token = true) ->
  Forall (fun b => search "show" b = None) (buffers result toks) ->
  exists seen',
    read_tokens output_recall (tokens_only toks) seen result sm
    = Ok (false, final_buffer result toks, sm, seen').
Proof.
  induction toks as [|[token|] toks IH]; intros seen result sm Hcb H;
    cbn [tokens_only map read_tokens buffers final_buffer] in *.
  - now exists seen.
  - inversion H as [|? ? Hq H']; subst. rewrite Hcb. unfold instant_parse.
    rewrite parse_show_quiet by assumption. now apply IH.
  - rewrite Hcb. now apply IH.
Qed.

(** X8: when the call of the model returns a response of tokens [toks]
    that does not break, the callback, if there is one, returns on every
    token, and no text the response goes through holds a show directive,
    add_content asks the model once, whatever fuel it has: it runs the
    hide and block pass on the whole response and returns the shown
    memory, a newline and the text of ROOT of the store it leaves. *)
Theorem add_content_single_pass prompt llm_inference output_recall fuel input role
    sm root toks :
  role = "user" \/ role = "system" ->
  dict_get (concepts sm) "ROOT" = Some root ->
  llm_inference (prompt (shown_nodes sm) (content root +:+ NL +:+ input) +:+ "")
  = Returns (tokens_only toks) ->
  (forall seen token, recall_returns output_recall seen token = true) ->
  Forall (fun b => search "show" b = None) (buffers "" toks) ->
  exists root',
    dict_get (concepts (snd (post_parse (final_buffer "" toks) sm))) "ROOT" = Some root'
    /\ add_content prompt llm_inference output_recall (S fuel) input role sm =
       Ok (get_show_memory (snd (post_parse (final_buffer "" toks) sm))
           +:+ NL +:+ content root',
           snd (post_parse (final_buffer "" toks) sm)).
Proof.
  intros Hrole Hroot Hllm Hcb Hquiet.
  destruct (post_parse_has_root (final_buffer "" toks) (ex_intro _ root Hroot))
    as (root' & Hroot').
  exists root'. split; [exact Hroot'|].
  unfold add_content.
  replace (String.eqb role "user" || String.eqb role "system") with true
    by (destruct Hrole; subst; reflexivity).
  rewrite Hroot. cbn [add_content_loop]. rewrite Hllm.
  destruct (read_tokens_quiet output_recall toks [] "" sm Hcb Hquiet) as [seen' ->].
  destruct (post_parse _ sm) as [[b text] sm'] eqn:Hp. cbn [snd] in *.
  now rewrite Hroot'.
Qed.

Lemma add_content_single_pass_witness :
  exists root',
    add_content Samples.plain_prompt MoreSamples.llm_block
      (Some (fun _ _ => true)) 7 "hi" "user" Samples.fresh_store
    = Ok (get_show_memory
            (snd (post_parse ("<<t>>" +:+ NL +:+ "body") Samples.fresh_store))
          +:+ NL +:+ content root',
          snd (post_parse ("<<t>>" +:+ NL +:+ "body") Samples.fresh_store)).
Proof.
  destruct (@add_content_single_pass Samples.plain_prompt MoreSamples.llm_block
              (Some (fun _ _ => true)) 6 "hi"
              "user" Samples.fresh_store (new_node "ROOT" "" false)
              [Some "<<t>>"; None; Some NL; Some "body"]
              (or_introl eq_refl) eq_refl eq_refl) as (root' & _ & H).
  - reflexivity.
  - repeat constructor.
  - exists root'. exact H.
Defined.

End SummaryMemoryMore.

(** * More on the agent *)

Module AgentMore.
Import PyStr PyStrFacts Agent Streams AgentFacts.

Lemma count_executes_app a b :
  count_executes (a ++ b) = count_executes a + count_executes b.
Proof.
  induction a as [|[] a IH]; cbn [app count_executes]; try assumption.
  - reflexivity.
  - now rewrite IH.
Qed.

Lemma count_parses_app a b : count_parses (a ++ b) = count_parses a + count_parses b.
Proof.
  induction a as [|[] a IH]; cbn [app count_parses]; try assumption.
  - reflexivity.
  - now rewrite IH.
Qed.

Lemma find_insert_other (l : list Memory.MemoryNode) ref n j :
  Memory.has_id j n = false ->
  find (Memory.has_id j) (Memory.insert_after ref n l) = find (Memory.has_id j) l.
Proof.
  intros Hn. induction l as [|x l IH]; cbn [Memory.insert_after find].
  - now rewrite Hn.
  - destruct (Memory.has_id ref x); cbn [find]; destruct (Memory.has_id j x);
      try reflexivity; [now rewrite Hn|assumption].
Qed.

Lemma find_has_id (l : list Memory.MemoryNode) j n :
  find (Memory.has_id j) l = Some n -> Memory.node_id n = j.
Proof.
  intros H. apply find_some in H as [_ H]. now apply Nat.eqb_eq in H.
Qed.

Section PlainFacts.
Variable env : Env.
Variable output_recall : callback.
Hypothesis callback_returns : forall tr o, returns (output_recall tr o) = true.

Lemma callback_raises_none tr o : raises (output_recall tr o) = None.
Proof. apply returns_raises, callback_returns. Qed.

Lemma end_of_turn_returns result is_stop st :
  end_of_turn output_recall result is_stop st =
  (Completed result is_stop, snd (await_recall output_recall None st)).
Proof. now rewrite end_of_turn_cases, callback_raises_none. Qed.

Lemma stream_plain tail toks : forall result st,
  ends tail ->
  Forall (fun buf => Forall (fun x => match_template x buf = false)
                       (output_interpreters env))
    (texts result toks) ->
  exists st',
    stream env output_recall (plain_response toks tail) result st =
    (Completed (result +:+ text_of toks) false, st')
    /\ trace st' = trace st ++ token_events toks ++ end_events tail
    /\ memory st' = memory st.
Proof.
  induction toks as [|token toks IH]; intros result st Hend Hno.
  - cbn [plain_response map app text_of fold_right token_events flat_map].
    rewrite append_nil_r.
    destruct Hend as [->|(rest & ->)]; cbn [stream]; rewrite end_of_turn_returns;
      rewrite await_recall_eq; cbn [snd trace memory emit end_events];
      eexists; repeat split. now rewrite <- app_assoc.
  - inversion Hno as [|? ? Hbuf Hno']; subst.
    cbn [plain_response map app stream]. rewrite await_recall_eq, callback_raises_none.
    rewrite dispatch_none by assumption.
    match goal with
    | |- context [stream env output_recall _ _ ?s] =>
        destruct (IH (result +:+ token) s Hend Hno') as (st' & Hs & Ht & Hm)
    end.
    unfold plain_response in Hs. rewrite Hs. exists st'.
    cbn [text_of fold_right]. fold (text_of toks). rewrite append_assoc.
    split; [reflexivity|]. cbn [trace memory emit] in Ht, Hm. split; [|assumption].
    rewrite Ht. cbn [token_events flat_map app]. now rewrite <- !app_assoc.
Qed.

(** X9: the plain answer: when the callback returns, the response is
    tokens followed by its end (the response runs out, or the None token
    comes, whatever follows that one) and no interpreter's pattern is
    found in any of the texts the buffer goes through, the try block
    completes with the concatenation of all the tokens and is_stop false;
    each token is taken and handed to the callback, then None is handed
    over, and no interpreter is invoked. *)
Theorem plain_answer_turn msgs st toks tail :
  llm_inference env (trace st) msgs = Returns (plain_response toks tail) ->
  ends tail ->
  Forall (fun buf => Forall (fun x => match_template x buf = false)
                       (output_interpreters env))
    (texts "" toks) ->
  exists st',
    try_block env output_recall msgs st = (Completed (text_of toks) false, st')
    /\ trace st' = trace st ++ token_events toks ++ end_events tail
    /\ memory st' = memory st.
Proof.
  intros Hllm Hend Hno. unfold try_block. rewrite Hllm.
  exact (stream_plain toks "" st Hend Hno).
Qed.

End PlainFacts.

Lemma plain_answer_turn_witness :
  exists st',
    try_block (Samples.env_of Samples.llm_words Samples.runs_py Samples.runs_sh)
      Samples.quiet [] Samples.st_question
    = (Completed "hello" false, st')
    /\ trace st' = [EToken (Some "hel"); ERecall (Some "hel");
                    EToken (Some "lo"); ERecall (Some "lo");
                    EToken None; ERecall None].
Proof.
  destruct (@plain_answer_turn
              (Samples.env_of Samples.llm_words Samples.runs_py Samples.runs_sh)
              Samples.quiet (fun _ _ => eq_refl) [] Samples.st_question
              ["hel"; "lo"] [Token None] eq_refl) as (st' & Htry & Htrace & _).
  - right. now exists [].
  - repeat constructor.
  - exists st'. split; [exact Htry|exact Htrace].
Defined.

Section CommitFacts.
Variable env : Env.
Variable output_recall : callback.

(** X10: a turn that returns another id than the one of the node it was
    given has completed: the id is the one the answer node was given, the
    next free one; that node is in the tree as a system answer below the
    given node, marked success, and its text is the concatenation of the
    tokens taken in the turn, not what an interpreter returned; of the
    nodes that were in the tree, the given one is marked success and the
    others are as they were. *)
Theorem completed_turn_commits node st id is_stop st' :
  Memory.wf (memory st) = true ->
  _execute_node env output_recall node st = (Ok (id, is_stop), st') ->
  id <> Memory.node_id node ->
  exists new,
    trace st' = trace st ++ new
    /\ id = Memory.next_id (memory st)
    /\ Memory.get_node (memory st') id =
       Some {| Memory.node_id := id; Memory.role := "system";
               Memory.action := "answer";
               Memory.content := text_of (tokens new);
               Memory.status := Memory.success;
               Memory.parent := Some (Memory.node_id node) |}
    /\ forall j n, j <> id ->
         Memory.get_node (memory st) j = Some n ->
         Memory.get_node (memory st') j =
         Some (if j =? Memory.node_id node then Memory.mark_success n else n).
Proof.
  intros Hwf Hrun Hid. unfold _execute_node in Hrun.
  destruct (prepare env output_recall node st) as [p st1] eqn:Hprep.
  destruct (prepare_spec _ _ _ _ Hprep) as (_ & Hp).
  destruct p as [[msgs answer]|]; [|discriminate].
  destruct Hp as (Hans & Hnodes & Hnext & Ht1).
  destruct (banner_counts node) as (_ & _ & Hbt & _).
  destruct (try_block env output_recall msgs st1)
    as [[result s|result s|result s] st2] eqn:Htry; [| |discriminate].
  - destruct (try_block_spec _ _ _ _ Htry)
      as (Hm2 & _ & new & Ht2 & _ & _ & Hres & _).
    cbn [result_of] in Hres. unfold commit in Hrun.
    injection Hrun as Hid' Hs Hst. subst st' s.
    assert (Hidans : Memory.node_id answer = Memory.next_id (memory st))
      by now rewrite Hans.
    rewrite Hidans in Hid'. subst id.
    eexists. split; [|split; [reflexivity|split]].
    + cbn [trace set_memory]. rewrite Ht2, Ht1, <- app_assoc. reflexivity.
    + rewrite tokens_app, Hbt. cbn [app memory set_memory]. rewrite Hm2.
      unfold Memory.success_node, Memory.set_content.
      rewrite !MemoryFacts.get_node_update by reflexivity.
      assert (Hfound : Memory.get_node (memory st1) (Memory.next_id (memory st))
                       = Some answer).
      { unfold Memory.get_node. rewrite Hnodes, <- Hidans.
        apply MemoryFacts.find_inserted. rewrite Hidans. exact Hwf. }
      rewrite Hfound, Hidans, Hres, Hans. cbn [option_map].
      unfold Memory.has_id, Memory.fresh, Memory.with_content.
      cbn [Memory.node_id Memory.role Memory.action Memory.content
           Memory.status Memory.parent].
      rewrite Nat.eqb_refl. cbn [Memory.node_id].
      rewrite (proj2 (Nat.eqb_neq _ _) Hid). cbn [Memory.node_id].
      now rewrite Nat.eqb_refl.
    + intros j n Hj Hget. cbn [memory set_memory]. rewrite Hm2.
      unfold Memory.success_node, Memory.set_content.
      rewrite !MemoryFacts.get_node_update by reflexivity.
      pose proof Hget as Hjn. apply find_has_id in Hjn.
      unfold Memory.get_node at 1. rewrite Hnodes, find_insert_other.
      2:{ unfold Memory.has_id. rewrite Hidans. apply Nat.eqb_neq. congruence. }
      unfold Memory.get_node in Hget. rewrite Hget. cbn [option_map].
      rewrite Hidans.
      subst j. apply Nat.eqb_neq in Hj. unfold Memory.has_id. rewrite Hj.
      destruct (Memory.node_id n =? Memory.node_id node);
        cbn [Memory.mark_success Memory.node_id]; now rewrite Hj.
  - unfold recover in Hrun.
    destruct (await_recall output_recall (Some result) st2) as [[e|] st3];
      [discriminate|].
    injection Hrun as Hid' _ _. congruence.
Qed.

End CommitFacts.

Lemma completed_turn_commits_witness :
  exists st',
    _execute_node (Samples.env_of Samples.llm_words Samples.runs_py Samples.runs_sh)
      Samples.quiet Samples.question Samples.st_question = (Ok (1, false), st')
    /\ Memory.get_node (memory st') 1 =
       Some {| Memory.node_id := 1; Memory.role := "system";
               Memory.action := "answer"; Memory.content := "hello";
               Memory.status := Memory.success; Memory.parent := Some 0 |}
    /\ Memory.get_node (memory st') 0 = Some (Memory.mark_success Samples.question).
Proof.
  eexists. split; [reflexivity|].
  destruct (@completed_turn_commits
              (Samples.env_of Samples.llm_words Samples.runs_py Samples.runs_sh)
              Samples.quiet Samples.question Samples.st_question 1 false _
              eq_refl eq_refl) as (new & Ht & _ & Hanswer & Hothers).
  - discriminate.
  - vm_compute in Ht. subst new. split; [exact Hanswer|].
    apply (Hothers 0 Samples.question); [discriminate|reflexivity].
Defined.

Section ParseFacts.
Variable env : Env.
Variable output_recall : callback.

Lemma stream_parses response : forall result st e st',
  stream env output_recall response result st = (e, st') ->
  exists new, trace st' = trace st ++ new /\ parses_once result new.
Proof.
  induction response as [|[[token|]|e0] response IH]; intros result st e st' H.
  - cbn [stream] in H. rewrite end_of_turn_cases in H. injection H as _ <-.
    exists [ERecall None]. split; [reflexivity|now left].
  - cbn [stream] in H. rewrite await_recall_eq in H.
    destruct (raises (output_recall (trace (emit (EToken (Some token)) st))
                (Some token))) as [e1|] eqn:R.
    + injection H as _ <-. cbn [trace emit stop].
      exists [EToken (Some token); ERecall (Some token)].
      split; [rewrite <- !app_assoc; reflexivity|now left].
    + match type of H with
      | context [dispatch ?l ?i ?r ?s] =>
          destruct (dispatch_cases l i r s) as [D|(j & I & _ & D)]; rewrite D in H
      end.
      * apply IH in H. cbn [trace emit] in H. destruct H as (new & Ht & Hp).
        exists (EToken (Some token) :: ERecall (Some token) :: new).
        split; [rewrite Ht, <- !app_assoc; reflexivity|].
        destruct Hp as [Hp|(a & i & r & b & -> & Ha & Hb & Htb & Hnb)]; [now left|].
        right. exists (EToken (Some token) :: ERecall (Some token) :: a), i, r, b.
        repeat split; try assumption.
        cbn [app tokens text_of fold_right]. fold (text_of (tokens a)).
        now rewrite append_assoc.
      * match type of H with
        | context [parse I ?tr ?c] => remember (parse I tr c) as r' eqn:P
        end.
        assert (Hhere : forall b,
                  count_parses b = 0 -> tokens b = [] ->
                  Forall (fun ev => ev <> EToken None) b ->
                  parses_once result
                    ([EToken (Some token); ERecall (Some token)]
                       ++ EParse j (result +:+ token) r' :: b)).
        { intros b Hb Htb Hnb. right.
          exists [EToken (Some token); ERecall (Some token)], j, r', b.
          cbn [tokens text_of fold_right]. rewrite append_nil_r.
          repeat split; assumption. }
        destruct r' as [[output is_stop]|e1].
        -- rewrite await_recall_eq in H.
           match type of H with
           | context [raises ?x] => destruct (raises x) as [e2|] eqn:R2
           end.
           ++ injection H as _ <-. cbn [trace emit stop].
              eexists. split; [rewrite <- !app_assoc; reflexivity|].
              apply (Hhere [ERecall (Some (NL +:+ output +:+ NL))]);
                [reflexivity|reflexivity|repeat constructor; discriminate].
           ++ rewrite end_of_turn_cases in H. injection H as _ <-.
              cbn [snd await_recall trace emit stop].
              eexists. split; [rewrite <- !app_assoc; reflexivity|].
              apply (Hhere [ERecall (Some (NL +:+ output +:+ NL)); ERecall None]);
                [reflexivity|reflexivity|repeat constructor; discriminate].
        -- injection H as _ <-. cbn [trace emit stop].
           eexists. split; [rewrite <- !app_assoc; reflexivity|].
           apply (Hhere []); [reflexivity|reflexivity|constructor].
  - cbn [stream] in H. rewrite end_of_turn_cases in H. injection H as _ <-.
    cbn [snd await_recall trace emit stop].
    exists [EToken None; ERecall None].
    split; [rewrite <- !app_assoc; reflexivity|now left].
  - cbn [stream] in H. injection H as _ <-.
    exists []. split; [now rewrite app_nil_r|now left].
Qed.

Lemma banner_parses node : count_parses (banner node) = 0.
Proof. unfold banner. now destruct (String.eqb (Memory.action node) "plan"). Qed.

(** X11: in one turn at most one interpreter is invoked, whatever the
    model streams and whatever the callback does: the events of a turn
    hold at most one call of parse; that call is handed the concatenation
    of all the tokens taken so far in the turn, and after it nothing more
    is taken from the response and no other interpreter is invoked. *)
Theorem turn_parses_once node st :
  exists new,
    trace (snd (_execute_node env output_recall node st)) = trace st ++ new
    /\ parses_once "" new.
Proof.
  destruct (_execute_node env output_recall node st) as [r st'] eqn:H.
  cbn [snd]. revert H. unfold _execute_node.
  destruct (prepare env output_recall node st) as [p st1] eqn:Hprep.
  destruct (prepare_spec _ _ _ _ Hprep) as (_ & Hp).
  pose proof (banner_parses node) as Hbp.
  destruct (banner_counts node) as (_ & _ & Hbt & _).
  destruct p as [[msgs answer]|].
  - destruct Hp as (_ & _ & _ & Ht1).
    assert (Hturn : forall new tail,
              parses_once "" new -> count_parses tail = 0 -> tokens tail = [] ->
              Forall (fun ev => ev <> EToken None) tail ->
              parses_once "" (banner node ++ new ++ tail)).
    { intros new tail [Hp|(a & i & r0 & b & -> & Ha & Hb & Htb & Hnb)] Hc Ht Hn.
      - left. now rewrite !count_parses_app, Hbp, Hp, Hc.
      - right. exists (banner node ++ a), i, r0, (b ++ tail).
        rewrite tokens_app, Hbt, count_parses_app, Hbp, Ha.
        rewrite count_parses_app, Hb, Hc, tokens_app, Htb, Ht.
        repeat split; [|now apply Forall_app].
        cbn [app]. now rewrite <- !app_assoc, <- app_comm_cons. }
    unfold try_block.
    destruct (llm_inference env (trace st1) msgs) as [response|e0].
    + destruct (stream env output_recall response "" st1) as [e st2] eqn:Hs.
      destruct (stream_parses _ _ _ Hs) as (new & Ht2 & Hp).
      destruct e as [result s|result s|result s].
      * intros [= _ <-]. cbn [trace set_memory]. exists (banner node ++ new ++ []).
        split; [now rewrite Ht2, Ht1, app_nil_r, <- app_assoc|].
        apply Hturn; [assumption|reflexivity|reflexivity|constructor].
      * unfold recover. rewrite await_recall_eq.
        destruct (raises _); intros [= _ <-]; cbn [trace set_memory];
          (exists (banner node ++ new ++ [ERecall (Some result)]);
           split; [now rewrite Ht2, Ht1, <- !app_assoc|];
           apply Hturn; [assumption|reflexivity|reflexivity|
                          repeat constructor; discriminate]).
      * intros [= _ <-]. exists (banner node ++ new ++ []).
        split; [now rewrite Ht2, Ht1, app_nil_r, <- app_assoc|].
        apply Hturn; [assumption|reflexivity|reflexivity|constructor].
    + destruct e0; cbn [raised_in_try].
      * unfold recover. rewrite await_recall_eq.
        destruct (raises _); intros [= _ <-]; cbn [trace set_memory];
          (exists (banner node ++ [] ++ [ERecall (Some "")]);
           split; [now rewrite Ht1, <- !app_assoc|];
           apply Hturn; [now left|reflexivity|reflexivity|
                          repeat constructor; discriminate]).
      * intros [= _ <-]. exists (banner node ++ [] ++ []).
        split; [now rewrite Ht1, !app_nil_r|].
        apply Hturn; [now left|reflexivity|reflexivity|constructor].
  - intros [= _ <-]. destruct Hp as [[Ht _]|[Ht _]].
    + exists [EExecute (Memory.node_id node)]. split; [exact Ht|now left].
    + exists (banner node). split; [exact Ht|now left].
Qed.

End ParseFacts.

Section LoopFacts.
Variable env : Env.
Variable output_recall : callback.

Lemma count_executes_turn new : Forall turn_event new -> count_executes new = 0.
Proof.
  induction 1 as [|ev new Hev _ IH]; [reflexivity|].
  destruct ev; cbn [count_executes]; try assumption; destruct Hev.
Qed.

Lemma stop_event_set st : stop_event st = true -> stop true st = st.
Proof.
  destruct st as [m tr s r]. cbn [stop_event]. intros ->. reflexivity.
Qed.

(** A turn leaves [is_running] as it is, does not clear the stop flag,
    and is entered once. *)
Lemma execute_node_frame node st r st' :
  _execute_node env output_recall node st = (r, st') ->
  is_running st' = is_running st
  /\ (stop_event st = true -> stop_event st' = true)
  /\ exists new, trace st' = trace st ++ new /\ count_executes new = 1.
Proof.
  intros H. split; [|split].
  - revert H. unfold _execute_node.
    destruct (prepare env output_recall node st) as [p st1] eqn:Hprep.
    destruct (prepare_spec _ _ _ _ Hprep) as (Hr1 & _).
    destruct p as [[msgs answer]|]; [|now intros [= _ <-]].
    destruct (try_block env output_recall msgs st1) as [e st2] eqn:Htry.
    destruct (try_block_spec _ _ _ _ Htry) as (_ & Hr2 & _).
    destruct e as [result s|result s|result s].
    + intros [= _ <-]. cbn [is_running set_memory]. congruence.
    + unfold recover. rewrite await_recall_eq.
      destruct (raises _); intros [= _ <-]; cbn [is_running set_memory]; congruence.
    + intros [= _ <-]. congruence.
  - intros Hs. rewrite <- (stop_event_set st Hs), execute_node_stop in H.
    injection H as _ <-. cbn [stop stop_event]. apply orb_true_r.
  - revert H. unfold _execute_node.
    destruct (prepare env output_recall node st) as [p st1] eqn:Hprep.
    destruct (prepare_spec _ _ _ _ Hprep) as (_ & Hp).
    destruct (banner_counts node) as (_ & Hb & _).
    destruct p as [[msgs answer]|].
    2:{ intros [= _ <-]. destruct Hp as [[Ht _]|[Ht _]]; eexists; split;
          [exact Ht|reflexivity|exact Ht|exact Hb]. }
    destruct Hp as (_ & _ & _ & Ht1).
    destruct (try_block env output_recall msgs st1) as [e st2] eqn:Htry.
    destruct (try_block_spec _ _ _ _ Htry) as (_ & _ & new & Ht2 & Hev & _).
    apply count_executes_turn in Hev.
    destruct e as [result s|result s|result s].
    + intros [= _ <-]. cbn [trace set_memory]. exists (banner node ++ new).
      split; [now rewrite Ht2, Ht1, <- app_assoc|].
      now rewrite count_executes_app, Hb, Hev.
    + unfold recover. rewrite await_recall_eq.
      destruct (raises _); intros [= _ <-]; cbn [trace set_memory];
        (exists (banner node ++ new ++ [ERecall (Some result)]);
         split; [now rewrite Ht2, Ht1, <- !app_assoc|];
         now rewrite !count_executes_app, Hb, Hev).
    + intros [= _ <-]. exists (banner node ++ new).
      split; [now rewrite Ht2, Ht1, <- app_assoc|].
      now rewrite count_executes_app, Hb, Hev.
Qed.

Lemma loop_body_frame node st e st' :
  loop_body env output_recall node st = (e, st') ->
  is_running st' = match e with Return None => false | _ => is_running st end
  /\ (stop_event st = true ->
      stop_event st' = true /\ forall todo_node, e <> Continue todo_node)
  /\ exists new, trace st' = trace st ++ new /\ count_executes new = 1.
Proof.
  unfold loop_body.
  destruct (_execute_node env output_recall node st) as [r st1] eqn:H.
  destruct (execute_node_frame _ _ H) as (Hr & Hs & new & Ht & Hc).
  destruct r as [[id [|]]| |].
  - intros [= <- <-]. repeat split; try assumption; try discriminate.
    + now apply Hs. 
    + now exists new.
  - cbn [emit stop stop_event trace].
    destruct (stop_event st1 || sleep_stop env (trace st1)) eqn:F.
    + intros [= <- <-]. cbn [is_running stop_event trace set_running emit stop].
      repeat split; try assumption; try discriminate.
      exists (new ++ [EPoll]). split; [now rewrite Ht, <- app_assoc|].
      now rewrite count_executes_app, Hc.
    + intros [= <- <-]. cbn [is_running stop_event trace emit stop].
      split; [assumption|]. split.
      * intros Hset. apply Hs in Hset. rewrite Hset in F. discriminate.
      * exists (new ++ [EPoll]). split; [now rewrite Ht, <- app_assoc|].
        now rewrite count_executes_app, Hc.
  - intros [= <- <-]. repeat split; try assumption; try discriminate.
    + now apply Hs.
    + now exists new.
  - intros [= <- <-]. repeat split; try assumption; try discriminate.
    + now apply Hs.
    + now exists new.
Qed.

Lemma run_loop_running fuel : forall todo_node st r st',
  run_loop env output_recall fuel todo_node st = (r, st') ->
  is_running st' = match r with Ok None => false | _ => is_running st end.
Proof.
  induction fuel as [|fuel IH]; intros [node|] st r st'; cbn [run_loop];
    try (now intros [= <- <-]).
  destruct (loop_body env output_recall node st) as [e st1] eqn:Hb.
  destruct (loop_body_frame _ _ Hb) as (Hr & _).
  destruct e as [[id|]|todo_node|].
  - now intros [= <- <-].
  - now intros [= <- <-].
  - intros H. apply IH in H. rewrite H, Hr. reflexivity.
  - now intros [= <- <-].
Qed.

Lemma dispatch_input_frame interps : forall i content st r st',
  dispatch_input interps i content st = (r, st') ->
  r <> OutOfFuel
  /\ is_running st' = is_running st /\ stop_event st' = stop_event st
  /\ exists new, trace st' = trace st ++ new /\ count_executes new = 0.
Proof.
  induction interps as [|x interps IH]; intros i content st r st'; cbn [dispatch_input].
  - intros [= <- <-]. repeat split; try discriminate. exists []. now rewrite app_nil_r.
  - destruct (input_match_template x content); [|apply IH].
    destruct (input_parse x (trace st) content (memory st)); intros [= <- <-];
      cbn [is_running stop_event trace emit set_memory];
      (repeat split; try discriminate); now exists [EInputParse i content].
Qed.

Lemma insert_node_frame input for_node_id st r st' :
  _insert_node input for_node_id st = (r, st') ->
  r <> OutOfFuel
  /\ is_running st' = is_running st /\ stop_event st' = stop_event st
  /\ trace st' = trace st.
Proof.
  unfold _insert_node. destruct for_node_id as [id|].
  - destruct (Memory.get_node (memory st) id); intros [= <- <-];
      repeat split; discriminate.
  - intros [= <- <-]. repeat split; discriminate.
Qed.

(** X12: is_running is set at the start of run and cleared only where
    run returns None: after a run that returns None it is false; after a
    run that returns the id of a node, lets an exception escape or is
    cut off, it is still true. *)
Theorem run_is_running fuel input for_node_id st :
  is_running (snd (run env output_recall fuel input for_node_id st)) =
  match fst (run env output_recall fuel input for_node_id st) with
  | Ok None => false
  | _ => true
  end.
Proof.
  assert (Hfrom : forall input_node s,
            is_running s = true ->
            is_running (snd (run_from env output_recall fuel input_node s)) =
            match fst (run_from env output_recall fuel input_node s) with
            | Ok None => false
            | _ => true
            end).
  { intros input_node s Hs. unfold run_from. destruct input_node as [n|].
    - destruct (dispatch_input _ _ _ _) as [[[]| |] s1] eqn:Hd;
        apply dispatch_input_frame in Hd as (Hne & Hr & _);
        cbn [is_running set_memory] in Hr.
      + destruct (run_loop env output_recall fuel
                    (first_todo (Some n) (memory s1)) s1) as [r s2] eqn:Hl.
        cbn [fst snd]. apply run_loop_running in Hl. rewrite Hl, Hr, Hs. reflexivity.
      + cbn [fst snd]. congruence.
      + now destruct Hne.
    - destruct (run_loop env output_recall fuel (first_todo None (memory s)) s)
        as [r s2] eqn:Hl.
      cbn [fst snd]. apply run_loop_running in Hl. rewrite Hl, Hs. reflexivity. }
  unfold run. destruct input as [text|];
    [|exact (Hfrom None (set_running true st) eq_refl)].
  destruct (_insert_node text for_node_id (set_running true st)) as [[n| |] s] eqn:Hi;
    apply insert_node_frame in Hi as (_ & Hr & _); cbn [is_running set_running] in Hr.
  - now apply Hfrom.
  - exact Hr.
  - exact Hr.
Qed.

(** X13: the stop flag is never cleared, and the loop reads it only after
    a turn: a run of an agent whose flag is already set goes through at
    most one turn, however many nodes are pending, it ends with one round
    of fuel, and the flag is still set afterwards. *)
Theorem stopped_agent_runs_one_turn fuel input for_node_id st :
  stop_event st = true ->
  fst (run env output_recall (S fuel) input for_node_id st) <> OutOfFuel
  /\ stop_event (snd (run env output_recall (S fuel) input for_node_id st)) = true
  /\ exists new,
       trace (snd (run env output_recall (S fuel) input for_node_id st))
       = trace st ++ new
       /\ count_executes new <= 1.
Proof.
  intros Hstop.
  assert (Hloop : forall todo_node s,
            stop_event s = true ->
            fst (run_loop env output_recall (S fuel) todo_node s) <> OutOfFuel
            /\ stop_event (snd (run_loop env output_recall (S fuel) todo_node s)) = true
            /\ exists new,
                 trace (snd (run_loop env output_recall (S fuel) todo_node s))
                 = trace s ++ new
                 /\ count_executes new <= 1).
  { intros [node|] s Hs; cbn [run_loop].
    - destruct (loop_body env output_recall node s) as [e s1] eqn:Hb.
      destruct (loop_body_frame _ _ Hb) as (_ & Hset & new & Ht & Hc).
      destruct (Hset Hs) as (Hs1 & Hcont).
      destruct e as [r|todo_node|]; cbn [fst snd].
      + repeat split; [discriminate|assumption|]. exists new. split; [assumption|lia].
      + now destruct (Hcont todo_node).
      + repeat split; [discriminate|assumption|]. exists new. split; [assumption|lia].
    - cbn [fst snd stop_event trace set_running].
      repeat split; [discriminate|assumption|]. exists []. split; [now rewrite app_nil_r|cbn; lia]. }
  assert (Hfrom : forall input_node s,
            stop_event s = true ->
            fst (run_from env output_recall (S fuel) input_node s) <> OutOfFuel
            /\ stop_event (snd (run_from env output_recall (S fuel) input_node s)) = true
            /\ exists new,
                 trace (snd (run_from env output_recall (S fuel) input_node s))
                 = trace s ++ new
                 /\ count_executes new <= 1).
  { intros input_node s Hs. unfold run_from. destruct input_node as [n|].
    - destruct (dispatch_input _ _ _ _) as [[[]| |] s1] eqn:Hd;
        apply dispatch_input_frame in Hd as (Hne & _ & Hse & pre & Htp & Hcp);
        cbn [stop_event set_memory trace] in Hse, Htp.
      + destruct (Hloop (first_todo (Some n) (memory s1)) s1)
          as (Hf & Hs' & new & Ht & Hc); [congruence|].
        repeat split; [assumption|assumption|].
        exists (pre ++ new). split; [now rewrite Ht, Htp, <- app_assoc|].
        rewrite count_executes_app. lia.
      + cbn [fst snd]. repeat split; [discriminate|congruence|].
        exists pre. split; [assumption|lia].
      + now destruct Hne.
    - now apply Hloop. }
  unfold run. destruct input as [text|];
    [|exact (Hfrom None (set_running true st) Hstop)].
  destruct (_insert_node text for_node_id (set_running true st)) as [[n| |] s] eqn:Hi;
    apply insert_node_frame in Hi as (Hne & _ & Hse & Ht);
    cbn [stop_event trace set_running] in Hse, Ht.
  - destruct (Hfrom (Some n) s) as (Hf & Hs' & new & Htn & Hc); [congruence|].
    repeat split; [assumption|assumption|]. exists new. now rewrite Htn, Ht.
  - cbn [fst snd]. repeat split; [discriminate|congruence|].
    exists []. split; [now rewrite app_nil_r|cbn; lia].
  - now destruct Hne.
Qed.

End LoopFacts.

Lemma stopped_agent_runs_one_turn_witness :
  fst (run (Samples.env_of Samples.llm_words Samples.runs_py Samples.runs_sh)
         Samples.quiet 1 None None MoreSamples.st_stopped) = Ok None
  /\ count_executes
       (trace (snd (run (Samples.env_of Samples.llm_words Samples.runs_py Samples.runs_sh)
                      Samples.quiet 1 None None MoreSamples.st_stopped))) = 1
  /\ stop_event
       (snd (run (Samples.env_of Samples.llm_words Samples.runs_py Samples.runs_sh)
               Samples.quiet 1 None None MoreSamples.st_stopped)) = true.
Proof.
  split; [reflexivity|]. split; [reflexivity|].
  exact (proj1 (proj2 (@stopped_agent_runs_one_turn
                         (Samples.env_of Samples.llm_words Samples.runs_py Samples.runs_sh)
                         Samples.quiet 0 None None MoreSamples.st_stopped eq_refl))).
Defined.

Section RetryFacts.
Variable env : Env.
Variable output_recall : callback.
Hypothesis prompt_renders : forall tr, system_prompt env tr <> None.
Hypothesis model_raises :
  forall tr msgs, llm_inference env tr msgs = Raises Exception.
Hypothesis callback_returns : forall tr o, returns (output_recall tr o) = true.
Hypothesis callback_quiet : forall tr o, sets_stop (output_recall tr o) = false.
Hypothesis sleep_quiet : forall tr, sleep_stop env tr = false.

(** A turn whose model call raises an Exception gives the node back and
    leaves the nodes and the stop flag as they were. *)
Lemma failed_turn node st :
  Memory.wf (memory st) = true ->
  exists st',
    _execute_node env output_recall node st = (Ok (Memory.node_id node, false), st')
    /\ Memory.nodes (memory st') = Memory.nodes (memory st)
    /\ Memory.next_id (memory st') = S (Memory.next_id (memory st))
    /\ stop_event st' = stop_event st.
Proof.
  intros Hwf. unfold _execute_node, prepare. cbn [trace emit].
  pose proof (prompt_renders (trace st ++ [EExecute (Memory.node_id node)])) as Hr.
  destruct (system_prompt env (trace st ++ [EExecute (Memory.node_id node)]));
    [|now destruct Hr].
  cbn [Memory.add_node_after].
  destruct (String.eqb (Memory.action node) "plan").
  - rewrite await_recall_eq, (returns_raises _ (callback_returns _ _)).
    unfold try_block. rewrite model_raises. cbn [raised_in_try]. unfold recover.
    rewrite await_recall_eq, (returns_raises _ (callback_returns _ _)).
    eexists. split; [reflexivity|].
    cbn [memory set_memory emit stop_event Memory.delete_node Memory.nodes
         Memory.next_id Memory.set_current_node trace].
    rewrite !callback_quiet, !orb_false_r. repeat split.
    apply (MemoryFacts.delete_inserted _ (Memory.node_id node)
             (Memory.fresh (memory st) "system" "answer" ""
                (Some (Memory.node_id node)))).
    exact Hwf.
  - unfold try_block. rewrite model_raises. cbn [raised_in_try]. unfold recover.
    rewrite await_recall_eq, (returns_raises _ (callback_returns _ _)).
    eexists. split; [reflexivity|].
    cbn [memory set_memory emit stop_event Memory.delete_node Memory.nodes
         Memory.next_id Memory.set_current_node trace].
    rewrite !callback_quiet, !orb_false_r. repeat split.
    apply (MemoryFacts.delete_inserted _ (Memory.node_id node)
             (Memory.fresh (memory st) "system" "answer" ""
                (Some (Memory.node_id node)))).
    exact Hwf.
Qed.

Lemma wf_next m m' :
  Memory.nodes m' = Memory.nodes m -> Memory.next_id m' = S (Memory.next_id m) ->
  Memory.wf m = true -> Memory.wf m' = true.
Proof.
  unfold Memory.wf. intros -> ->. rewrite !forallb_forall. intros H n Hn.
  specialize (H n Hn). apply Nat.ltb_lt in H. apply Nat.ltb_lt. lia.
Qed.

Lemma run_loop_retries fuel : forall node st,
  Memory.wf (memory st) = true ->
  stop_event st = false ->
  Memory.get_todo_node (memory st) <> None ->
  fst (run_loop env output_recall fuel (Some node) st) = OutOfFuel.
Proof.
  induction fuel as [|fuel IH]; intros node st Hwf Hstop Htodo; [reflexivity|].
  cbn [run_loop]. unfold loop_body.
  destruct (failed_turn node st Hwf) as (st' & -> & Hnodes & Hnext & Hs).
  cbn [emit stop stop_event trace]. rewrite Hs, Hstop, sleep_quiet. cbn [orb].
  assert (Hsame : Memory.get_todo_node (memory st') = Memory.get_todo_node (memory st))
    by (unfold Memory.get_todo_node; now rewrite Hnodes).
  rewrite Hsame.
  destruct (Memory.get_todo_node (memory st)) as [todo_node|] eqn:E; [|now destruct Htodo].
  apply IH; cbn [memory stop_event emit stop].
  - exact (wf_next _ _ Hnodes Hnext Hwf).
  - now rewrite Hs, Hstop.
  - unfold Memory.get_todo_node in *. rewrite Hnodes, E. discriminate.
Qed.


End RetryFacts.


Section RaiseFacts.
Variable env : Env.
Variable output_recall : callback.
Hypothesis callback_raises : forall tr o, returns (output_recall tr o) = false.

Lemma callback_raises_some tr o : exists e, raises (output_recall tr o) = Some e.
Proof. apply raises_returns, callback_raises. Qed.

Lemma stream_raises response result st :
  forall r s, fst (stream env output_recall response result st) <> Completed r s.
Proof.
  intros r s. destruct response as [|[[token|]|e0] response]; cbn [stream].
  - rewrite end_of_turn_cases.
    destruct (callback_raises_some (trace st) None) as [e ->]. now destruct e.
  - rewrite await_recall_eq.
    match goal with
    | |- context [raises (output_recall ?tr ?o)] =>
        destruct (callback_raises_some tr o) as [e ->]
    end. now destruct e.
  - rewrite end_of_turn_cases.
    match goal with
    | |- context [raises (output_recall ?tr ?o)] =>
        destruct (callback_raises_some tr o) as [e ->]
    end. now destruct e.
  - now destruct e0.
Qed.

Lemma execute_node_raises node st :
  fst (_execute_node env output_recall node st) = Exc.
Proof.
  unfold _execute_node, prepare. cbn [trace emit].
  destruct (system_prompt env (trace st ++ [EExecute (Memory.node_id node)]))
    as [prompt|]; [|reflexivity].
  cbn [Memory.add_node_after].
  assert (Htry : forall msgs s,
            fst (match try_block env output_recall msgs s with
                 | (Completed result is_stop, s') =>
                     commit node
                       (Memory.fresh (memory st) "system" "answer" ""
                          (Some (Memory.node_id node))) result is_stop s'
                 | (Excepted result is_stop, s') =>
                     recover output_recall node
                       (Memory.fresh (memory st) "system" "answer" ""
                          (Some (Memory.node_id node))) result is_stop s'
                 | (Aborted _ _, s') => (Exc, s')
                 end) = Exc).
  { intros msgs s. unfold try_block.
    assert (Hrec : forall result is_stop s',
              fst (recover output_recall node
                     (Memory.fresh (memory st) "system" "answer" ""
                        (Some (Memory.node_id node))) result is_stop s') = Exc).
    { intros result is_stop s'. unfold recover. rewrite await_recall_eq.
      now destruct (callback_raises_some (trace s') (Some result)) as [e ->]. }
    destruct (llm_inference env (trace s) msgs) as [response|[|]].
    - pose proof (stream_raises response "" s) as Hs.
      destruct (stream env output_recall response "" s) as [[r0 s0|r0 s0|r0 s0] s'];
        cbn [fst] in Hs; [now destruct (Hs r0 s0)|apply Hrec|reflexivity].
    - cbn [raised_in_try]. apply Hrec.
    - reflexivity. }
  destruct (String.eqb (Memory.action node) "plan"); [|apply Htry].
  rewrite await_recall_eq.
  match goal with
  | |- context [raises (output_recall ?tr ?o)] =>
      destruct (callback_raises_some tr o) as [e ->]
  end. reflexivity.
Qed.

(** X15: a callback that cannot be awaited makes every run with an input
    raise: when every call of the callback raises, as awaiting the plain
    function default_output_recall does, no turn returns, whatever the
    node, the model and the interpreters; and a run that is given an
    input and may go through at least one round lets an exception
    escape. *)
Theorem raising_callback_escapes fuel text for_node_id st :
  (forall node s, fst (_execute_node env output_recall node s) = Exc)
  /\ fst (run env output_recall (S fuel) (Some text) for_node_id st) = Exc.
Proof.
  split; [exact execute_node_raises|].
  assert (Hloop : forall node s,
            fst (run_loop env output_recall (S fuel) (Some node) s) = Exc).
  { intros node s. cbn [run_loop]. unfold loop_body.
    pose proof (execute_node_raises node s) as H.
    destruct (_execute_node env output_recall node s) as [r s1].
    cbn [fst] in H. now subst r. }
  unfold run.
  destruct (_insert_node text for_node_id (set_running true st)) as [[n| |] s] eqn:Hi.
  - unfold run_from.
    destruct (dispatch_input _ _ _ _) as [[[]| |] s1] eqn:Hd.
    + unfold first_todo.
      destruct (Memory.get_todo_node (memory s1)); cbn [option_map]; apply Hloop.
    + reflexivity.
    + now apply dispatch_input_frame in Hd as (Hne & _).
  - reflexivity.
  - now apply insert_node_frame in Hi as (Hne & _).
Qed.

End RaiseFacts.

Lemma raising_callback_escapes_witness :
  fst (run (Samples.env_of Samples.llm_words Samples.runs_py Samples.runs_sh)
         default_output_recall 1 (Some "q") None Samples.st0) = Exc.
Proof.
  exact (proj2 (@raising_callback_escapes
                  (Samples.env_of Samples.llm_words Samples.runs_py Samples.runs_sh)
                  default_output_recall (fun _ _ => eq_refl) 0 "q" None Samples.st0)).
Defined.

End AgentMore.

(** * The host description *)

Module PlatformFacts.
Import PyStr Platform.

(** X16: get_os_version gives no string in exactly one case: on Linux
    with a distribution that is neither CentOS nor Ubuntu it falls off
    its end and returns None; it raises exactly when the system is Linux
    and the platform module has no linux_distribution; in every other
    case it returns a string. *)
Theorem os_version_missing h :
  (get_os_version h = Ok None <->
   system h = "Linux"
   /\ exists name release, linux_distribution h = Some (name, release)
        /\ name <> "CentOS" /\ name <> "Ubuntu")
  /\ (get_os_version h = Exc <-> system h = "Linux" /\ linux_distribution h = None)
  /\ get_os_version h <> OutOfFuel.
Proof.
  unfold get_os_version.
  destruct (String.eqb (system h) "Windows") eqn:W.
  { apply String.eqb_eq in W. rewrite W.
    repeat split; try discriminate; intros [E _]; discriminate. }
  destruct (String.eqb (system h) "Darwin") eqn:D.
  { apply String.eqb_eq in D. rewrite D.
    repeat split; try discriminate; intros [E _]; discriminate. }
  destruct (String.eqb (system h) "Linux") eqn:L.
  - apply String.eqb_eq in L.
    destruct (linux_distribution h) as [[name release]|].
    + destruct (String.eqb name "CentOS") eqn:C.
      { apply String.eqb_eq in C. repeat split; try discriminate.
        - intros (_ & name' & release' & [= <- _] & Hc & _). now destruct Hc.
        - intros [_ E]. discriminate. }
      destruct (String.eqb name "Ubuntu") eqn:U.
      { apply String.eqb_eq in U. repeat split; try discriminate.
        - intros (_ & name' & release' & [= <- _] & _ & Hu). now destruct Hu.
        - intros [_ E]. discriminate. }
      apply String.eqb_neq in C, U. repeat split; try discriminate; try assumption.
      * exists name, release. auto.
      * intros [_ E]. discriminate.
    + repeat split; try discriminate; try assumption.
      intros (_ & name & release & E & _). discriminate.
  - apply String.eqb_neq in L.
    repeat split; try discriminate; intros [E _]; now destruct L.
Qed.

End PlatformFacts.
